(** * rejson: JSON text <-> Node tree (src/json_object.c)

    A shallow embedding of the parser ([CreateNodeFromJSON] with its lexer
    callbacks) and of the serializer ([SerializeNodeToJSON] with its walker
    callbacks), followed by the properties of the specification. *)

From Stdlib Require Import ZArith List String Ascii Bool Lia.
From Stdlib Require Import Floats.SpecFloat.
Import ListNotations.

Local Open Scope list_scope.
Local Open Scope string_scope.
Local Open Scope Z_scope.

(* ===================================================================== *)
(** * Bytes and buffers *)
(* ===================================================================== *)

(** A C [char] is an [ascii]; [code c] is [(unsigned char)c]. *)
Definition code (c : ascii) : Z := Z.of_N (N_of_ascii c).

(** [buf + off] : the bytes of a buffer from an offset on. *)
Fixpoint drop (n : nat) (s : string) : string :=
  match n, s with
  | O, _ => s
  | S n', String _ s' => drop n' s'
  | S _, EmptyString => EmptyString
  end.

(** [n] copies of a string, as the indentation loop appends them. *)
Fixpoint repeat_string (n : nat) (s : string) : string :=
  match n with
  | O => ""
  | S n' => s ++ repeat_string n' s
  end.

(** The quotation mark, and a text between quotation marks. *)
Definition DQUOTE : ascii := Eval compute in ascii_of_nat 34.
Definition BACKSLASH : ascii := Eval compute in ascii_of_nat 92.
Definition quoted (s : string) : string := String DQUOTE (s ++ String DQUOTE "").

(** A [const char *] read as a C string ends at its first NUL byte. *)
Fixpoint c_str (s : string) : string :=
  match s with
  | EmptyString => ""
  | String c s' => if (c =? "000")%char then "" else String c (c_str s')
  end.

(* ===================================================================== *)
(** * The C library functions the code calls *)
(* ===================================================================== *)

Module Libc.

(** [isprint] in the C locale: the bytes 0x20 .. 0x7e. *)
Definition isprint (c : ascii) : bool := (32 <=? code c) && (code c <=? 126).

(** [isspace] in the C locale. *)
Definition isspace (c : ascii) : bool :=
  (code c =? 32) || ((9 <=? code c) && (code c <=? 13)).

Definition isdigit (c : ascii) : bool := (48 <=? code c) && (code c <=? 57).

Definition digit_val (c : ascii) : Z := code c - 48.

Definition ERANGE : Z := 34.
Definition LLONG_MAX : Z := 9223372036854775807.
Definition LLONG_MIN : Z := -9223372036854775808.

(** The digits a conversion consumes, and the rest. *)
Fixpoint span_digits (s : string) : string * string :=
  match s with
  | String c s' =>
      if isdigit c then let (d, r) := span_digits s' in (String c d, r)
      else ("", s)
  | EmptyString => ("", "")
  end.

Fixpoint skip_space (s : string) : nat * string :=
  match s with
  | String c s' =>
      if isspace c then let (n, r) := skip_space s' in (S n, r) else (O, s)
  | EmptyString => (O, "")
  end.

(** The value of a run of decimal digits, most significant first. *)
Fixpoint digits_value (acc : Z) (s : string) : Z :=
  match s with
  | String c s' => digits_value (acc * 10 + digit_val c) s'
  | EmptyString => acc
  end.

(** An optional sign: the flag is [true] for [-]. *)
Definition take_sign (s : string) : bool * nat * string :=
  match s with
  | String "-" s' => (true, 1%nat, s')
  | String "+" s' => (false, 1%nat, s')
  | _ => (false, O, s)
  end.

Record strtoll_result := {
  ll_value : Z;      (* the returned long long *)
  ll_end : nat;      (* eptr - nptr *)
  ll_errno : Z       (* errno after the call, 0 when untouched *)
}.

(** [strtoll(nptr, &eptr, 10)]: white space, an optional sign, decimal
    digits; a value out of range is clamped and [errno] set to [ERANGE];
    without digits nothing is consumed. *)
Definition strtoll (nptr : string) : strtoll_result :=
  let '(nsp, s1) := skip_space nptr in
  let '(neg, nsg, s2) := take_sign s1 in
  let '(ds, _) := span_digits s2 in
  match ds with
  | EmptyString => {| ll_value := 0; ll_end := O; ll_errno := 0 |}
  | _ =>
      let mag := digits_value 0 ds in
      let v := if neg then - mag else mag in
      let e := (nsp + nsg + String.length ds)%nat in
      if v >? LLONG_MAX then {| ll_value := LLONG_MAX; ll_end := e; ll_errno := ERANGE |}
      else if v <? LLONG_MIN then {| ll_value := LLONG_MIN; ll_end := e; ll_errno := ERANGE |}
      else {| ll_value := v; ll_end := e; ll_errno := 0 |}
  end.

(** Decimal digits of a non-negative number, least significant first; the
    fuel bounds the number of digits. *)
Fixpoint dec_rev (fuel : nat) (v : Z) : list ascii :=
  match fuel with
  | O => []
  | S fuel' =>
      ascii_of_N (Z.to_N (48 + v mod 10)) ::
      (if v / 10 =? 0 then [] else dec_rev fuel' (v / 10))
  end.

(** A non-negative number in decimal ([%u], [%zd] for a size). *)
Definition dec_unsigned (v : Z) : string :=
  string_of_list_ascii (rev (dec_rev (S (Z.to_nat (Z.log2 v))) v)).

(** A signed number in decimal ([%lld]; sds's [%I]). *)
Definition dec_signed (v : Z) : string :=
  if v <? 0 then String "-" (dec_unsigned (- v)) else dec_unsigned v.

Definition hex_digit (v : Z) : ascii :=
  ascii_of_N (Z.to_N (if v <? 10 then 48 + v else 87 + v)).

(** [%04x] of an [unsigned char]. *)
Definition hex04 (v : Z) : string :=
  String "0" (String "0" (String (hex_digit (v / 16)) (String (hex_digit (v mod 16)) ""))).

End Libc.

(* ===================================================================== *)
(** * IEEE-754 doubles and their text forms *)
(* ===================================================================== *)

Module Double.

(** A C [double] is a binary64 number: 53 bits of precision, exponents up to
    1024. *)
Definition double := spec_float.
Definition prec : Z := 53.
Definition emax : Z := 1024.

Definition fabs (v : double) : double := SFabs v.
Definition sub (a b : double) : double := SFsub prec emax a b.
Definition leb (a b : double) : bool := SFleb a b.
Definition ltb (a b : double) : bool := SFltb a b.
Definition eqb (a b : double) : bool := SFeqb a b.
Definition isnan (v : double) : bool :=
  match v with S754_nan => true | _ => false end.

(** The integer [z] as a double (round to nearest even). *)
Definition of_Z (z : Z) (szero : bool) : double :=
  binary_normalize prec emax z 0 szero.

(** [floor]: the largest integral value not above [v]. *)
Definition floor (v : double) : double :=
  match v with
  | S754_finite s m e =>
      if 0 <=? e then v
      else
        let d := 2 ^ (- e) in
        let q := Z.pos m / d in
        let r := Z.pos m mod d in
        if s then of_Z (- (if r =? 0 then q else q + 1)) true
        else of_Z q false
  | _ => v
  end.

(** The double nearest to [d * 10^k], as a decimal literal or [strtod]
    yields it; [s] is the sign. *)
Definition of_decimal (s : bool) (d : Z) (k : Z) : double :=
  match d with
  | Z0 => S754_zero s
  | Zneg _ => S754_nan
  | Zpos _ =>
      if 0 <=? k then
        match of_Z (d * 10 ^ k) false with
        | S754_finite _ m e => S754_finite s m e
        | S754_infinity _ => S754_infinity s
        | S754_zero _ => S754_zero s
        | S754_nan => S754_nan
        end
      else
        let '(mz, ez, lz) := SFdiv_core_binary prec emax d 0 (10 ^ (- k)) 0 in
        binary_round_aux prec emax s mz ez lz
  end.

Definition DBL_EPSILON : double := S754_finite false (2 ^ 52) (-104).
Definition HUGE_VAL : double := S754_infinity false.
Definition d_1e60 : double := of_decimal false 1 60.
Definition d_1e_6 : double := of_decimal false 1 (-6).
Definition d_1e9 : double := of_decimal false 1 9.

(** ** [printf] conversions of a double *)

(** [num / den] rounded to the nearest integer, ties to even. *)
Definition round_half_even (num den : Z) : Z :=
  let q := num / den in
  let r := num mod den in
  match 2 * r ?= den with
  | Lt => q
  | Gt => q + 1
  | Eq => if Z.even q then q else q + 1
  end.

(** The magnitude of a finite double as a fraction [num / den]. *)
Definition magnitude (m : positive) (e : Z) : Z * Z :=
  if 0 <=? e then (Z.pos m * 2 ^ e, 1) else (Z.pos m, 2 ^ (- e)).

(** [num / den * 10^k] as a fraction. *)
Definition scale10 (num den k : Z) : Z * Z :=
  if 0 <=? k then (num * 10 ^ k, den) else (num, den * 10 ^ (- k)).

(** The decimal exponent [x] of a positive fraction:
    [10^x <= num/den < 10^(x+1)]. *)
Fixpoint exp10_up (fuel : nat) (num den x : Z) : Z :=
  match fuel with
  | O => x
  | S fuel' => if den * 10 <=? num then exp10_up fuel' num (den * 10) (x + 1) else x
  end.

Fixpoint exp10_down (fuel : nat) (num den x : Z) : Z :=
  match fuel with
  | O => x
  | S fuel' => if num <? den then exp10_down fuel' (num * 10) den (x - 1) else x
  end.

Definition exp10 (num den : Z) : Z :=
  if den <=? num then exp10_up 400 num den 0 else exp10_down 400 num den 0.

(** [digits] decimal digits of [n], zero padded on the left. *)
Fixpoint dec_pad (digits : nat) (n : Z) (acc : string) : string :=
  match digits with
  | O => acc
  | S d => dec_pad d (n / 10) (String (ascii_of_N (Z.to_N (48 + n mod 10))) acc)
  end.

Definition sign_text (s : bool) : string := if s then "-" else "".

(** Style [f] with [p] digits after the point. *)
Definition fixed_text (num den : Z) (p : nat) : string :=
  let '(n, d) := scale10 num den (Z.of_nat p) in
  let r := round_half_even n d in
  let ip := r / 10 ^ Z.of_nat p in
  let fp := r mod 10 ^ Z.of_nat p in
  match p with
  | O => Libc.dec_unsigned ip
  | _ => Libc.dec_unsigned ip ++ "." ++ dec_pad p fp ""
  end.

(** The exponent and the [p+1] rounded digits of style [e]. *)
Definition sci_parts (num den : Z) (p : nat) : Z * Z :=
  let x := exp10 num den in
  let '(n, d) := scale10 num den (Z.of_nat p - x) in
  let r := round_half_even n d in
  if 10 ^ (Z.of_nat p + 1) <=? r then
    let '(n', d') := scale10 num den (Z.of_nat p - (x + 1)) in
    (x + 1, round_half_even n' d')
  else (x, r).

Definition exponent_text (x : Z) : string :=
  "e" ++ (if x <? 0 then "-" else "+") ++
  (if Z.abs x <? 10 then "0" else "") ++ Libc.dec_unsigned (Z.abs x).

Definition sci_mantissa (r : Z) (p : nat) : string :=
  let lead := r / 10 ^ Z.of_nat p in
  let rest := r mod 10 ^ Z.of_nat p in
  match p with
  | O => Libc.dec_unsigned lead
  | _ => Libc.dec_unsigned lead ++ "." ++ dec_pad p rest ""
  end.

(** Style [g] drops the zeros that end the fraction, and a point left bare. *)
Fixpoint strip_zeros_rev (l : list ascii) : list ascii :=
  match l with
  | "0"%char :: l' => strip_zeros_rev l'
  | "."%char :: l' => l'
  | _ => l
  end.

Definition has_point (s : string) : bool :=
  existsb (fun c => (c =? ".")%char) (list_ascii_of_string s).

Definition strip_fraction (s : string) : string :=
  if has_point s
  then string_of_list_ascii (rev (strip_zeros_rev (rev (list_ascii_of_string s))))
  else s.

Definition special_text (v : double) : option string :=
  match v with
  | S754_nan => Some "nan"
  | S754_infinity s => Some (sign_text s ++ "inf")
  | _ => None
  end.

(** [%.0f] *)
Definition printf_f0 (v : double) : string :=
  match v with
  | S754_finite s m e =>
      let '(num, den) := magnitude m e in sign_text s ++ fixed_text num den 0
  | S754_zero s => sign_text s ++ "0"
  | S754_infinity s => sign_text s ++ "inf"
  | S754_nan => "nan"
  end.

(** [%e]: one digit, the point, six digits, the exponent. *)
Definition printf_e (v : double) : string :=
  match v with
  | S754_finite s m e =>
      let '(num, den) := magnitude m e in
      let '(x, r) := sci_parts num den 6 in
      sign_text s ++ sci_mantissa r 6 ++ exponent_text x
  | S754_zero s => sign_text s ++ "0.000000e+00"
  | S754_infinity s => sign_text s ++ "inf"
  | S754_nan => "nan"
  end.

(** Whether [%.17g] uses style [e] for a decimal exponent: below -4, or at
    least the precision. *)
Definition g17_uses_e (x : Z) : bool := (x <? -4) || (17 <=? x).

(** [%.17g]: at most 17 significant digits, style [e] or [f] by the
    exponent, zeros at the end of the fraction removed. *)
Definition printf_g17 (v : double) : string :=
  match v with
  | S754_finite s m e =>
      let '(num, den) := magnitude m e in
      let '(x, r) := sci_parts num den 16 in
      if g17_uses_e x
      then sign_text s ++ strip_fraction (sci_mantissa r 16) ++ exponent_text x
      else sign_text s ++ strip_fraction (fixed_text num den (Z.to_nat (16 - x)))
  | S754_zero s => sign_text s ++ "0"
  | S754_infinity s => sign_text s ++ "inf"
  | S754_nan => "nan"
  end.

(** ** [strtod] *)

Record strtod_result := {
  d_value : double;  (* the returned double *)
  d_end : nat;       (* eptr - nptr *)
  d_errno : Z        (* errno after the call, 0 when untouched *)
}.

(** The fraction after the integer digits: its digits and the bytes it
    takes, point included. *)
Definition take_fraction (s : string) : string * nat * string :=
  match s with
  | String "." s' =>
      let '(fp, r) := Libc.span_digits s' in (fp, S (String.length fp), r)
  | _ => ("", O, s)
  end.

(** The exponent part, taken only when a digit follows the [e]. *)
Definition take_exponent (s : string) : Z * nat :=
  match s with
  | String c s' =>
      if (c =? "e")%char || (c =? "E")%char then
        let '(eneg, nesg, s2) := Libc.take_sign s' in
        let '(ed, _) := Libc.span_digits s2 in
        match ed with
        | EmptyString => (0, O)
        | _ => let x := Libc.digits_value 0 ed in
               (if eneg then - x else x, (1 + nesg + String.length ed)%nat)
        end
      else (0, O)
  | EmptyString => (0, O)
  end.

Definition is_subnormal (v : double) : bool :=
  match v with
  | S754_finite _ m _ => Z.pos (digits2_pos m) <? prec
  | _ => false
  end.

(** Whether the double [v] is exactly [d * 10^k] in magnitude. *)
Definition is_exact (v : double) (d k : Z) : bool :=
  match v with
  | S754_finite _ m e =>
      let '(n1, d1) := scale10 d 1 k in
      let '(n2, d2) := magnitude m e in
      n1 * d2 =? n2 * d1
  | S754_zero _ => d =? 0
  | _ => false
  end.

(** [strtod(nptr, &eptr)] on decimal text (the lexer hands over tokens made
    of digits, signs, a point and an exponent letter only): white space, an
    optional sign, digits with an optional fraction, an optional exponent.
    The result is the nearest double; overflow gives [HUGE_VAL] and
    [ERANGE], underflow to zero or to an inexact subnormal gives [ERANGE]. *)
Definition strtod (nptr : string) : strtod_result :=
  let '(nsp, s1) := Libc.skip_space nptr in
  let '(neg, nsg, s2) := Libc.take_sign s1 in
  let '(ip, s3) := Libc.span_digits s2 in
  let '(fp, nfrac, s4) := take_fraction s3 in
  if (String.length ip + String.length fp =? 0)%nat
  then {| d_value := S754_zero false; d_end := O; d_errno := 0 |}
  else
    let '(ex, nexp) := take_exponent s4 in
    let d := Libc.digits_value 0 (ip ++ fp) in
    let k := ex - Z.of_nat (String.length fp) in
    let ndig := Z.of_nat (String.length ip + String.length fp) in
    let e := (nsp + nsg + String.length ip + nfrac + nexp)%nat in
    let v :=
      if d =? 0 then S754_zero neg
      else if 400 <? k then S754_infinity neg
      else if k + ndig <? -400 then S754_zero neg
      else of_decimal neg d k in
    let range :=
      match v with
      | S754_infinity _ => true
      | S754_zero _ => negb (d =? 0)
      | _ => is_subnormal v && negb (is_exact v d k)
      end in
    {| d_value := v; d_end := e; d_errno := if range then Libc.ERANGE else 0 |}.

End Double.

(* ===================================================================== *)
(** * The tree of values (object.h) *)
(* ===================================================================== *)

(** Modelled from the spec: the node type of object.h, which this file
    includes but which is not part of it (spec 3, "Data model"). A [Node *]
    that may be [NULL] is an [option Node]; [NULL] is the JSON null. A
    dictionary owns its entries in insertion order, each a KeyVal node. *)
#[warnings="-register-all"] Inductive Node : Type :=
  | StringNode (data : string)                 (* N_STRING: bytes and length *)
  | NumberNode (numval : Double.double)        (* N_NUMBER *)
  | IntegerNode (intval : Z)                   (* N_INTEGER: int64_t *)
  | BooleanNode (boolval : bool)               (* N_BOOLEAN *)
  | DictNode (entries : list (option Node))    (* N_DICT *)
  | ArrayNode (entries : list (option Node))   (* N_ARRAY *)
  | KeyValNode (key : string) (val : option Node). (* N_KEYVAL *)

Inductive NodeType : Type :=
  N_NULL | N_STRING | N_NUMBER | N_INTEGER | N_BOOLEAN | N_DICT | N_ARRAY | N_KEYVAL.

(** The enumerators are bits, so that they can be or-ed into masks. *)
Definition NodeType_bit (t : NodeType) : Z :=
  match t with
  | N_NULL => 1 | N_STRING => 2 | N_NUMBER => 4 | N_INTEGER => 8
  | N_BOOLEAN => 16 | N_DICT => 32 | N_ARRAY => 64 | N_KEYVAL => 128
  end.

Definition node_type (n : Node) : NodeType :=
  match n with
  | StringNode _ => N_STRING
  | NumberNode _ => N_NUMBER
  | IntegerNode _ => N_INTEGER
  | BooleanNode _ => N_BOOLEAN
  | DictNode _ => N_DICT
  | ArrayNode _ => N_ARRAY
  | KeyValNode _ _ => N_KEYVAL
  end.

(** [NODETYPE(n)]: the type of a node, [N_NULL] for [NULL]. *)
Definition NODETYPE (n : option Node) : NodeType :=
  match n with
  | Some n' => node_type n'
  | None => N_NULL
  end.

Module Object.

Definition NewStringNode (s : string) : Node := StringNode s.
Definition NewDoubleNode (v : Double.double) : Node := NumberNode v.
Definition NewIntNode (i : Z) : Node := IntegerNode i.
Definition NewBoolNode (flag : Z) : Node := BooleanNode (negb (flag =? 0)).
Definition NewDictNode (cap : nat) : Node := DictNode [].
Definition NewArrayNode (cap : nat) : Node := ArrayNode [].
(** The key is copied as a C string. *)
Definition NewKeyValNode (key : string) (val : option Node) : Node :=
  KeyValNode (c_str key) val.

Definition entry_has_key (k : string) (e : option Node) : bool :=
  match e with
  | Some (KeyValNode k' _) => String.eqb k k'
  | _ => false
  end.

(** Replace the entry of key [k], when there is one. *)
Fixpoint dict_replace (k : string) (kv : Node) (l : list (option Node))
  : option (list (option Node)) :=
  match l with
  | [] => None
  | e :: l' =>
      if entry_has_key k e then Some (Some kv :: l')
      else match dict_replace k kv l' with
           | Some r => Some (e :: r)
           | None => None
           end
  end.

(** Modelled from the spec: [Node_DictSetKeyVal(obj, kv)] of object.c,
    "insert the resulting key/value pair into the Dict (overwriting on
    duplicate key)": an entry with the same key is replaced where it stands,
    a new key is added at the end. [None] when [obj] is not a dictionary or
    [kv] is not a KeyVal node, which the C code does not check. *)
Definition Node_DictSetKeyVal (obj : Node) (kv : option Node) : option Node :=
  match obj, kv with
  | DictNode l, Some (KeyValNode k v) =>
      match dict_replace k (KeyValNode k v) l with
      | Some l' => Some (DictNode l')
      | None => Some (DictNode (l ++ [Some (KeyValNode k v)]))
      end
  | _, _ => None
  end.

(** Modelled from the spec: [Node_ArrayAppend(arr, n)] of object.c, "if
    parent is Array, append". *)
Definition Node_ArrayAppend (arr : Node) (n : option Node) : option Node :=
  match arr with
  | ArrayNode l => Some (ArrayNode (l ++ [n]))
  | _ => None
  end.

(** Modelled from the spec: [Node_ArrayItem(arr, index, &n)] of object.c,
    "get an array element by index"; [None] when there is no such element. *)
Definition Node_ArrayItem (arr : Node) (index : nat) : option (option Node) :=
  match arr with
  | ArrayNode l => nth_error l index
  | _ => None
  end.

Fixpoint list_set {A} (l : list A) (i : nat) (x : A) : list A :=
  match l, i with
  | [], _ => []
  | _ :: l', O => x :: l'
  | y :: l', S i' => y :: list_set l' i' x
  end.

(** Modelled from the spec: [Node_ArraySet(arr, index, n)] of object.c,
    "set an array element by index"; the slot is overwritten, here to
    detach the element so that it is not freed with the array. *)
Definition Node_ArraySet (arr : Node) (index : nat) (n : option Node) : Node :=
  match arr with
  | ArrayNode l => ArrayNode (list_set l index n)
  | _ => arr
  end.

(** The callbacks and masks of a walk; [C] is the type behind [void *ctx]. *)
Record NodeSerializerOpt (C : Type) := {
  fBegin : option Node -> C -> C;
  xBegin : Z;
  fEnd : option Node -> C -> C;
  xEnd : Z;
  fDelim : C -> C;
  xDelim : Z
}.
Arguments fBegin {C}.
Arguments xBegin {C}.
Arguments fEnd {C}.
Arguments xEnd {C}.
Arguments fDelim {C}.
Arguments xDelim {C}.

Definition mask_enabled (n : option Node) (mask : Z) : bool :=
  negb (Z.land (NodeType_bit (NODETYPE n)) mask =? 0).

Section Walk.
Context {C : Type} (o : NodeSerializerOpt C).

Definition begin_value (n : option Node) (ctx : C) : C :=
    if mask_enabled n (xBegin o) then fBegin o n ctx else ctx.
Definition end_value (n : option Node) (ctx : C) : C :=
    if mask_enabled n (xEnd o) then fEnd o n ctx else ctx.
Definition delim (n : option Node) (ctx : C) : C :=
    if mask_enabled n (xDelim o) then fDelim o ctx else ctx.

  (** Modelled from the spec: [Node_Serializer] of object.c, "a generic
      depth-first walk over the tree supplying three events: enter-value
      (every node, including absent/null slots), exit-container, and
      between-siblings (fired once per sibling boundary)", each event under
      its mask of node kinds. A KeyVal node is entered and then its value
      is walked. *)
Fixpoint walk (n : Node) (ctx : C) : C :=
    let ctx := begin_value (Some n) ctx in
    let walk_slot (x : option Node) (ctx : C) : C :=
      match x with
      | Some c => walk c ctx
      | None => end_value None (begin_value None ctx)
      end in
    let walk_entries :=
      fix walk_entries (first : bool) (l : list (option Node)) (ctx : C) : C :=
        match l with
        | [] => ctx
        | x :: l' =>
            let ctx := if first then ctx else delim (Some n) ctx in
            walk_entries false l' (walk_slot x ctx)
        end in
    let ctx :=
      match n with
      | DictNode l => walk_entries true l ctx
      | ArrayNode l => walk_entries true l ctx
      | KeyValNode _ v => walk_slot v ctx
      | _ => ctx
      end in
    end_value (Some n) ctx.

Definition Node_Serializer (n : option Node) (ctx : C) : C :=
    match n with
    | Some c => walk c ctx
    | None => end_value None (begin_value None ctx)
    end.
End Walk.

End Object.

(* ===================================================================== *)
(** * Lookup tables (the end of json_object.c) *)
(* ===================================================================== *)

Definition zeros (n : nat) : list Z := repeat 0 n.

(** The allowed whitespace as per RFC 4627; entries the initializer leaves
    out are zero. *)
Definition _AllowedWhitespace : list Z :=
  (zeros 9 ++                 (* 0x00 .. 0x08 *)
   [1] ++                     (* 0x09 <TAB> *)
   [1] ++                     (* 0x0a <LF> *)
   zeros 2 ++                 (* 0x0b .. 0x0c *)
   [1] ++                     (* 0x0d <CR> *)
   zeros 18 ++                (* 0x0e .. 0x1f *)
   [1] ++                     (* 0x20 <SP> *)
   zeros 32 ++ zeros 32 ++ zeros 32 ++ zeros 32 ++ zeros 32 ++ zeros 32 ++
   zeros 30)%list.            (* 0x21 .. 0xfe *)

(** Allowable two-character 'common' escapes. *)
Definition _AllowedEscapes : list Z :=
  (zeros 32 ++                (* 0x00 .. 0x1f *)
   zeros 2 ++                 (* 0x20 .. 0x21 *)
   [1] ++                     (* 0x22 the quotation mark *)
   zeros 12 ++                (* 0x23 .. 0x2e *)
   [1] ++                     (* 0x2f </> *)
   zeros 32 ++                (* 0x30 .. 0x4f *)
   zeros 12 ++                (* 0x50 .. 0x5b *)
   [1] ++                     (* 0x5c <\> *)
   zeros 5 ++                 (* 0x5d .. 0x61 *)
   [1] ++                     (* 0x62 <b> *)
   zeros 3 ++                 (* 0x63 .. 0x65 *)
   [1] ++                     (* 0x66 <f> *)
   zeros 7 ++                 (* 0x67 .. 0x6d *)
   [1] ++                     (* 0x6e <n> *)
   zeros 3 ++                 (* 0x6f .. 0x71 *)
   [1] ++                     (* 0x72 <r> *)
   zeros 1 ++                 (* 0x73 *)
   [1] ++                     (* 0x74 <t> *)
   [1] ++                     (* 0x75 <u> *)
   zeros 5)%list.             (* 0x76 .. *)

(** A table entry; past the initializer the array holds zeros. *)
Definition table_at (t : list Z) (i : Z) : Z := nth (Z.to_nat i) t 0.

Definition _IsAllowedWhitespace (c : ascii) : bool :=
  (c =? " ")%char || negb (table_at _AllowedWhitespace (Z.land (code c) 255) =? 0).

(* ===================================================================== *)
(** * The lexer (jsonsl) *)
(* ===================================================================== *)

Module Jsonsl.

Inductive jsonsl_type_t : Type :=
  | JSONSL_T_UNKNOWN   (* the state below every value *)
  | JSONSL_T_STRING
  | JSONSL_T_HKEY
  | JSONSL_T_OBJECT
  | JSONSL_T_LIST
  | JSONSL_T_SPECIAL.

Inductive jsonsl_error_t : Type :=
  | JSONSL_ERROR_SUCCESS
  | JSONSL_ERROR_SPECIAL_EXPECTED
  | JSONSL_ERROR_STRAY_TOKEN
  | JSONSL_ERROR_MISSING_TOKEN
  | JSONSL_ERROR_CANT_INSERT
  | JSONSL_ERROR_ESCAPE_OUTSIDE_STRING
  | JSONSL_ERROR_STRING_OUTSIDE_CONTAINER
  | JSONSL_ERROR_FOUND_NULL_BYTE
  | JSONSL_ERROR_LEVELS_EXCEEDED
  | JSONSL_ERROR_BRACKET_MISMATCH
  | JSONSL_ERROR_HKEY_EXPECTED
  | JSONSL_ERROR_WEIRD_WHITESPACE
  | JSONSL_ERROR_UESCAPE_TOOSHORT
  | JSONSL_ERROR_ESCAPE_INVALID
  | JSONSL_ERROR_TRAILING_COMMA
  | JSONSL_ERROR_INVALID_NUMBER
  | JSONSL_ERROR_VALUE_EXPECTED
  | JSONSL_ERROR_INVALID_CODEPOINT.

Definition JSONSL_SPECIALf_SIGNED : Z := 1.
Definition JSONSL_SPECIALf_UNSIGNED : Z := 2.
Definition JSONSL_SPECIALf_TRUE : Z := 4.
Definition JSONSL_SPECIALf_FALSE : Z := 8.
Definition JSONSL_SPECIALf_NULL : Z := 16.
Definition JSONSL_SPECIALf_FLOAT : Z := 32.
Definition JSONSL_SPECIALf_EXPONENT : Z := 64.
Definition JSONSL_SPECIALf_NUMERIC : Z :=
  Z.lor JSONSL_SPECIALf_SIGNED JSONSL_SPECIALf_UNSIGNED.
Definition JSONSL_SPECIALf_BOOLEAN : Z :=
  Z.lor JSONSL_SPECIALf_TRUE JSONSL_SPECIALf_FALSE.

Definition JSONSL_MAX_LEVELS : nat := 512.

(** [flags & mask] as a C condition. *)
Definition has_flag (flags mask : Z) : bool := negb (Z.land flags mask =? 0).

(** One nesting level of the scan: a container, a string, a key or a
    literal being read. *)
Record jsonsl_state_st := {
  type : jsonsl_type_t;
  special_flags : Z;
  pos_begin : nat;      (* where the element starts *)
  pos_cur : nat;        (* where it was seen last *)
  nelem : nat;          (* elements seen in a container *)
  nescapes : nat        (* backslashes seen in a string *)
}.

Definition new_state (t : jsonsl_type_t) (at_pos : nat) : jsonsl_state_st :=
  {| type := t; special_flags := 0; pos_begin := at_pos; pos_cur := 0;
     nelem := 0; nescapes := 0 |}.

(** The lexer; [D] is the type behind [void *data]. The states in use are
    kept innermost first, so that the last one is [stack[0]]. *)
Record jsonsl_st (D : Type) := {
  stack : list jsonsl_state_st;
  pos : nat;
  tok_last : ascii;
  expecting : ascii;
  can_insert : bool;
  in_escape : bool;
  stopfl : bool;
  levels_max : nat;
  base : string;
  data : D
}.
Arguments stack {D}.
Arguments pos {D}.
Arguments tok_last {D}.
Arguments expecting {D}.
Arguments can_insert {D}.
Arguments in_escape {D}.
Arguments stopfl {D}.
Arguments levels_max {D}.
Arguments base {D}.
Arguments data {D}.

Definition NUL : ascii := "000"%char.

Section Lexer.
Context {D : Type}.
Local Abbreviation jsonsl_t := (jsonsl_st D).

  (** [jsn->level]: the number of states above [stack[0]]. *)
Definition level (jsn : jsonsl_t) : nat := (List.length (stack jsn) - 1)%nat.

  (** [jsn->stack[0]] *)
Definition stack0 (jsn : jsonsl_t) : jsonsl_state_st :=
    last (stack jsn) (new_state JSONSL_T_UNKNOWN O).

  (** [jsn->stack + jsn->level] *)
Definition cur_state (jsn : jsonsl_t) : jsonsl_state_st :=
    hd (new_state JSONSL_T_UNKNOWN O) (stack jsn).

Definition set_stack (jsn : jsonsl_t) (st : list jsonsl_state_st) : jsonsl_t :=
    {| stack := st; pos := pos jsn; tok_last := tok_last jsn;
       expecting := expecting jsn; can_insert := can_insert jsn;
       in_escape := in_escape jsn; stopfl := stopfl jsn;
       levels_max := levels_max jsn; base := base jsn; data := data jsn |}.

Definition set_tokens (jsn : jsonsl_t) (tl ex : ascii) (ci : bool) : jsonsl_t :=
    {| stack := stack jsn; pos := pos jsn; tok_last := tl;
       expecting := ex; can_insert := ci;
       in_escape := in_escape jsn; stopfl := stopfl jsn;
       levels_max := levels_max jsn; base := base jsn; data := data jsn |}.

Definition set_in_escape (jsn : jsonsl_t) (b : bool) : jsonsl_t :=
    {| stack := stack jsn; pos := pos jsn; tok_last := tok_last jsn;
       expecting := expecting jsn; can_insert := can_insert jsn;
       in_escape := b; stopfl := stopfl jsn;
       levels_max := levels_max jsn; base := base jsn; data := data jsn |}.

Definition set_pos (jsn : jsonsl_t) (p : nat) : jsonsl_t :=
    {| stack := stack jsn; pos := p; tok_last := tok_last jsn;
       expecting := expecting jsn; can_insert := can_insert jsn;
       in_escape := in_escape jsn; stopfl := stopfl jsn;
       levels_max := levels_max jsn; base := base jsn; data := data jsn |}.

Definition set_data (jsn : jsonsl_t) (d : D) : jsonsl_t :=
    {| stack := stack jsn; pos := pos jsn; tok_last := tok_last jsn;
       expecting := expecting jsn; can_insert := can_insert jsn;
       in_escape := in_escape jsn; stopfl := stopfl jsn;
       levels_max := levels_max jsn; base := base jsn; data := d |}.

  (** [jsonsl_stop] *)
Definition jsonsl_stop (jsn : jsonsl_t) : jsonsl_t :=
    {| stack := stack jsn; pos := pos jsn; tok_last := tok_last jsn;
       expecting := expecting jsn; can_insert := can_insert jsn;
       in_escape := in_escape jsn; stopfl := true;
       levels_max := levels_max jsn; base := base jsn; data := data jsn |}.

  (** Update the current state. *)
Definition map_cur (f : jsonsl_state_st -> jsonsl_state_st) (jsn : jsonsl_t) : jsonsl_t :=
    match stack jsn with
    | s :: rest => set_stack jsn (f s :: rest)
    | [] => jsn
    end.

Definition with_pos_cur (p : nat) (s : jsonsl_state_st) : jsonsl_state_st :=
    {| type := type s; special_flags := special_flags s; pos_begin := pos_begin s;
       pos_cur := p; nelem := nelem s; nescapes := nescapes s |}.
Definition with_nelem (n : nat) (s : jsonsl_state_st) : jsonsl_state_st :=
    {| type := type s; special_flags := special_flags s; pos_begin := pos_begin s;
       pos_cur := pos_cur s; nelem := n; nescapes := nescapes s |}.
Definition with_nescapes (n : nat) (s : jsonsl_state_st) : jsonsl_state_st :=
    {| type := type s; special_flags := special_flags s; pos_begin := pos_begin s;
       pos_cur := pos_cur s; nelem := nelem s; nescapes := n |}.
Definition with_flags (f : Z) (s : jsonsl_state_st) : jsonsl_state_st :=
    {| type := type s; special_flags := f; pos_begin := pos_begin s;
       pos_cur := pos_cur s; nelem := nelem s; nescapes := nescapes s |}.

Definition jsonsl_new (nlevels : nat) (d : D) : jsonsl_t :=
    {| stack := [new_state JSONSL_T_UNKNOWN O]; pos := O; tok_last := NUL;
       expecting := NUL; can_insert := true; in_escape := false;
       stopfl := false; levels_max := nlevels; base := ""; data := d |}.
End Lexer.

(** ** Character classes *)

Definition is_allowed_whitespace (c : ascii) : bool :=
  negb (table_at _AllowedWhitespace (code c) =? 0).

Definition is_allowed_escape (c : ascii) : bool :=
  negb (table_at _AllowedEscapes (code c) =? 0).

(** The flags of the literal a byte starts, 0 when it starts none. *)
Definition extract_special (c : ascii) : Z :=
  if (c =? "-")%char then JSONSL_SPECIALf_SIGNED
  else if Libc.isdigit c then JSONSL_SPECIALf_UNSIGNED
  else if (c =? "t")%char then JSONSL_SPECIALf_TRUE
  else if (c =? "f")%char then JSONSL_SPECIALf_FALSE
  else if (c =? "n")%char then JSONSL_SPECIALf_NULL
  else 0.

(** The bytes that end a literal: whitespace, the structural characters,
    the quotation mark and the backslash. *)
Definition is_special_end (c : ascii) : bool :=
  is_allowed_whitespace c ||
  (c =? DQUOTE)%char || (c =? BACKSLASH)%char ||
  (c =? ",")%char || (c =? ":")%char ||
  (c =? "[")%char || (c =? "]")%char || (c =? "{")%char || (c =? "}")%char.

Definition special_literal (flags : Z) : option string :=
  if flags =? JSONSL_SPECIALf_TRUE then Some "true"
  else if flags =? JSONSL_SPECIALf_FALSE then Some "false"
  else if flags =? JSONSL_SPECIALf_NULL then Some "null"
  else None.

(** ** The scan *)

(** Modelled from the spec: the external tokenizer (jsonsl.c, only used by
    this file), "a streaming scan over a byte buffer" of "strict RFC 4627
    JSON" rooted in a container, which "emits open-container and close
    events carrying node kind, byte span, nesting depth, and (for numeric
    scalars) flags distinguishing integer/float/exponent forms" and
    "supports immediate stop on error" (spec 1, 4.1, 6). Every element,
    scalars included, is a state pushed when it starts and popped when it
    ends, and both events reach the callbacks; the fields are the ones the
    callbacks of this file read. *)
Section Feed.
Context {D : Type}.
Local Abbreviation jsonsl_t := (jsonsl_st D).

Variable error_callback : jsonsl_t -> jsonsl_error_t -> jsonsl_state_st -> jsonsl_t.
Variable action_callback_PUSH : jsonsl_t -> jsonsl_state_st -> jsonsl_t.
Variable action_callback_POP : jsonsl_t -> jsonsl_state_st -> jsonsl_t.

  (** What the scan does after a byte: go on with the next one, or return. *)
Inductive flow : Type :=
    | Next (jsn : jsonsl_t)
    | Return (jsn : jsonsl_t).

  (** The error callback of this file returns 0, so the scan returns. *)
Definition INVOKE_ERROR (jsn : jsonsl_t) (e : jsonsl_error_t) : flow :=
    Return (error_callback jsn e (cur_state jsn)).

Definition DO_CALLBACK (cb : jsonsl_t -> jsonsl_state_st -> jsonsl_t)
      (jsn : jsonsl_t) (k : jsonsl_t -> flow) : flow :=
    let jsn' := cb jsn (cur_state jsn) in
    if stopfl jsn' then Return jsn' else k jsn'.

Definition STACK_PUSH (jsn : jsonsl_t) (t : jsonsl_type_t) (flags : Z)
      (k : jsonsl_t -> flow) : flow :=
    if (levels_max jsn - 1 <=? level jsn)%nat
    then Return (error_callback jsn JSONSL_ERROR_LEVELS_EXCEEDED (cur_state jsn))
    else k (set_stack jsn (with_flags flags (new_state t (pos jsn)) :: stack jsn)).

Definition CALLBACK_AND_POP (jsn : jsonsl_t) (k : jsonsl_t -> flow) : flow :=
    let jsn := map_cur (with_pos_cur (pos jsn)) jsn in
    DO_CALLBACK action_callback_POP jsn (fun jsn =>
      let jsn := set_stack jsn (tl (stack jsn)) in
      k (map_cur (with_pos_cur (pos jsn)) jsn)).

  (** Verifies that a non-string item may be inserted into an object. *)
Definition ENSURE_HVAL (jsn : jsonsl_t) (k : jsonsl_t -> flow) : flow :=
    let state := cur_state jsn in
    match type state with
    | JSONSL_T_OBJECT =>
        if Nat.even (nelem state) then INVOKE_ERROR jsn JSONSL_ERROR_HKEY_EXPECTED
        else k jsn
    | _ => k jsn
    end.

Definition incr_nelem (jsn : jsonsl_t) : jsonsl_t :=
    map_cur (fun s => with_nelem (S (nelem s)) s) jsn.

Definition GT_QUOTE (jsn : jsonsl_t) : flow :=
    let jsn := set_tokens jsn (tok_last jsn) (expecting jsn) false in
    let state := cur_state jsn in
    match type state with
    | JSONSL_T_STRING | JSONSL_T_HKEY =>
        CALLBACK_AND_POP jsn Next
    | JSONSL_T_OBJECT =>
        let jsn := incr_nelem jsn in
        if Nat.odd (nelem state) then
          (* a value of the object *)
          if (tok_last jsn =? ":")%char then
            let jsn := set_tokens jsn NUL "," (can_insert jsn) in
            STACK_PUSH jsn JSONSL_T_STRING 0 (fun jsn =>
              DO_CALLBACK action_callback_PUSH jsn Next)
          else INVOKE_ERROR jsn JSONSL_ERROR_MISSING_TOKEN
        else
          (* a key *)
          if (expecting jsn =? DQUOTE)%char then
            let jsn := set_tokens jsn NUL ":" (can_insert jsn) in
            STACK_PUSH jsn JSONSL_T_HKEY 0 (fun jsn =>
              DO_CALLBACK action_callback_PUSH jsn Next)
          else INVOKE_ERROR jsn JSONSL_ERROR_STRAY_TOKEN
    | JSONSL_T_LIST =>
        let jsn := incr_nelem jsn in
        STACK_PUSH jsn JSONSL_T_STRING 0 (fun jsn =>
          let jsn := set_tokens jsn NUL "," (can_insert jsn) in
          DO_CALLBACK action_callback_PUSH jsn Next)
    | JSONSL_T_SPECIAL => INVOKE_ERROR jsn JSONSL_ERROR_STRAY_TOKEN
    | JSONSL_T_UNKNOWN => INVOKE_ERROR jsn JSONSL_ERROR_STRING_OUTSIDE_CONTAINER
    end.

Definition GT_ESCAPE (jsn : jsonsl_t) : flow :=
    let state := cur_state jsn in
    match type state with
    | JSONSL_T_STRING | JSONSL_T_HKEY =>
        Next (set_in_escape
                (map_cur (fun s => with_nescapes (S (nescapes s)) s) jsn) true)
    | _ => INVOKE_ERROR jsn JSONSL_ERROR_ESCAPE_OUTSIDE_STRING
    end.

Definition GT_SPECIAL_BEGIN (c : ascii) (jsn : jsonsl_t) : flow :=
    let flags := extract_special c in
    if flags =? 0 then
      if (c =? NUL)%char then INVOKE_ERROR jsn JSONSL_ERROR_FOUND_NULL_BYTE
      else if code c <? 32 then INVOKE_ERROR jsn JSONSL_ERROR_WEIRD_WHITESPACE
      else INVOKE_ERROR jsn JSONSL_ERROR_SPECIAL_EXPECTED
    else
      ENSURE_HVAL jsn (fun jsn =>
        let jsn := incr_nelem jsn in
        if can_insert jsn then
          STACK_PUSH jsn JSONSL_T_SPECIAL flags (fun jsn =>
            DO_CALLBACK action_callback_PUSH jsn Next)
        else INVOKE_ERROR jsn JSONSL_ERROR_CANT_INSERT).

Definition GT_STRUCTURAL_TOKEN (c : ascii) (jsn : jsonsl_t) : flow :=
    let state := cur_state jsn in
    if (c =? ":")%char then
      if (expecting jsn =? c)%char
      then Next (set_tokens jsn ":" DQUOTE true)
      else INVOKE_ERROR jsn JSONSL_ERROR_STRAY_TOKEN
    else if (c =? ",")%char then
      if (expecting jsn =? c)%char then
        match type state with
        | JSONSL_T_OBJECT => Next (set_tokens jsn "," DQUOTE (can_insert jsn))
        | _ => Next (set_tokens jsn "," DQUOTE true)
        end
      else INVOKE_ERROR jsn JSONSL_ERROR_STRAY_TOKEN
    else if (c =? "{")%char || (c =? "[")%char then
      if can_insert jsn then
        ENSURE_HVAL jsn (fun jsn =>
          let jsn := incr_nelem jsn in
          let t := if (c =? "{")%char then JSONSL_T_OBJECT else JSONSL_T_LIST in
          STACK_PUSH jsn t 0 (fun jsn =>
            let jsn := set_tokens jsn (tok_last jsn)
                         (if (c =? "{")%char then DQUOTE else expecting jsn) true in
            DO_CALLBACK action_callback_PUSH jsn (fun jsn =>
              Next (set_tokens jsn NUL (expecting jsn) (can_insert jsn)))))
      else INVOKE_ERROR jsn JSONSL_ERROR_CANT_INSERT
    else if (c =? "}")%char || (c =? "]")%char then
      if (tok_last jsn =? ",")%char then INVOKE_ERROR jsn JSONSL_ERROR_TRAILING_COMMA
      else
        let jsn := set_tokens jsn NUL "," false in
        let close (jsn : jsonsl_t) : flow :=
          DO_CALLBACK action_callback_POP jsn (fun jsn =>
            let jsn := set_stack jsn (tl (stack jsn)) in
            Next (map_cur (with_pos_cur (pos jsn)) jsn)) in
        match type state, (c =? "]")%char with
        | JSONSL_T_LIST, true => close jsn
        | JSONSL_T_OBJECT, false =>
            if Nat.odd (nelem state)
            then INVOKE_ERROR jsn JSONSL_ERROR_VALUE_EXPECTED
            else close jsn
        | _, _ => INVOKE_ERROR jsn JSONSL_ERROR_BRACKET_MISMATCH
        end
    else GT_SPECIAL_BEGIN c jsn.

Definition GT_SPECIAL_POP (c : ascii) (jsn : jsonsl_t) : flow :=
    let state := cur_state jsn in
    let jsn := set_tokens jsn (tok_last jsn) (expecting jsn) false in
    let complete :=
      match special_literal (special_flags state) with
      | Some lit => (pos jsn - pos_begin state =? String.length lit)%nat
      | None => true
      end in
    if complete then
      CALLBACK_AND_POP jsn (fun jsn =>
        let jsn := set_tokens jsn NUL "," (can_insert jsn) in
        if is_allowed_whitespace c then Next jsn
        else GT_STRUCTURAL_TOKEN c jsn)
    else INVOKE_ERROR jsn JSONSL_ERROR_SPECIAL_EXPECTED.

  (** One byte of input. *)
Definition step (c : ascii) (jsn : jsonsl_t) : flow :=
    let state := cur_state jsn in
    match type state with
    | JSONSL_T_STRING | JSONSL_T_HKEY =>
        if in_escape jsn then
          if is_allowed_escape c then Next (set_in_escape jsn false)
          else INVOKE_ERROR (set_in_escape jsn false) JSONSL_ERROR_ESCAPE_INVALID
        else if (c =? DQUOTE)%char then GT_QUOTE jsn
        else if (c =? BACKSLASH)%char then GT_ESCAPE jsn
        else if code c <? 32 then INVOKE_ERROR jsn JSONSL_ERROR_WEIRD_WHITESPACE
        else Next jsn
    | JSONSL_T_SPECIAL =>
        if has_flag (special_flags state) JSONSL_SPECIALf_NUMERIC then
          if Libc.isdigit c then Next jsn
          else if (c =? "e")%char || (c =? "E")%char || (c =? "-")%char || (c =? "+")%char
          then Next (map_cur (fun s =>
                  with_flags (Z.lor (special_flags s) JSONSL_SPECIALf_EXPONENT) s) jsn)
          else if (c =? ".")%char
          then Next (map_cur (fun s =>
                  with_flags (Z.lor (special_flags s) JSONSL_SPECIALf_FLOAT) s) jsn)
          else if is_special_end c then GT_SPECIAL_POP c jsn
          else INVOKE_ERROR jsn JSONSL_ERROR_INVALID_NUMBER
        else if is_special_end c then GT_SPECIAL_POP c jsn
        else
          match special_literal (special_flags state) with
          | Some lit =>
              match String.get (pos jsn - pos_begin state) lit with
              | Some l => if (c =? l)%char then Next jsn
                          else INVOKE_ERROR jsn JSONSL_ERROR_SPECIAL_EXPECTED
              | None => INVOKE_ERROR jsn JSONSL_ERROR_SPECIAL_EXPECTED
              end
          | None => Next jsn
          end
    | _ =>
        if is_allowed_whitespace c then Next jsn
        else if negb (extract_special c =? 0) then GT_SPECIAL_BEGIN c jsn
        else if (c =? DQUOTE)%char then GT_QUOTE jsn
        else if (c =? BACKSLASH)%char then GT_ESCAPE jsn
        else GT_STRUCTURAL_TOKEN c jsn
    end.

Fixpoint feed_loop (bytes : string) (jsn : jsonsl_t) : jsonsl_t :=
    match bytes with
    | EmptyString => jsn
    | String c rest =>
        match step c jsn with
        | Next jsn' => feed_loop rest (set_pos jsn' (S (pos jsn')))
        | Return jsn' => jsn'
        end
    end.

  (** [jsonsl_feed(jsn, bytes, nbytes)] *)
Definition jsonsl_feed (jsn : jsonsl_t) (bytes : string) : jsonsl_t :=
    feed_loop bytes
      {| stack := stack jsn; pos := pos jsn; tok_last := tok_last jsn;
         expecting := expecting jsn; can_insert := can_insert jsn;
         in_escape := in_escape jsn; stopfl := stopfl jsn;
         levels_max := levels_max jsn; base := bytes; data := data jsn |}.
End Feed.

(** ** Unescaping *)

Definition hex_val (c : ascii) : option Z :=
  let n := code c in
  if (48 <=? n) && (n <=? 57) then Some (n - 48)
  else if (97 <=? n) && (n <=? 102) then Some (n - 87)
  else if (65 <=? n) && (n <=? 70) then Some (n - 55)
  else None.

Definition hex4 (a b c d : ascii) : option Z :=
  match hex_val a, hex_val b, hex_val c, hex_val d with
  | Some x, Some y, Some z, Some w => Some (((x * 16 + y) * 16 + z) * 16 + w)
  | _, _, _, _ => None
  end.

Definition byte_of (n : Z) : ascii := ascii_of_N (Z.to_N n).

(** A code point as UTF-8. *)
Definition utf8 (cp : Z) : string :=
  if cp <? 128 then String (byte_of cp) ""
  else if cp <? 2048 then
    String (byte_of (192 + cp / 64)) (String (byte_of (128 + cp mod 64)) "")
  else
    String (byte_of (224 + cp / 4096))
      (String (byte_of (128 + (cp / 64) mod 64))
         (String (byte_of (128 + cp mod 64)) "")).

(** The byte a two-character escape stands for. *)
Definition escape_byte (c : ascii) : ascii :=
  if (c =? "b")%char then byte_of 8
  else if (c =? "f")%char then byte_of 12
  else if (c =? "n")%char then byte_of 10
  else if (c =? "r")%char then byte_of 13
  else if (c =? "t")%char then byte_of 9
  else c.

Fixpoint unescape (toEscape : list Z) (s : string) : jsonsl_error_t + string :=
  match s with
  | EmptyString => inr ""
  | String c s1 =>
      if negb (c =? BACKSLASH)%char then
        match unescape toEscape s1 with
        | inr r => inr (String c r)
        | inl e => inl e
        end
      else
        match s1 with
        | EmptyString => inl JSONSL_ERROR_ESCAPE_INVALID
        | String e s2 =>
            if negb (is_allowed_escape e) then inl JSONSL_ERROR_ESCAPE_INVALID
            else if (table_at toEscape (Z.land (code e) 127) =? 0)
                    && negb (e =? BACKSLASH)%char && negb (e =? DQUOTE)%char then
              (* not to be unescaped: the backslash is kept *)
              match unescape toEscape s2 with
              | inr r => inr (String c (String e r))
              | inl err => inl err
              end
            else if negb (e =? "u")%char then
              match unescape toEscape s2 with
              | inr r => inr (String (escape_byte e) r)
              | inl err => inl err
              end
            else
              match s2 with
              | String h1 (String h2 (String h3 (String h4 s6))) =>
                  match hex4 h1 h2 h3 h4 with
                  | Some cp =>
                      if cp =? 0 then inl JSONSL_ERROR_INVALID_CODEPOINT
                      else
                        match unescape toEscape s6 with
                        | inr r => inr (utf8 cp ++ r)
                        | inl err => inl err
                        end
                  | None => inl JSONSL_ERROR_UESCAPE_TOOSHORT
                  end
              | _ => inl JSONSL_ERROR_UESCAPE_TOOSHORT
              end
        end
  end.

(** Modelled from the spec: [jsonsl_util_unescape(in, out, len, toEscape,
    &err)], "scan and replace two-character escapes and unicode escapes per
    the allowed-escape table; any disallowed escape character yields an
    unescape error" (spec 4.3). The result is the number of bytes written,
    0 on error, the bytes, and the error. *)
Definition jsonsl_util_unescape (input : string) (toEscape : list Z)
  : nat * string * jsonsl_error_t :=
  match unescape toEscape input with
  | inr out => (String.length out, out, JSONSL_ERROR_SUCCESS)
  | inl e => (O, "", e)
  end.

End Jsonsl.

(* ===================================================================== *)
(** * The parser (json_object.c) *)
(* ===================================================================== *)

Import Jsonsl.

(** A custom context for the JSON lexer. [nodes] is the stack of created
    nodes, the last pushed first, and [nlen] its length. The stack has
    room for [JSONSL_MAX_LEVELS] nodes; [fault] is not a field of the C
    structure: it is raised where the C code leaves its defined behaviour
    (a node stored past the end of [nodes], a null or ill-typed parent). *)
Record JsonObjectContext := {
  err : jsonsl_error_t;        (* lexer error *)
  errpos : nat;                (* error position *)
  nodes : list (option Node);  (* stack of created nodes *)
  fault : bool
}.

Definition nlen (joctx : JsonObjectContext) : nat := List.length (nodes joctx).

Definition set_nodes (joctx : JsonObjectContext) (l : list (option Node)) :=
  {| err := err joctx; errpos := errpos joctx; nodes := l; fault := fault joctx |}.

Definition raise_fault (joctx : JsonObjectContext) :=
  {| err := err joctx; errpos := errpos joctx; nodes := nodes joctx; fault := true |}.

(** [ctx->nodes[ctx->nlen++] = n] *)
Definition _pushNode (joctx : JsonObjectContext) (n : option Node) : JsonObjectContext :=
  let joctx' := set_nodes joctx (n :: nodes joctx) in
  if (nlen joctx <? JSONSL_MAX_LEVELS)%nat then joctx' else raise_fault joctx'.

Abbreviation jsonsl_t := (jsonsl_st JsonObjectContext).

Definition errorCallback (jsn : jsonsl_t) (e : jsonsl_error_t)
    (state : jsonsl_state_st) : jsonsl_t :=
  let joctx := data jsn in
  jsonsl_stop
    (set_data jsn {| err := e; errpos := pos_cur state;
                     nodes := nodes joctx; fault := fault joctx |}).

Definition pushCallback (jsn : jsonsl_t) (state : jsonsl_state_st) : jsonsl_t :=
  let joctx := data jsn in
  (* only objects (dictionaries) and lists (arrays) create a container on push *)
  match type state with
  | JSONSL_T_OBJECT => set_data jsn (_pushNode joctx (Some (Object.NewDictNode 1)))
  | JSONSL_T_LIST => set_data jsn (_pushNode joctx (Some (Object.NewArrayNode 1)))
  | _ => jsn
  end.

(** The first part of [popCallback]: popping string and key values means
    adding them to the node stack. [inl] is the early return. *)
Definition pop_string (jsn : jsonsl_t) (state : jsonsl_state_st)
  : jsonsl_t + jsonsl_t :=
  let joctx := data jsn in
  match type state with
  | JSONSL_T_STRING | JSONSL_T_HKEY =>
      (* ignore the quote marks *)
      let pos := S (pos_begin state) in
      let len := (pos_cur state - pos_begin state - 1)%nat in
      let token := substring pos len (base jsn) in
      let mk (text : string) : Node :=
        match type state with
        | JSONSL_T_STRING => Object.NewStringNode text
        | _ => Object.NewKeyValNode text None  (* NULL is a placeholder for now *)
        end in
      (* deal with escapes *)
      if negb (nescapes state =? 0)%nat then
        let '(newlen, buffer, e) := jsonsl_util_unescape token _AllowedEscapes in
        if (newlen =? 0)%nat then inl (errorCallback jsn e state)
        else inr (set_data jsn (_pushNode joctx (Some (mk buffer))))
      else inr (set_data jsn (_pushNode joctx (Some (mk token))))
  | _ => inr jsn
  end.

(** The second part: popped special values are also added to the node
    stack. *)
Definition pop_special (jsn : jsonsl_t) (state : jsonsl_state_st)
  : jsonsl_t + jsonsl_t :=
  let joctx := data jsn in
  let pos := drop (pos_begin state) (base jsn) in
  let len := (pos_cur state - pos_begin state)%nat in
  match type state with
  | JSONSL_T_SPECIAL =>
      let flags := special_flags state in
      if has_flag flags JSONSL_SPECIALf_NUMERIC then
        if has_flag flags (Z.lor JSONSL_SPECIALf_FLOAT JSONSL_SPECIALf_EXPONENT) then
          (* convert to double *)
          let r := Double.strtod pos in
          let value := Double.d_value r in
          if ((Double.d_errno r =? Libc.ERANGE)
                && (Double.eqb value Double.HUGE_VAL
                    || Double.eqb value (SFopp Double.HUGE_VAL)))
             || (negb (Double.d_errno r =? 0) && Double.eqb value (S754_zero false))
             || Double.isnan value
             || negb (Double.d_end r =? len)%nat
          then inl (errorCallback jsn JSONSL_ERROR_INVALID_NUMBER state)
          else inr (set_data jsn (_pushNode joctx (Some (Object.NewDoubleNode value))))
        else
          (* convert long long (int64_t) *)
          let r := Libc.strtoll pos in
          let value := Libc.ll_value r in
          if ((Libc.ll_errno r =? Libc.ERANGE)
                && ((value =? Libc.LLONG_MAX) || (value =? Libc.LLONG_MIN)))
             || (negb (Libc.ll_errno r =? 0) && (value =? 0))
             || negb (Libc.ll_end r =? len)%nat
          then inl (errorCallback jsn JSONSL_ERROR_INVALID_NUMBER state)
          else inr (set_data jsn (_pushNode joctx (Some (Object.NewIntNode value))))
      else if has_flag flags JSONSL_SPECIALf_BOOLEAN then
        inr (set_data jsn
               (_pushNode joctx
                  (Some (Object.NewBoolNode (Z.land flags JSONSL_SPECIALf_TRUE)))))
      else if has_flag flags JSONSL_SPECIALf_NULL then
        inr (set_data jsn (_pushNode joctx None))
      else inr jsn
  | _ => inr jsn
  end.

(** A call of an object.c function that stores its result in the parent
    at the top of the stack. *)
Definition store_parent (joctx : JsonObjectContext) (rest : list (option Node))
    (r : option Node) : JsonObjectContext :=
  match r with
  | Some parent' => set_nodes joctx (Some parent' :: rest)
  | None => raise_fault (set_nodes joctx rest)
  end.

(** The third part: anything that pops needs to be set in its parent,
    except the root element and keys. The popped node is taken off the
    stack before the parent below it is looked at. *)
Definition pop_attach (jsn : jsonsl_t) (state : jsonsl_state_st) : jsonsl_t :=
  let joctx := data jsn in
  match type state with
  | JSONSL_T_HKEY => jsn
  | _ =>
      match nodes joctx with
      | child :: Some parent :: rest =>
          match node_type parent with
          | N_DICT =>
              set_data jsn (store_parent joctx rest (Object.Node_DictSetKeyVal parent child))
          | N_ARRAY =>
              set_data jsn (store_parent joctx rest (Object.Node_ArrayAppend parent child))
          | N_KEYVAL =>
              match parent, rest with
              | KeyValNode k _, Some dict :: rest' =>
                  set_data jsn
                    (store_parent joctx rest'
                       (Object.Node_DictSetKeyVal dict (Some (KeyValNode k child))))
              | _, _ => set_data jsn (raise_fault joctx)
              end
          | _ => jsn
          end
      | child :: None :: rest => set_data jsn (raise_fault joctx)
      | _ => jsn   (* nlen <= 1 *)
      end
  end.

Definition popCallback (jsn : jsonsl_t) (state : jsonsl_state_st) : jsonsl_t :=
  match pop_string jsn state with
  | inl jsn' => jsn'
  | inr jsn1 =>
      match pop_special jsn1 state with
      | inl jsn' => jsn'
      | inr jsn2 => pop_attach jsn2 state
      end
  end.

Inductive status : Type := JSONOBJECT_OK | JSONOBJECT_ERROR.

(** What a call of [CreateNodeFromJSON] returns and leaves behind: the
    status, [*node] and [*err] when they are written, and an account of
    the memory it touched. *)
Record parse_result := {
  ret : status;
  node : option (option Node);    (* [*node]; [Some None] is a null node *)
  error : option string;          (* [*err] *)
  reads : list nat;               (* offsets of [buf] read before the lexer runs *)
  wrap_size : option nat;         (* size of the buffer allocated for a scalar *)
  wrap_freed : bool;              (* whether that buffer was freed *)
  freed : list (option Node);     (* the nodes given to [Node_Free], in order *)
  leftover : list (option Node);  (* nodes still on the stack at the return *)
  undefined : bool                (* the [fault] of the context *)
}.

(** [ctx->nodes[0]] and its update. *)
Definition nodes0 (l : list (option Node)) : option (option Node) :=
  match rev l with
  | n :: _ => Some n
  | [] => None
  end.

Definition set_nodes0 (l : list (option Node)) (n : option Node) : list (option Node) :=
  match rev l with
  | _ :: r => rev (n :: r)
  | [] => []
  end.

(** The loop that munches leading whitespace: the byte at [_off] is read
    before [_off < _len] is tested, so the last test reads the byte at
    [_off] whatever [_off] is. Returns [_off] and the offsets read. *)
Fixpoint munch_whitespace (rest : string) (_off : nat) : nat * list nat :=
  match rest with
  | String c rest' =>
      if _IsAllowedWhitespace c && true
      then let '(o, r) := munch_whitespace rest' (S _off) in (o, _off :: r)
      else (_off, [_off])
  | EmptyString =>
      (* [_buf[_off]] is read with [_off = _len]; [_off < _len] fails *)
      (_off, [_off])
  end.

(** The buffer fed to the lexer for a scalar: [[], the bytes that remain,
    []]. *)
Definition scalar_wrap (buf : string) (_off : nat) : string :=
  "[" ++ drop _off buf ++ "]".

(** [is_scalar]: the byte at [_off] is neither brace nor bracket, and
    [_off < _len]. *)
Definition is_scalar_at (buf : string) (_off : nat) : bool :=
  match String.get _off buf with
  | Some c => negb (c =? "{")%char && negb (c =? "[")%char
  | None => false
  end.

(** The lexer with the callbacks of this file and a fresh context, fed
    with [_buf]. *)
Definition scan (_buf : string) : jsonsl_t :=
  let joctx := {| err := JSONSL_ERROR_SUCCESS; errpos := O; nodes := []; fault := false |} in
  let jsn := jsonsl_new JSONSL_MAX_LEVELS joctx in
  jsonsl_feed errorCallback pushCallback popCallback jsn _buf.

(** What the lexer is fed with for an input. *)
Definition lexer_input (buf : string) : string :=
  let _off := fst (munch_whitespace buf O) in
  if is_scalar_at buf _off then scalar_wrap buf _off else buf.

Section Parser.
  (** [jsonsl_strerror], the text of a lexer error, is jsonsl's. *)
Variable jsonsl_strerror : jsonsl_error_t -> string.

Definition lexer_error_text (e : jsonsl_error_t) (position : nat) : string :=
    "ERR JSON lexer error " ++ jsonsl_strerror e ++ " at position "
      ++ Libc.dec_unsigned (Z.of_nat position).

Definition incomplete_text (lvl : nat) : string :=
    "ERR JSON value incomplete - " ++ Libc.dec_unsigned (Z.of_nat lvl)
      ++ " containers unterminated".

Definition not_found_text : string := "ERR JSON value not found".

  (** The [error:] label: set the error string, free any nodes that are in
      the stack. The scalar buffer is not touched here. *)
Definition on_error (serr : string) (joctx : JsonObjectContext)
      (rd : list nat) (wrap : option nat) : parse_result :=
    {| ret := JSONOBJECT_ERROR; node := None; error := Some serr;
       reads := rd; wrap_size := wrap; wrap_freed := false;
       freed := nodes joctx; leftover := [];
       undefined := fault joctx |}.

Definition CreateNodeFromJSON (buf : string) : parse_result :=
    let len := String.length buf in
    (* munch any leading whitespaces *)
    let '(_off, rd) := munch_whitespace buf O in
    (* embed scalars in a list; the test reads [_buf[_off]] first *)
    let rd := (rd ++ [_off])%list in
    let is_scalar := is_scalar_at buf _off in
    let _len := if is_scalar then (len - _off + 2)%nat else len in
    let _buf := if is_scalar then scalar_wrap buf _off else buf in
    let wrap := if is_scalar then Some _len else None in
    (* the lexer and our custom context; feed the lexer *)
    let jsn := scan _buf in
    let joctx := data jsn in
    (* check for lexer errors *)
    match err joctx with
    | JSONSL_ERROR_SUCCESS =>
        (* verify that parsing had ended at level 0 *)
        if negb (level jsn =? 0)%nat then
          on_error (incomplete_text (level jsn)) joctx rd wrap
        (* verify that an element *)
        else if (nelem (stack0 jsn) =? 0)%nat then
          on_error not_found_text joctx rd wrap
        (* finalize *)
        else if is_scalar then
          (* extract the scalar and discard the wrapper array *)
          match nodes0 (nodes joctx) with
          | Some (Some arr) =>
              let item := Object.Node_ArrayItem arr O in
              let stack' := set_nodes0 (nodes joctx) (Some (Object.Node_ArraySet arr O None)) in
              {| ret := JSONOBJECT_OK; node := item; error := None;
                 reads := rd; wrap_size := wrap; wrap_freed := true;
                 freed := firstn 1 stack'; leftover := skipn 1 stack';
                 undefined := fault joctx |}
          | _ =>
              {| ret := JSONOBJECT_OK; node := None; error := None;
                 reads := rd; wrap_size := wrap; wrap_freed := true;
                 freed := []; leftover := nodes joctx; undefined := true |}
          end
        else
          match nodes joctx with
          | top :: rest =>
              {| ret := JSONOBJECT_OK; node := Some top; error := None;
                 reads := rd; wrap_size := wrap; wrap_freed := false;
                 freed := []; leftover := rest; undefined := fault joctx |}
          | [] =>
              {| ret := JSONOBJECT_OK; node := None; error := None;
                 reads := rd; wrap_size := wrap; wrap_freed := false;
                 freed := []; leftover := []; undefined := true |}
          end
    | e => on_error (lexer_error_text e (errpos joctx + 1)) joctx rd wrap
    end.
End Parser.

(* ===================================================================== *)
(** * The serializer (json_object.c) *)
(* ===================================================================== *)

(** The options of a serialization (json_object.h); a string may be
    [NULL]. *)
Record JSONSerializeOpt := {
  opt_indentstr : option string;
  opt_newlinestr : option string;
  opt_spacestr : option string
}.

Record _JSONBuilderContext := {
  buf : string;         (* serialization buffer *)
  depth : Z;            (* current tree depth *)
  indent : Z;           (* indentation string length *)
  indentstr : string;   (* indentaion string *)
  newlinestr : string;  (* newline string *)
  spacestr : string;    (* space string *)
  delimstr : string     (* delimiter string *)
}.

Definition set_buf (b : _JSONBuilderContext) (s : string) : _JSONBuilderContext :=
  {| buf := s; depth := depth b; indent := indent b; indentstr := indentstr b;
     newlinestr := newlinestr b; spacestr := spacestr b; delimstr := delimstr b |}.

Definition set_depth (b : _JSONBuilderContext) (d : Z) : _JSONBuilderContext :=
  {| buf := buf b; depth := d; indent := indent b; indentstr := indentstr b;
     newlinestr := newlinestr b; spacestr := spacestr b; delimstr := delimstr b |}.

(** The sds calls add bytes at the end of the buffer. *)
Definition sdscat (b : _JSONBuilderContext) (s : string) : _JSONBuilderContext :=
  set_buf b (buf b ++ s).

Definition _JSONSerialize_Indent (b : _JSONBuilderContext) : _JSONBuilderContext :=
  if negb (indent b =? 0)
  then sdscat b (repeat_string (Z.to_nat (depth b)) (indentstr b))
  else b.

(** The text one byte of a string value becomes. *)
Definition escape_char (p : ascii) : string :=
  if (p =? DQUOTE)%char || (p =? BACKSLASH)%char then
    String BACKSLASH (String p "")     (* quotation mark, reverse solidus *)
  else if (p =? "/")%char then "\/"    (* solidus *)
  else if code p =? 8 then "\b"        (* backspace *)
  else if code p =? 12 then "\f"       (* formfeed *)
  else if code p =? 10 then "\n"       (* newline *)
  else if code p =? 13 then "\r"       (* carriage return *)
  else if code p =? 9 then "\t"        (* horizontal tab *)
  else if (31 <? code p) && Libc.isprint p then String p ""
  else "\u" ++ Libc.hex04 (code p).

Fixpoint escape_string (s : string) : string :=
  match s with
  | EmptyString => ""
  | String p s' => escape_char p ++ escape_string s'
  end.

Definition _JSONSerialize_StringValue (data : string) (b : _JSONBuilderContext)
  : _JSONBuilderContext :=
  let b := sdscat b (String DQUOTE "") in
  let b := sdscat b (escape_string data) in
  sdscat b (String DQUOTE "").

(** The [N_NUMBER] case of [_JSONSerialize_BeginValue]. *)
Definition number_text (numval : Double.double) : string :=
  if Double.leb (Double.fabs (Double.sub (Double.floor numval) numval)) Double.DBL_EPSILON
     && Double.ltb (Double.fabs numval) Double.d_1e60
  then Double.printf_f0 numval
  else if Double.ltb (Double.fabs numval) Double.d_1e_6
          || Double.ltb Double.d_1e9 (Double.fabs numval)
  then Double.printf_e numval
  else Double.printf_g17 numval.

Definition open_container (bracket : string) (len : nat) (b : _JSONBuilderContext)
  : _JSONBuilderContext :=
  let b := sdscat b bracket in
  let b := set_depth b (depth b + 1) in
  if negb (len =? 0)%nat
  then _JSONSerialize_Indent (sdscat b (newlinestr b))
  else b.

Definition _JSONSerialize_BeginValue (n : option Node) (b : _JSONBuilderContext)
  : _JSONBuilderContext :=
  match n with
  | None => sdscat b "null"   (* NULL nodes are literal nulls *)
  | Some (BooleanNode boolval) => if boolval then sdscat b "true" else sdscat b "false"
  | Some (IntegerNode intval) => sdscat b (Libc.dec_signed intval)
  | Some (NumberNode numval) => sdscat b (number_text numval)
  | Some (StringNode data) => _JSONSerialize_StringValue data b
  | Some (KeyValNode key _) =>
      sdscat b (String DQUOTE (c_str key ++ String DQUOTE ":" ++ c_str (spacestr b)))
  | Some (DictNode entries) => open_container "{" (List.length entries) b
  | Some (ArrayNode entries) => open_container "[" (List.length entries) b
  end.

Definition close_container (bracket : string) (len : nat) (b : _JSONBuilderContext)
  : _JSONBuilderContext :=
  let b := if negb (len =? 0)%nat then sdscat b (newlinestr b) else b in
  let b := set_depth b (depth b - 1) in
  let b := _JSONSerialize_Indent b in
  sdscat b bracket.

Definition _JSONSerialize_EndValue (n : option Node) (b : _JSONBuilderContext)
  : _JSONBuilderContext :=
  match n with
  | Some (DictNode entries) => close_container "}" (List.length entries) b
  | Some (ArrayNode entries) => close_container "]" (List.length entries) b
  | _ => b
  end.

Definition _JSONSerialize_ContainerDelimiter (b : _JSONBuilderContext)
  : _JSONBuilderContext :=
  _JSONSerialize_Indent (sdscat b (c_str (delimstr b))).

Definition sdsnew_opt (s : option string) : string :=
  match s with
  | Some s' => c_str s'
  | None => ""
  end.

(** [SerializeNodeToJSON(node, opt, &json)]: the new value of [json]. *)
Definition SerializeNodeToJSON (node : option Node) (opt : JSONSerializeOpt)
    (json : string) : string :=
  (* set up the builder *)
  let b :=
    {| buf := json; depth := 0;
       indent := Z.of_nat (String.length (sdsnew_opt (opt_indentstr opt)));
       indentstr := sdsnew_opt (opt_indentstr opt);
       newlinestr := sdsnew_opt (opt_newlinestr opt);
       spacestr := sdsnew_opt (opt_spacestr opt);
       delimstr := "," ++ c_str (sdsnew_opt (opt_newlinestr opt)) |} in
  let nso :=
    {| Object.fBegin := _JSONSerialize_BeginValue;
       Object.xBegin := 65535;
       Object.fEnd := _JSONSerialize_EndValue;
       Object.xEnd := Z.lor (NodeType_bit N_DICT) (NodeType_bit N_ARRAY);
       Object.fDelim := _JSONSerialize_ContainerDelimiter;
       Object.xDelim := Z.lor (NodeType_bit N_DICT) (NodeType_bit N_ARRAY) |} in
  (* the real work *)
  buf (Object.Node_Serializer nso node b).

(* ===================================================================== *)
(** * Properties *)
(* ===================================================================== *)

Definition LF : ascii := Eval compute in ascii_of_nat 10.
Definition nl : string := String LF "".

(** What a successful parse hands back. *)
Definition parsed (r : parse_result) : option (option Node) :=
  match ret r with
  | JSONOBJECT_OK => node r
  | JSONOBJECT_ERROR => None
  end.

(** ** Pretty printing *)

Definition fixture_text : string := "{" ++ quoted "a" ++ ":[1,2]}".

Definition fixture_options : JSONSerializeOpt :=
  {| opt_indentstr := Some "  "; opt_newlinestr := Some nl; opt_spacestr := Some " " |}.

Definition fixture_pretty : string :=
  "{" ++ nl ++
  "  " ++ quoted "a" ++ ": [" ++ nl ++
  "    1," ++ nl ++
  "    2" ++ nl ++
  "  ]" ++ nl ++
  "}".

(** The indentation at a depth: that many copies of the indent string. *)
Definition indentation (b : _JSONBuilderContext) (d : Z) : string :=
  repeat_string (Z.to_nat d) (indentstr b).

(** A builder as [SerializeNodeToJSON] sets it up: [indent] is the length
    of the indent string and the delimiter is a comma and the newline. *)
Definition builder_ok (b : _JSONBuilderContext) : Prop :=
  indent b = Z.of_nat (String.length (indentstr b)) /\
  c_str (delimstr b) = "," ++ newlinestr b.

Lemma repeat_string_empty (n : nat) : repeat_string n "" = "".
Proof. induction n as [|n IH]; simpl; auto. Qed.

Lemma Indent_buf (b : _JSONBuilderContext) :
  indent b = Z.of_nat (String.length (indentstr b)) ->
  buf (_JSONSerialize_Indent b) = buf b ++ indentation b (depth b).
Proof.
  intros Hi. unfold _JSONSerialize_Indent, indentation.
  destruct (indent b =? 0) eqn:E; simpl; auto.
  apply Z.eqb_eq in E. rewrite E in Hi.
  destruct (indentstr b); simpl in Hi; try lia.
  rewrite repeat_string_empty.
  clear. induction (buf b); simpl; congruence.
Qed.

Lemma append_assoc (a b c : string) : (a ++ b) ++ c = a ++ (b ++ c).
Proof. induction a; simpl; congruence. Qed.

Lemma append_nil_r (a : string) : a ++ "" = a.
Proof. induction a; simpl; congruence. Qed.


Lemma fixture_builder_ok :
  builder_ok {| buf := ""; depth := 0; indent := 2; indentstr := "  ";
                newlinestr := nl; spacestr := " "; delimstr := "," ++ nl |}.
Proof. split; reflexivity. Qed.


(** ** Integers *)

(** A numeric token without fraction or exponent flags. *)
Definition integer_token (state : jsonsl_state_st) : Prop :=
  type state = JSONSL_T_SPECIAL /\
  has_flag (special_flags state) JSONSL_SPECIALf_NUMERIC = true /\
  has_flag (special_flags state)
           (Z.lor JSONSL_SPECIALf_FLOAT JSONSL_SPECIALf_EXPONENT) = false.

(** What [strtoll] makes of the token of a state. *)
Definition token_strtoll (jsn : jsonsl_t) (state : jsonsl_state_st) : Libc.strtoll_result :=
  Libc.strtoll (drop (pos_begin state) (base jsn)).

Definition token_len (state : jsonsl_state_st) : nat :=
  (pos_cur state - pos_begin state)%nat.

Lemma strtoll_errno (s : string) :
  (Libc.ll_errno (Libc.strtoll s) = 0) \/
  (Libc.ll_errno (Libc.strtoll s) = Libc.ERANGE /\
   (Libc.ll_value (Libc.strtoll s) = Libc.LLONG_MAX \/
    Libc.ll_value (Libc.strtoll s) = Libc.LLONG_MIN)).
Proof.
  unfold Libc.strtoll.
  destruct (Libc.skip_space s) as [nsp s1].
  destruct (Libc.take_sign s1) as [[neg nsg] s2].
  destruct (Libc.span_digits s2) as [ds rest].
  destruct ds as [|c ds]; [left; reflexivity|].
  destruct (_ >? _); [right; simpl; auto|].
  destruct (_ <? _); [right; simpl; auto|].
  left; reflexivity.
Qed.

Lemma pop_string_special (jsn : jsonsl_t) (state : jsonsl_state_st) :
  type state = JSONSL_T_SPECIAL -> pop_string jsn state = inr jsn.
Proof. intros H. unfold pop_string. rewrite H. reflexivity. Qed.

(** C3. The largest 64-bit integer parses to exactly that value, the next
    integer fails with the lexer's invalid-number error, and so does every
    integer token that [strtoll] does not consume whole or that is out of
    range; a token consumed whole and in range pushes the integer. *)
Theorem integer_boundary :
  forall (strerror : jsonsl_error_t -> string) (jsn : jsonsl_t) (state : jsonsl_state_st),
    parsed (CreateNodeFromJSON strerror "9223372036854775807")
      = Some (Some (IntegerNode 9223372036854775807)) /\
    (ret (CreateNodeFromJSON strerror "9223372036854775808") = JSONOBJECT_ERROR /\
     node (CreateNodeFromJSON strerror "9223372036854775808") = None /\
     error (CreateNodeFromJSON strerror "9223372036854775808")
       = Some (lexer_error_text strerror JSONSL_ERROR_INVALID_NUMBER 21)) /\
    (integer_token state ->
     (Libc.ll_end (token_strtoll jsn state) <> token_len state \/
      Libc.ll_errno (token_strtoll jsn state) = Libc.ERANGE) ->
     popCallback jsn state = errorCallback jsn JSONSL_ERROR_INVALID_NUMBER state) /\
    (integer_token state ->
     Libc.ll_end (token_strtoll jsn state) = token_len state ->
     Libc.ll_errno (token_strtoll jsn state) = 0 ->
     popCallback jsn state =
       pop_attach
         (set_data jsn
            (_pushNode (data jsn)
               (Some (IntegerNode (Libc.ll_value (token_strtoll jsn state))))))
         state).
Proof.
  intros strerror jsn state.
  split; [vm_compute; reflexivity|].
  split; [repeat split; vm_compute; reflexivity|].
  unfold token_strtoll, token_len.
  split.
  - intros (Ht & Hn & Hf) Hbad.
    unfold popCallback. rewrite pop_string_special by exact Ht.
    unfold pop_special. rewrite Ht, Hn, Hf.
    destruct (strtoll_errno (drop (pos_begin state) (base jsn))) as [E0 | [E [V | V]]];
      destruct Hbad as [Hend | Herr].
    + rewrite E0. simpl.
      apply Nat.eqb_neq in Hend. rewrite Hend. reflexivity.
    + rewrite E0 in Herr. discriminate Herr.
    + rewrite E, V. reflexivity.
    + rewrite E, V. reflexivity.
    + rewrite E, V. reflexivity.
    + rewrite E, V. reflexivity.
  - intros (Ht & Hn & Hf) Hend Herr.
    unfold popCallback. rewrite pop_string_special by exact Ht.
    unfold pop_special. rewrite Ht, Hn, Hf, Herr, Hend.
    rewrite Nat.eqb_refl. reflexivity.
Qed.

(** The state of the lone minus sign of the buffer [[-]]. *)
Definition minus_state : jsonsl_state_st :=
  {| type := JSONSL_T_SPECIAL; special_flags := JSONSL_SPECIALf_SIGNED;
     pos_begin := 1; pos_cur := 2; nelem := 0; nescapes := 0 |}.

Definition minus_lexer : jsonsl_t :=
  {| stack := [minus_state]; pos := 2%nat; tok_last := NUL; expecting := NUL;
     can_insert := false; in_escape := false; stopfl := false;
     levels_max := JSONSL_MAX_LEVELS; base := "[-]";
     data := {| err := JSONSL_ERROR_SUCCESS; errpos := 0;
                nodes := [Some (ArrayNode [])]; fault := false |} |}.

Lemma integer_boundary_witness :
  popCallback minus_lexer minus_state
    = errorCallback minus_lexer JSONSL_ERROR_INVALID_NUMBER minus_state.
Proof.
  destruct (integer_boundary (fun _ => "") minus_lexer minus_state) as (_ & _ & H & _).
  apply H.
  - repeat split.
  - left. vm_compute. discriminate.
Defined.

(** ** Bare scalars *)

Lemma drop_length (n : nat) (s : string) :
  String.length (drop n s) = (String.length s - n)%nat.
Proof.
  revert s. induction n as [|n IH]; intros s.
  - simpl. lia.
  - destruct s as [|c s]; simpl; auto.
Qed.

Lemma append_length (a b : string) :
  String.length (a ++ b) = (String.length a + String.length b)%nat.
Proof. induction a; simpl; auto. Qed.



(** ** Escaping *)

(** The letter of the two-character escape of a byte, when it has one. *)
Definition escape_letter (p : ascii) : option ascii :=
  if (p =? DQUOTE)%char then Some DQUOTE
  else if (p =? BACKSLASH)%char then Some BACKSLASH
  else if (p =? "/")%char then Some "/"%char
  else if code p =? 8 then Some "b"%char
  else if code p =? 12 then Some "f"%char
  else if code p =? 10 then Some "n"%char
  else if code p =? 13 then Some "r"%char
  else if code p =? 9 then Some "t"%char
  else None.

(** Printable ASCII: the bytes from the space to the tilde. *)
Definition printable_ascii (p : ascii) : bool := (32 <=? code p) && (code p <=? 126).

(** The escape policy in the words of the specification. *)
Definition spec_escape (p : ascii) : string :=
  match escape_letter p with
  | Some l => String BACKSLASH (String l "")
  | None =>
      if (31 <? code p) && printable_ascii p then String p ""
      else String BACKSLASH (String "u" (String "0" (String "0"
             (String (Libc.hex_digit (code p / 16))
                (String (Libc.hex_digit (code p mod 16)) "")))))
  end.

Definition SOH : ascii := Eval compute in ascii_of_nat 1.

Definition compact : JSONSerializeOpt :=
  {| opt_indentstr := None; opt_newlinestr := None; opt_spacestr := None |}.

Lemma escape_char_spec (p : ascii) : escape_char p = spec_escape p.
Proof.
  destruct p as [[] [] [] [] [] [] [] []]; vm_compute; reflexivity.
Qed.

Lemma sdscat_buf (b : _JSONBuilderContext) (s : string) : buf (sdscat b s) = buf b ++ s.
Proof. reflexivity. Qed.

(** C5. Every byte of a string value is written by the escape policy: a
    backslash and a letter for the quotation mark, the reverse solidus, the
    solidus, backspace, formfeed, newline, carriage return and tab; the
    byte itself when it is above 31 and printable ASCII; a backslash, u00
    and two hexadecimal digits otherwise; the value stands between
    quotation marks. The escape of a newline in a parsed text comes out as
    the two characters backslash and n, and the byte 1 as u0001 after a
    backslash. *)
Theorem escape_policy :
  forall (strerror : jsonsl_error_t -> string) (p : ascii) (data : string)
         (b : _JSONBuilderContext),
    escape_char p = spec_escape p /\
    (escape_letter p = None -> 32 <= code p <= 126 -> escape_char p = String p "") /\
    (escape_letter p = None -> code p < 32 \/ 126 < code p ->
       escape_char p = "\u00" ++ String (Libc.hex_digit (code p / 16))
                                  (String (Libc.hex_digit (code p mod 16)) "")) /\
    buf (_JSONSerialize_BeginValue (Some (StringNode data)) b)
      = buf b ++ quoted (escape_string data) /\
    (exists tree,
       parsed (CreateNodeFromJSON strerror (quoted "a\nb")) = Some tree /\
       tree = Some (StringNode ("a" ++ nl ++ "b")) /\
       SerializeNodeToJSON tree compact "" = quoted "a\nb") /\
    SerializeNodeToJSON (Some (StringNode (String SOH ""))) compact "" = quoted "\u0001".
Proof.
  intros strerror p data b.
  split; [apply escape_char_spec|].
  split.
  { intros Hl Hr. rewrite escape_char_spec. unfold spec_escape. rewrite Hl.
    unfold printable_ascii.
    replace (31 <? code p) with true by (symmetry; apply Z.ltb_lt; lia).
    replace (32 <=? code p) with true by (symmetry; apply Z.leb_le; lia).
    replace (code p <=? 126) with true by (symmetry; apply Z.leb_le; lia).
    reflexivity. }
  split.
  { intros Hl Hr. rewrite escape_char_spec. unfold spec_escape. rewrite Hl.
    unfold printable_ascii.
    destruct Hr as [Hr | Hr].
    - replace (31 <? code p) with false by (symmetry; apply Z.ltb_ge; lia).
      reflexivity.
    - replace (code p <=? 126) with false by (symmetry; apply Z.leb_gt; lia).
      rewrite !andb_false_r. reflexivity. }
  split.
  { unfold _JSONSerialize_BeginValue, _JSONSerialize_StringValue.
    rewrite !sdscat_buf.
    unfold quoted. rewrite !append_assoc. reflexivity. }
  split.
  { eexists. split; [vm_compute; reflexivity|].
    split; vm_compute; reflexivity. }
  vm_compute. reflexivity.
Qed.

Lemma escape_policy_witness :
  escape_char "a" = "a" /\ escape_char (ascii_of_nat 200) = "\u00c8".
Proof.
  destruct (escape_policy (fun _ => "") "a" "" 
              {| buf := ""; depth := 0; indent := 0; indentstr := "";
                 newlinestr := ""; spacestr := ""; delimstr := "," |})
    as (_ & H & _).
  destruct (escape_policy (fun _ => "") (ascii_of_nat 200) ""
              {| buf := ""; depth := 0; indent := 0; indentstr := "";
                 newlinestr := ""; spacestr := ""; delimstr := "," |})
    as (_ & _ & H' & _).
  split.
  - apply H; [reflexivity | vm_compute; split; discriminate].
  - apply H'; [reflexivity | right; vm_compute; reflexivity].
Defined.

(** ** Whitespace only *)

Definition is_ws_byte (c : ascii) : bool :=
  (code c =? 9) || (code c =? 10) || (code c =? 13) || (code c =? 32).

Fixpoint all_whitespace (s : string) : bool :=
  match s with
  | EmptyString => true
  | String c s' => is_ws_byte c && all_whitespace s'
  end.

Lemma ws_byte_allowed (c : ascii) :
  is_ws_byte c = true ->
  _IsAllowedWhitespace c = true /\ is_allowed_whitespace c = true.
Proof.
  destruct c as [[] [] [] [] [] [] [] []]; vm_compute; intros H;
    try discriminate H; split; reflexivity.
Qed.

Lemma munch_all_whitespace (s : string) (off : nat) :
  all_whitespace s = true ->
  fst (munch_whitespace s off) = (off + String.length s)%nat /\
  In (off + String.length s)%nat (snd (munch_whitespace s off)).
Proof.
  revert off. induction s as [|c s IH]; intros off H; simpl in *.
  - rewrite Nat.add_0_r. split; [reflexivity | left; reflexivity].
  - apply andb_true_iff in H as [Hc Hs].
    apply ws_byte_allowed in Hc as [Hc _]. rewrite Hc. simpl.
    specialize (IH (S off) Hs).
    destruct (munch_whitespace s (S off)) as [o r]. simpl in *.
    destruct IH as [IH1 IH2]. split; [lia|].
    right. replace (off + S (String.length s))%nat with (S off + String.length s)%nat by lia.
    exact IH2.
Qed.

Lemma get_past_end (s : string) (n : nat) :
  (String.length s <= n)%nat -> String.get n s = None.
Proof.
  revert n. induction s as [|c s IH]; intros n H; simpl in *.
  - destruct n; reflexivity.
  - destruct n as [|n]; [lia|]. apply IH. lia.
Qed.

Section FeedWhitespace.
Context {D : Type}.
Variable ecb : jsonsl_st D -> jsonsl_error_t -> jsonsl_state_st -> jsonsl_st D.
Variable pushcb popcb : jsonsl_st D -> jsonsl_state_st -> jsonsl_st D.

(** Whitespace between values leaves the lexer as it is. *)
Lemma feed_loop_whitespace (s : string) (jsn : jsonsl_st D) :
  all_whitespace s = true ->
  type (cur_state jsn) = JSONSL_T_UNKNOWN ->
  stack (feed_loop ecb pushcb popcb s jsn) = stack jsn /\
  data (feed_loop ecb pushcb popcb s jsn) = data jsn.
Proof.
  revert jsn. induction s as [|c s IH]; intros jsn H Ht; simpl in *.
  - split; reflexivity.
  - apply andb_true_iff in H as [Hc Hs].
    apply ws_byte_allowed in Hc as [_ Hc].
    unfold step. rewrite Ht, Hc.
    destruct (IH (set_pos jsn (S (pos jsn))) Hs Ht) as [H1 H2].
    rewrite H1, H2. split; reflexivity.
Qed.
End FeedWhitespace.

(** C8. An input made of tabs, line feeds, carriage returns and spaces
    only fails with the text "ERR JSON value not found", and no tree is
    returned. *)
Theorem whitespace_only_not_found :
  forall (strerror : jsonsl_error_t -> string) (buf : string),
    all_whitespace buf = true ->
    ret (CreateNodeFromJSON strerror buf) = JSONOBJECT_ERROR /\
    node (CreateNodeFromJSON strerror buf) = None /\
    error (CreateNodeFromJSON strerror buf) = Some "ERR JSON value not found".
Proof.
  intros strerror buf H.
  unfold CreateNodeFromJSON.
  destruct (munch_all_whitespace buf 0 H) as [Hoff _].
  destruct (munch_whitespace buf 0) as [o rd]. simpl in Hoff. subst o.
  unfold is_scalar_at. rewrite get_past_end by lia.
  unfold scan, jsonsl_feed.
  match goal with
  | |- context [feed_loop ?e ?pu ?po buf ?j] =>
      destruct (feed_loop_whitespace e pu po buf j H eq_refl) as [Hs Hd];
      remember (feed_loop e pu po buf j) as fin
  end.
  unfold level, stack0. rewrite Hs, Hd. simpl.
  repeat split.
Qed.

Lemma whitespace_only_not_found_witness :
  error (CreateNodeFromJSON (fun _ => "") (" " ++ nl ++ "  "))
    = Some "ERR JSON value not found".
Proof.
  apply (whitespace_only_not_found (fun _ => "") (" " ++ nl ++ "  ")).
  reflexivity.
Defined.

(** ** Input that ends too early *)

Definition is_container_state (s : jsonsl_state_st) : bool :=
  match type s with
  | JSONSL_T_OBJECT | JSONSL_T_LIST => true
  | _ => false
  end.

(** The containers the lexer has open. *)
Definition open_containers (jsn : jsonsl_t) : nat :=
  List.length (filter is_container_state (stack jsn)).

(** What [CreateNodeFromJSON] does once the lexer has run, by cases on the
    lexer's error and level. *)
Lemma CreateNodeFromJSON_incomplete (strerror : jsonsl_error_t -> string) (buf : string) :
  err (data (scan (lexer_input buf))) = JSONSL_ERROR_SUCCESS ->
  level (scan (lexer_input buf)) <> O ->
  ret (CreateNodeFromJSON strerror buf) = JSONOBJECT_ERROR /\
  node (CreateNodeFromJSON strerror buf) = None /\
  error (CreateNodeFromJSON strerror buf)
    = Some (incomplete_text (level (scan (lexer_input buf)))) /\
  freed (CreateNodeFromJSON strerror buf) = nodes (data (scan (lexer_input buf))) /\
  leftover (CreateNodeFromJSON strerror buf) = [].
Proof.
  unfold lexer_input, CreateNodeFromJSON.
  destruct (munch_whitespace buf 0) as [o rd]. cbn [fst].
  set (j := scan (if is_scalar_at buf o then scalar_wrap buf o else buf)).
  intros He Hl. rewrite He.
  apply Nat.eqb_neq in Hl. rewrite Hl. cbn [negb].
  repeat split.
Qed.

(** The claim of C7 fails on the input of an open bracket and a digit: one
    container is open, and the text reports two. *)
Lemma unterminated_counts_tokens :
  open_containers (scan (lexer_input "[1")) = 1%nat /\
  error (CreateNodeFromJSON (fun _ => "") "[1")
    = Some "ERR JSON value incomplete - 2 containers unterminated".
Proof. split; vm_compute; reflexivity. Qed.

(** A closing brace in an open array is a lexer error, which is reported
    in place of the unterminated container. *)
Lemma unterminated_after_lexer_error :
  error (CreateNodeFromJSON (fun _ => "mismatch") "[}")
    = Some "ERR JSON lexer error mismatch at position 1".
Proof. vm_compute. reflexivity. Qed.

(** ** The shape of the lexer's stack *)

Definition is_token_type (t : jsonsl_type_t) : bool :=
  match t with
  | JSONSL_T_STRING | JSONSL_T_HKEY | JSONSL_T_SPECIAL => true
  | _ => false
  end.

Definition is_container_type (t : jsonsl_type_t) : bool :=
  match t with
  | JSONSL_T_OBJECT | JSONSL_T_LIST => true
  | _ => false
  end.

(** Containers, the innermost first, over the root state. *)
Fixpoint containers_over_root (ts : list jsonsl_type_t) : bool :=
  match ts with
  | [] => false
  | t :: rest =>
      match rest with
      | [] => match t with JSONSL_T_UNKNOWN => true | _ => false end
      | _ => is_container_type t && containers_over_root rest
      end
  end.

(** The shape of the lexer's stack: at most one unfinished string, key or
    literal, over the open containers, over the root. *)
Definition well_stacked (ts : list jsonsl_type_t) : bool :=
  match ts with
  | [] => false
  | t :: rest =>
      if is_token_type t then containers_over_root rest
      else containers_over_root ts
  end.

Section Shape.
Context {D : Type}.
Variable ecb : jsonsl_st D -> jsonsl_error_t -> jsonsl_state_st -> jsonsl_st D.
Variable pushcb popcb : jsonsl_st D -> jsonsl_state_st -> jsonsl_st D.
Hypothesis Hecb : forall j e s, stack (ecb j e s) = stack j.
Hypothesis Hpush : forall j s, stack (pushcb j s) = stack j.
Hypothesis Hpop : forall j s, stack (popcb j s) = stack j.

Definition types (j : jsonsl_st D) : list jsonsl_type_t := map type (stack j).

Definition flow_jsn (f : flow) : jsonsl_st D :=
  match f with
  | Next j => j
  | Return j => j
  end.

Definition shaped (f : flow) : Prop := well_stacked (types (flow_jsn f)) = true.

Lemma types_map_cur (f : jsonsl_state_st -> jsonsl_state_st) (j : jsonsl_st D) :
  (forall s, type (f s) = type s) -> types (map_cur f j) = types j.
Proof.
  intros Hf. unfold types, map_cur. destruct (stack j) as [|s r] eqn:E; simpl.
  - rewrite E. reflexivity.
  - rewrite Hf. reflexivity.
Qed.

Lemma types_incr_nelem (j : jsonsl_st D) : types (incr_nelem j) = types j.
Proof. apply types_map_cur. reflexivity. Qed.

Lemma cur_type (j : jsonsl_st D) :
  type (cur_state j) = hd JSONSL_T_UNKNOWN (types j).
Proof. unfold cur_state, types. destruct (stack j); reflexivity. Qed.

Lemma INVOKE_ERROR_shaped (j : jsonsl_st D) (e : jsonsl_error_t) :
  well_stacked (types j) = true -> shaped (INVOKE_ERROR ecb j e).
Proof. intros H. unfold shaped, INVOKE_ERROR, types. simpl. rewrite Hecb. exact H. Qed.

Lemma DO_CALLBACK_shaped cb (j : jsonsl_st D) (k : jsonsl_st D -> flow) :
  (forall j s, stack (cb j s) = stack j) ->
  well_stacked (types j) = true ->
  (forall j', types j' = types j -> shaped (k j')) ->
  shaped (DO_CALLBACK cb j k).
Proof.
  intros Hcb H Hk. unfold DO_CALLBACK.
  destruct (stopfl _).
  - unfold shaped, types. simpl. rewrite Hcb. exact H.
  - apply Hk. unfold types. rewrite Hcb. reflexivity.
Qed.

Lemma STACK_PUSH_shaped (j : jsonsl_st D) t fl (k : jsonsl_st D -> flow) :
  well_stacked (types j) = true ->
  (forall j', types j' = t :: types j -> shaped (k j')) ->
  shaped (STACK_PUSH ecb j t fl k).
Proof.
  intros H Hk. unfold STACK_PUSH.
  destruct (_ <=? _)%nat.
  - unfold shaped, types. simpl. rewrite Hecb. exact H.
  - apply Hk. reflexivity.
Qed.

Lemma map_tl {A B} (f : A -> B) (l : list A) : map f (tl l) = tl (map f l).
Proof. destruct l; reflexivity. Qed.

Lemma CALLBACK_AND_POP_shaped (j : jsonsl_st D) (k : jsonsl_st D -> flow) :
  well_stacked (types j) = true ->
  (forall j', types j' = tl (types j) -> shaped (k j')) ->
  shaped (CALLBACK_AND_POP popcb j k).
Proof.
  intros H Hk. unfold CALLBACK_AND_POP.
  apply DO_CALLBACK_shaped; [exact Hpop | |].
  - rewrite types_map_cur by reflexivity. exact H.
  - intros j' Hj'. apply Hk.
    rewrite types_map_cur by reflexivity.
    rewrite types_map_cur in Hj' by reflexivity.
    unfold types in *. simpl. rewrite map_tl, Hj'. reflexivity.
Qed.

Lemma well_stacked_containers (ts : list jsonsl_type_t) :
  well_stacked ts = true ->
  is_token_type (hd JSONSL_T_UNKNOWN ts) = false ->
  containers_over_root ts = true.
Proof.
  destruct ts as [|t r]; [discriminate|]. simpl. intros H Ht. rewrite Ht in H. exact H.
Qed.

Lemma push_token_shaped (ts : list jsonsl_type_t) (t : jsonsl_type_t) :
  containers_over_root ts = true -> is_token_type t = true ->
  well_stacked (t :: ts) = true.
Proof. intros H Ht. simpl. rewrite Ht. exact H. Qed.

Lemma push_container_shaped (ts : list jsonsl_type_t) (t : jsonsl_type_t) :
  containers_over_root ts = true -> is_container_type t = true ->
  well_stacked (t :: ts) = true.
Proof.
  intros H Ht. destruct ts as [|t' r]; [discriminate H|].
  destruct t; try discriminate Ht; simpl; exact H.
Qed.

Lemma containers_well_stacked (ts : list jsonsl_type_t) :
  containers_over_root ts = true -> well_stacked ts = true.
Proof.
  destruct ts as [|t r]; [discriminate|]. intros H. unfold well_stacked.
  destruct (is_token_type t) eqn:Et; [|exact H].
  simpl in H. destruct r; destruct t; try discriminate; discriminate.
Qed.

Lemma pop_shaped (t : jsonsl_type_t) (ts : list jsonsl_type_t) :
  well_stacked (t :: ts) = true ->
  is_token_type t || is_container_type t = true ->
  well_stacked ts = true.
Proof.
  intros H Ht. apply containers_well_stacked.
  unfold well_stacked in H.
  destruct (is_token_type t) eqn:Et; [exact H|].
  simpl in Ht. simpl in H. destruct ts; [destruct t; discriminate|].
  apply andb_true_iff in H. apply H.
Qed.

Lemma types_set_tokens (j : jsonsl_st D) a b c : types (set_tokens j a b c) = types j.
Proof. reflexivity. Qed.
Lemma types_set_in_escape (j : jsonsl_st D) b : types (set_in_escape j b) = types j.
Proof. reflexivity. Qed.
Lemma types_set_pos (j : jsonsl_st D) p : types (set_pos j p) = types j.
Proof. reflexivity. Qed.

Ltac types_simpl :=
  repeat first
    [ rewrite types_set_tokens | rewrite types_set_in_escape | rewrite types_set_pos
    | rewrite types_incr_nelem | rewrite types_map_cur by reflexivity ].

(** A token is pushed over containers, and the push callback runs. *)
Lemma push_token (j : jsonsl_st D) (t : jsonsl_type_t) (fl : Z) :
  well_stacked (types j) = true ->
  is_token_type (hd JSONSL_T_UNKNOWN (types j)) = false ->
  is_token_type t = true ->
  shaped (STACK_PUSH ecb j t fl (fun j1 => DO_CALLBACK pushcb j1 Next)).
Proof.
  intros H Hc Ht. apply STACK_PUSH_shaped; [exact H|].
  intros j1 Hj1.
  assert (well_stacked (types j1) = true).
  { rewrite Hj1. apply push_token_shaped; [|exact Ht].
    apply (well_stacked_containers _ H Hc). }
  apply DO_CALLBACK_shaped; [exact Hpush | assumption|].
  intros j2 Hj2. unfold shaped. simpl. rewrite Hj2. assumption.
Qed.

Lemma GT_QUOTE_shaped (jsn : jsonsl_st D) :
  well_stacked (types jsn) = true -> shaped (GT_QUOTE ecb pushcb popcb jsn).
Proof.
  intros H. unfold GT_QUOTE. cbv zeta.
  rewrite cur_type. types_simpl.
  destruct (types jsn) as [|t ts] eqn:Et; [discriminate H|].
  cbn [hd].
  destruct t.
  - apply INVOKE_ERROR_shaped. types_simpl. rewrite Et. exact H.
  - apply CALLBACK_AND_POP_shaped; types_simpl; rewrite Et; [exact H|].
    intros j' Hj'. unfold shaped. simpl. rewrite Hj'. simpl.
    apply (pop_shaped _ _ H). reflexivity.
  - apply CALLBACK_AND_POP_shaped; types_simpl; rewrite Et; [exact H|].
    intros j' Hj'. unfold shaped. simpl. rewrite Hj'. simpl.
    apply (pop_shaped _ _ H). reflexivity.
  - destruct (Nat.odd _).
    + destruct (_ =? _)%char.
      * apply push_token; types_simpl; try rewrite Et; [exact H | reflexivity | reflexivity].
      * apply INVOKE_ERROR_shaped. types_simpl. rewrite Et. exact H.
    + destruct (_ =? _)%char.
      * apply push_token; types_simpl; try rewrite Et; [exact H | reflexivity | reflexivity].
      * apply INVOKE_ERROR_shaped. types_simpl. rewrite Et. exact H.
  - apply STACK_PUSH_shaped; types_simpl; rewrite Et; [exact H|].
    intros j1 Hj1.
    assert (well_stacked (types j1) = true).
    { rewrite Hj1. apply push_token_shaped; [|reflexivity].
      apply (well_stacked_containers _ H). reflexivity. }
    apply DO_CALLBACK_shaped; [exact Hpush | types_simpl; assumption|].
    intros j2 Hj2. unfold shaped. simpl. rewrite Hj2. types_simpl. assumption.
  - apply INVOKE_ERROR_shaped. types_simpl. rewrite Et. exact H.
Qed.

Lemma GT_ESCAPE_shaped (jsn : jsonsl_st D) :
  well_stacked (types jsn) = true -> shaped (GT_ESCAPE ecb jsn).
Proof.
  intros H. unfold GT_ESCAPE. cbv zeta.
  destruct (type (cur_state jsn));
    try (apply INVOKE_ERROR_shaped; exact H);
    unfold shaped; simpl; types_simpl; exact H.
Qed.

Lemma ENSURE_HVAL_shaped (j : jsonsl_st D) (k : jsonsl_st D -> flow) :
  well_stacked (types j) = true -> shaped (k j) -> shaped (ENSURE_HVAL ecb j k).
Proof.
  intros H Hk. unfold ENSURE_HVAL. cbv zeta.
  destruct (type (cur_state j)); try exact Hk.
  destruct (Nat.even _); [apply INVOKE_ERROR_shaped; exact H | exact Hk].
Qed.

Lemma GT_SPECIAL_BEGIN_shaped (c : ascii) (jsn : jsonsl_st D) :
  well_stacked (types jsn) = true ->
  is_token_type (hd JSONSL_T_UNKNOWN (types jsn)) = false ->
  shaped (GT_SPECIAL_BEGIN ecb pushcb c jsn).
Proof.
  intros H Hc. unfold GT_SPECIAL_BEGIN. cbv zeta.
  destruct (_ =? 0).
  - destruct (_ =? _)%char; [|destruct (_ <? _)]; apply INVOKE_ERROR_shaped; exact H.
  - apply ENSURE_HVAL_shaped; [exact H|].
    destruct (can_insert _).
    + apply push_token; types_simpl; [exact H | exact Hc | reflexivity].
    + apply INVOKE_ERROR_shaped. types_simpl. exact H.
Qed.

Lemma GT_STRUCTURAL_TOKEN_shaped (c : ascii) (jsn : jsonsl_st D) :
  well_stacked (types jsn) = true ->
  is_token_type (hd JSONSL_T_UNKNOWN (types jsn)) = false ->
  shaped (GT_STRUCTURAL_TOKEN ecb pushcb popcb c jsn).
Proof.
  intros H Hc. unfold GT_STRUCTURAL_TOKEN. cbv zeta.
  destruct (c =? ":")%char.
  { destruct (_ =? _)%char; [unfold shaped; simpl; types_simpl; exact H
                            | apply INVOKE_ERROR_shaped; exact H]. }
  destruct (c =? ",")%char.
  { destruct (_ =? _)%char; [|apply INVOKE_ERROR_shaped; exact H].
    destruct (type (cur_state jsn)); unfold shaped; simpl; types_simpl; exact H. }
  destruct ((c =? "{")%char || (c =? "[")%char).
  { destruct (can_insert jsn); [|apply INVOKE_ERROR_shaped; exact H].
    apply ENSURE_HVAL_shaped; [exact H|].
    apply STACK_PUSH_shaped; types_simpl; [exact H|].
    intros j1 Hj1.
    assert (well_stacked (types j1) = true).
    { rewrite Hj1. apply push_container_shaped.
      - apply (well_stacked_containers _ H Hc).
      - destruct (c =? "{")%char; reflexivity. }
    apply DO_CALLBACK_shaped; [exact Hpush | types_simpl; assumption|].
    intros j2 Hj2. unfold shaped. simpl. types_simpl. rewrite Hj2. types_simpl.
    assumption. }
  destruct ((c =? "}")%char || (c =? "]")%char).
  { destruct (_ =? _)%char; [apply INVOKE_ERROR_shaped; exact H|].
    rewrite cur_type.
    assert (Hclose : is_container_type (hd JSONSL_T_UNKNOWN (types jsn)) = true ->
      shaped (DO_CALLBACK popcb (set_tokens jsn NUL "," false)
                (fun j => Next (map_cur (with_pos_cur (pos (set_stack j (tl (stack j)))))
                                        (set_stack j (tl (stack j))))))).
    { intros Hcont. apply DO_CALLBACK_shaped; [exact Hpop | types_simpl; exact H|].
      intros j' Hj'. unfold shaped. simpl. types_simpl.
      unfold types in *. simpl. rewrite map_tl, Hj'. simpl.
      destruct (map type (stack jsn)) as [|t ts]; [discriminate H|].
      simpl. apply (pop_shaped _ _ H). simpl in Hcont. rewrite Hcont.
      apply orb_true_r. }
    destruct (hd JSONSL_T_UNKNOWN (types jsn)) eqn:Eh;
      destruct (c =? "]")%char;
      try (apply INVOKE_ERROR_shaped; types_simpl; exact H);
      try (apply Hclose; reflexivity).
    destruct (Nat.odd _); [apply INVOKE_ERROR_shaped; types_simpl; exact H|].
    apply Hclose; reflexivity. }
  apply GT_SPECIAL_BEGIN_shaped; assumption.
Qed.

Lemma GT_SPECIAL_POP_shaped (c : ascii) (jsn : jsonsl_st D) :
  well_stacked (types jsn) = true ->
  is_token_type (hd JSONSL_T_UNKNOWN (types jsn)) = true ->
  shaped (GT_SPECIAL_POP ecb pushcb popcb c jsn).
Proof.
  intros H Ht. unfold GT_SPECIAL_POP. cbv zeta.
  match goal with |- shaped (if ?c then _ else _) => destruct c end;
    [|apply INVOKE_ERROR_shaped; types_simpl; exact H].
  apply CALLBACK_AND_POP_shaped; types_simpl; [exact H|].
  intros j' Hj'.
  assert (Hc : containers_over_root (types j') = true).
  { rewrite Hj'. destruct (types jsn) as [|t ts]; [discriminate H|].
    simpl in *. rewrite Ht in H. exact H. }
  assert (Hw : well_stacked (types j') = true) by (apply containers_well_stacked; exact Hc).
  assert (Hn : is_token_type (hd JSONSL_T_UNKNOWN (types j')) = false).
  { destruct (types j') as [|t ts]; [discriminate Hc|]. simpl in *.
    destruct ts; destruct t; try discriminate Hc; reflexivity. }
  destruct (is_allowed_whitespace c).
  - unfold shaped. simpl. types_simpl. exact Hw.
  - apply GT_STRUCTURAL_TOKEN_shaped; types_simpl; assumption.
Qed.

Lemma step_shaped (c : ascii) (jsn : jsonsl_st D) :
  well_stacked (types jsn) = true -> shaped (step ecb pushcb popcb c jsn).
Proof.
  intros H. unfold step. cbv zeta.
  pose proof (cur_type jsn) as Hcur.
  destruct (type (cur_state jsn)) eqn:Et.
  - (* root *)
    destruct (is_allowed_whitespace c); [exact H|].
    destruct (negb _); [apply GT_SPECIAL_BEGIN_shaped; [exact H | rewrite <- Hcur; reflexivity]|].
    destruct (_ =? _)%char; [apply GT_QUOTE_shaped; exact H|].
    destruct (_ =? _)%char; [apply GT_ESCAPE_shaped; exact H|].
    apply GT_STRUCTURAL_TOKEN_shaped; [exact H | rewrite <- Hcur; reflexivity].
  - destruct (in_escape jsn).
    { destruct (is_allowed_escape c); [exact H | apply INVOKE_ERROR_shaped; exact H]. }
    destruct (_ =? _)%char; [apply GT_QUOTE_shaped; exact H|].
    destruct (_ =? _)%char; [apply GT_ESCAPE_shaped; exact H|].
    destruct (_ <? _); [apply INVOKE_ERROR_shaped; exact H | exact H].
  - destruct (in_escape jsn).
    { destruct (is_allowed_escape c); [exact H | apply INVOKE_ERROR_shaped; exact H]. }
    destruct (_ =? _)%char; [apply GT_QUOTE_shaped; exact H|].
    destruct (_ =? _)%char; [apply GT_ESCAPE_shaped; exact H|].
    destruct (_ <? _); [apply INVOKE_ERROR_shaped; exact H | exact H].
  - destruct (is_allowed_whitespace c); [exact H|].
    destruct (negb _); [apply GT_SPECIAL_BEGIN_shaped; [exact H | rewrite <- Hcur; reflexivity]|].
    destruct (_ =? _)%char; [apply GT_QUOTE_shaped; exact H|].
    destruct (_ =? _)%char; [apply GT_ESCAPE_shaped; exact H|].
    apply GT_STRUCTURAL_TOKEN_shaped; [exact H | rewrite <- Hcur; reflexivity].
  - destruct (is_allowed_whitespace c); [exact H|].
    destruct (negb _); [apply GT_SPECIAL_BEGIN_shaped; [exact H | rewrite <- Hcur; reflexivity]|].
    destruct (_ =? _)%char; [apply GT_QUOTE_shaped; exact H|].
    destruct (_ =? _)%char; [apply GT_ESCAPE_shaped; exact H|].
    apply GT_STRUCTURAL_TOKEN_shaped; [exact H | rewrite <- Hcur; reflexivity].
  - assert (Hpop' : shaped (GT_SPECIAL_POP ecb pushcb popcb c jsn))
      by (apply GT_SPECIAL_POP_shaped; [exact H | rewrite <- Hcur; reflexivity]).
    destruct (has_flag _ _).
    + destruct (Libc.isdigit c); [exact H|].
      destruct (_ || _); [unfold shaped; simpl; types_simpl; exact H|].
      destruct (_ =? _)%char; [unfold shaped; simpl; types_simpl; exact H|].
      destruct (is_special_end c); [exact Hpop' | apply INVOKE_ERROR_shaped; exact H].
    + destruct (is_special_end c); [exact Hpop'|].
      destruct (special_literal _); [|exact H].
      destruct (String.get _ _); [|apply INVOKE_ERROR_shaped; exact H].
      destruct (_ =? _)%char; [exact H | apply INVOKE_ERROR_shaped; exact H].
Qed.

Lemma feed_loop_shaped (s : string) (jsn : jsonsl_st D) :
  well_stacked (types jsn) = true ->
  well_stacked (types (feed_loop ecb pushcb popcb s jsn)) = true.
Proof.
  revert jsn. induction s as [|c s IH]; intros jsn H; simpl; [exact H|].
  pose proof (step_shaped c jsn H) as Hs. unfold shaped in Hs.
  destruct (step ecb pushcb popcb c jsn) as [j|j]; simpl in Hs.
  - apply IH. exact Hs.
  - exact Hs.
Qed.
End Shape.

(** The callbacks of this file leave the lexer's stack alone. *)
Lemma errorCallback_stack (j : jsonsl_t) e s : stack (errorCallback j e s) = stack j.
Proof. reflexivity. Qed.

Lemma pushCallback_stack (j : jsonsl_t) s : stack (pushCallback j s) = stack j.
Proof. unfold pushCallback. destruct (type s); reflexivity. Qed.

Lemma popCallback_stack (j : jsonsl_t) s : stack (popCallback j s) = stack j.
Proof.
  unfold popCallback.
  assert (H1 : match pop_string j s with inl x => stack x = stack j | inr x => stack x = stack j end).
  { unfold pop_string. destruct (type s); try reflexivity;
      destruct (negb _); try reflexivity;
      destruct (jsonsl_util_unescape _ _) as [[n b] e]; destruct (n =? 0)%nat; reflexivity. }
  destruct (pop_string j s) as [x|x]; [exact H1|].
  assert (H2 : match pop_special x s with inl y => stack y = stack j | inr y => stack y = stack j end).
  { unfold pop_special. destruct (type s); try exact H1.
    repeat match goal with
           | |- context [if ?c then _ else _] => destruct c
           end; exact H1. }
  destruct (pop_special x s) as [y|y]; [exact H2|].
  unfold pop_attach.
  destruct (type s); try exact H2;
    destruct (nodes (data y)) as [|c [|[p|] r]]; try exact H2;
    try (destruct (node_type p); try exact H2);
    try (destruct p; try exact H2; destruct r as [|[d|] r']; exact H2).
Qed.

(** The lexer's stack keeps its shape through a scan. *)
Lemma scan_well_stacked (_buf : string) : well_stacked (types (scan _buf)) = true.
Proof.
  unfold scan, jsonsl_feed.
  apply feed_loop_shaped.
  - exact errorCallback_stack.
  - exact pushCallback_stack.
  - exact popCallback_stack.
  - reflexivity.
Qed.

(** One for a string, key or literal that the input left unfinished. *)
Definition unfinished_token (jsn : jsonsl_t) : nat :=
  if is_token_type (type (cur_state jsn)) then 1%nat else 0%nat.

Lemma containers_count (st : list jsonsl_state_st) :
  containers_over_root (map type st) = true ->
  List.length (filter is_container_state st) = (List.length st - 1)%nat.
Proof.
  induction st as [|s r IH]; [discriminate|].
  cbn [map containers_over_root]. destruct r as [|s' r'].
  - simpl. unfold is_container_state. destruct (type s); try discriminate. reflexivity.
  - remember (s' :: r') as rr eqn:Er.
    assert (Hlen : (1 <= List.length rr)%nat) by (subst rr; simpl; lia).
    replace (map type rr) with (type s' :: map type r') by (subst rr; reflexivity).
    replace (type s' :: map type r') with (map type rr) by (subst rr; reflexivity).
    intros H. apply andb_true_iff in H as [Hc Hr].
    cbn [filter]. unfold is_container_state at 1.
    unfold is_container_type in Hc.
    destruct (type s); try discriminate Hc;
      cbn [List.length]; rewrite (IH Hr); lia.
Qed.

Lemma level_counts (jsn : jsonsl_t) :
  well_stacked (types jsn) = true ->
  level jsn = (open_containers jsn + unfinished_token jsn)%nat.
Proof.
  unfold types, level, open_containers, unfinished_token, cur_state.
  destruct (stack jsn) as [|s r]; [discriminate|].
  cbn [map well_stacked hd].
  destruct (is_token_type (type s)) eqn:Et; intros H.
  - cbn [filter]. unfold is_container_state at 1.
    assert (Hlen : (1 <= List.length r)%nat) by (destruct r; [discriminate H | simpl; lia]).
    destruct (type s); try discriminate Et;
      rewrite (containers_count r H); cbn [List.length]; lia.
  - rewrite (containers_count (s :: r) H). cbn [List.length]. lia.
Qed.

(** C7, as amended. When the scan ends without a lexer error and above
    level 0, parsing fails, returns no tree, and the text is "ERR JSON
    value incomplete - n containers unterminated" where n is the lexer's
    level: the containers still open, the array that wraps a scalar among
    them, and one more for a string, key or literal left unfinished. The
    input of one opening brace reports 1. *)
Theorem unterminated_reports_level :
  forall (strerror : jsonsl_error_t -> string) (buf : string),
    let jsn := scan (lexer_input buf) in
    let r := CreateNodeFromJSON strerror buf in
    (err (data jsn) = JSONSL_ERROR_SUCCESS -> level jsn <> O ->
     ret r = JSONOBJECT_ERROR /\ node r = None /\
     error r = Some ("ERR JSON value incomplete - "
                       ++ Libc.dec_unsigned (Z.of_nat (level jsn))
                       ++ " containers unterminated")) /\
    level jsn = (open_containers jsn + unfinished_token jsn)%nat /\
    ret (CreateNodeFromJSON strerror "{") = JSONOBJECT_ERROR /\
    node (CreateNodeFromJSON strerror "{") = None /\
    error (CreateNodeFromJSON strerror "{")
      = Some "ERR JSON value incomplete - 1 containers unterminated".
Proof.
  intros strerror buf jsn r. split.
  - intros He Hl.
    destruct (CreateNodeFromJSON_incomplete strerror buf He Hl) as (H1 & H2 & H3 & _).
    repeat split; assumption.
  - split; [apply level_counts, scan_well_stacked|].
    repeat split; vm_compute; reflexivity.
Qed.

Lemma unterminated_reports_level_witness :
  error (CreateNodeFromJSON (fun _ => "") ("[" ++ quoted "a" ++ ",[1"))
    = Some "ERR JSON value incomplete - 3 containers unterminated".
Proof.
  destruct (unterminated_reports_level (fun _ => "") ("[" ++ quoted "a" ++ ",[1")) as [H _].
  destruct H as (_ & _ & H).
  - vm_compute. reflexivity.
  - vm_compute. discriminate.
  - rewrite H. vm_compute. reflexivity.
Defined.

(** ** Memory on the way out *)

(** On an error return every node still on the stack is freed, and the
    buffer of a scalar is not. *)
Lemma error_return_frees (strerror : jsonsl_error_t -> string) (buf : string) :
  ret (CreateNodeFromJSON strerror buf) = JSONOBJECT_ERROR ->
  freed (CreateNodeFromJSON strerror buf) = nodes (data (scan (lexer_input buf))) /\
  leftover (CreateNodeFromJSON strerror buf) = [] /\
  wrap_freed (CreateNodeFromJSON strerror buf) = false.
Proof.
  unfold lexer_input, CreateNodeFromJSON.
  destruct (munch_whitespace buf 0) as [o rd]. cbn [fst].
  set (j := scan (if is_scalar_at buf o then scalar_wrap buf o else buf)).
  destruct (err (data j)); unfold on_error; cbn [ret freed leftover wrap_freed];
    try solve [intros _; repeat split].
  destruct (negb (level j =? 0)%nat); cbn [ret freed leftover wrap_freed];
    try solve [intros _; repeat split].
  destruct (nelem (stack0 j) =? 0)%nat; cbn [ret freed leftover wrap_freed];
    try solve [intros _; repeat split].
  destruct (is_scalar_at buf o).
  - destruct (nodes0 (nodes (data j))) as [[arr|]|]; cbn [ret]; intros H; discriminate H.
  - destruct (nodes (data j)); cbn [ret]; intros H; discriminate H.
Qed.

(** C9. The scalar [x] is an error for the lexer: the array on the stack
    is freed and nothing is left on it, but the buffer of three bytes
    allocated for the scalar is not freed. *)
Theorem scalar_buffer_not_freed_on_error :
  forall strerror : jsonsl_error_t -> string,
    ret (CreateNodeFromJSON strerror "x") = JSONOBJECT_ERROR /\
    freed (CreateNodeFromJSON strerror "x") = [Some (ArrayNode [])] /\
    leftover (CreateNodeFromJSON strerror "x") = [] /\
    wrap_size (CreateNodeFromJSON strerror "x") = Some 3%nat /\
    wrap_freed (CreateNodeFromJSON strerror "x") = false.
Proof. intros strerror. repeat split; vm_compute; reflexivity. Qed.

(** ** Reads of the input *)

(** The offsets read before the lexer runs end with the offset where the
    whitespace ends, which is the length of an input of whitespace. *)
Lemma whitespace_read_at_length (strerror : jsonsl_error_t -> string) (buf : string) :
  all_whitespace buf = true ->
  In (String.length buf) (reads (CreateNodeFromJSON strerror buf)).
Proof.
  intros H. unfold CreateNodeFromJSON.
  destruct (munch_all_whitespace buf 0 H) as [Hoff Hin].
  destruct (munch_whitespace buf 0) as [o rd]. simpl in Hoff, Hin. subst o.
  match goal with
  | |- In _ (reads ?x) =>
      assert (Hr : reads x = (rd ++ [String.length buf])%list)
  end.
  { destruct (err _); unfold on_error; cbn [reads]; try reflexivity.
    destruct (negb _); cbn [reads]; try reflexivity.
    destruct (_ =? _)%nat; cbn [reads]; try reflexivity.
    destruct (is_scalar_at _ _).
    - destruct (nodes0 _) as [[arr|]|]; reflexivity.
    - destruct (nodes _); reflexivity. }
  rewrite Hr. apply in_or_app. left. exact Hin.
Qed.

(** C10. On the empty input the byte at offset 0 is read, by the loop and
    again by the test for a scalar, although the input has no byte; on an
    input of two spaces the byte at offset 2 is read twice. *)
Theorem reads_past_the_input :
  forall strerror : jsonsl_error_t -> string,
    reads (CreateNodeFromJSON strerror "") = [0; 0]%nat /\
    String.length "" = 0%nat /\
    reads (CreateNodeFromJSON strerror "  ") = [0; 1; 2; 2]%nat /\
    String.length "  " = 2%nat.
Proof. intros strerror. repeat split; vm_compute; reflexivity. Qed.

(** ** Doubles *)

(** [fabs(floor(v) - v) <= DBL_EPSILON]: integral within floating-point
    epsilon. *)
Definition integral_within_epsilon (v : Double.double) : bool :=
  Double.leb (Double.fabs (Double.sub (Double.floor v) v)) Double.DBL_EPSILON.

(** The three-way rule with the bounds of the specification: below 1e-6,
    or at or above 1e9. *)
Definition three_way (v : Double.double) : string :=
  if integral_within_epsilon v && Double.ltb (Double.fabs v) Double.d_1e60
  then Double.printf_f0 v
  else if Double.ltb (Double.fabs v) Double.d_1e_6
          || Double.leb Double.d_1e9 (Double.fabs v)
  then Double.printf_e v
  else Double.printf_g17 v.

(** Whether a double falls to the third case of the rule. *)
Definition third_case (v : Double.double) : bool :=
  negb (integral_within_epsilon v && Double.ltb (Double.fabs v) Double.d_1e60)
  && negb (Double.ltb (Double.fabs v) Double.d_1e_6
           || Double.leb Double.d_1e9 (Double.fabs v)).

(** A text in scientific notation has an exponent letter. *)
Definition has_exponent (s : string) : bool :=
  existsb (fun c => (c =? "e")%char) (list_ascii_of_string s).

Definition dec (d k : Z) : Double.double := Double.of_decimal false d k.


Lemma compare_1e9_eq (v : Double.double) :
  SFcompare Double.d_1e9 (Double.fabs v) = Some Eq ->
  Double.fabs v = Double.d_1e9.
Proof.
  change Double.d_1e9 with (S754_finite false 8388608000000000 (-23)).
  destruct v as [s|s| |s m e]; cbn [SFcompare Double.fabs SFabs]; try discriminate.
  destruct (Z.compare_spec (-23) e) as [He|He|He]; try discriminate.
  intros H. injection H as H.
  change (Pos.compare 8388608000000000 m = Eq) in H.
  apply Pos.compare_eq in H. subst. reflexivity.
Qed.

Lemma leb_1e9_cases (v : Double.double) :
  Double.leb Double.d_1e9 (Double.fabs v) = Double.ltb Double.d_1e9 (Double.fabs v) \/
  Double.fabs v = Double.d_1e9.
Proof.
  unfold Double.leb, Double.ltb, SFleb, SFltb.
  destruct (SFcompare Double.d_1e9 (Double.fabs v)) as [[| |]|] eqn:E; auto.
  right. apply compare_1e9_eq. exact E.
Qed.

Lemma fabs_1e9 (v : Double.double) :
  Double.fabs v = Double.d_1e9 ->
  v = Double.d_1e9 \/ v = SFopp Double.d_1e9.
Proof.
  change Double.d_1e9 with (S754_finite false 8388608000000000 (-23)).
  destruct v as [s|s| |s m e]; simpl; try discriminate.
  intros H. injection H as -> ->. destruct s; auto.
Qed.


(** ** Round trip *)

(** ** Induction on trees *)

Definition on_slot (P : Node -> Prop) (x : option Node) : Prop :=
  match x with
  | Some n => P n
  | None => True
  end.

Section NodeInduction.
Variable P : Node -> Prop.
Hypothesis HString : forall s, P (StringNode s).
Hypothesis HNumber : forall v, P (NumberNode v).
Hypothesis HInteger : forall i, P (IntegerNode i).
Hypothesis HBoolean : forall b, P (BooleanNode b).
Hypothesis HDict : forall l, Forall (on_slot P) l -> P (DictNode l).
Hypothesis HArray : forall l, Forall (on_slot P) l -> P (ArrayNode l).
Hypothesis HKeyVal : forall k v, on_slot P v -> P (KeyValNode k v).

Fixpoint Node_induction (n : Node) : P n :=
  let slot (x : option Node) : on_slot P x :=
    match x with
    | Some c => Node_induction c
    | None => I
    end in
  let slots :=
    fix slots (l : list (option Node)) : Forall (on_slot P) l :=
      match l with
      | [] => Forall_nil _
      | x :: l' => Forall_cons x (slot x) (slots l')
      end in
  match n with
  | StringNode s => HString s
  | NumberNode v => HNumber v
  | IntegerNode i => HInteger i
  | BooleanNode b => HBoolean b
  | DictNode l => HDict l (slots l)
  | ArrayNode l => HArray l (slots l)
  | KeyValNode k v => HKeyVal k v (slot v)
  end.
End NodeInduction.

(** ** The text of a tree *)

Section Render.
Variables nlS indS spS : string.

Definition indent_text (d : nat) : string := repeat_string d indS.

(** The text of the entries of a container after the first one. *)
Definition render_tail (r : option Node -> string) (d : nat) (l : list (option Node)) : string :=
  fold_right (fun x acc => "," ++ nlS ++ indent_text d ++ r x ++ acc) "" l.

Definition render_entries (r : option Node -> string) (d : nat) (l : list (option Node))
    (opening closing : string) : string :=
  match l with
  | [] => opening ++ indent_text d ++ closing
  | x :: l' =>
      opening ++ nlS ++ indent_text (S d) ++ r x ++ render_tail r (S d) l'
        ++ nlS ++ indent_text d ++ closing
  end.

(** The text of a tree at a depth, for a newline, an indent and a space
    string. *)
Fixpoint render (d : nat) (n : Node) : string :=
  let slot (d : nat) (x : option Node) : string :=
    match x with
    | Some c => render d c
    | None => "null"
    end in
  match n with
  | StringNode s => quoted (escape_string s)
  | NumberNode v => number_text v
  | IntegerNode i => Libc.dec_signed i
  | BooleanNode b => if b then "true" else "false"
  | DictNode l => render_entries (slot (S d)) d l "{" "}"
  | ArrayNode l => render_entries (slot (S d)) d l "[" "]"
  | KeyValNode k v => quoted (c_str k) ++ ":" ++ spS ++ slot d v
  end.

Definition render_slot (d : nat) (x : option Node) : string :=
  match x with
  | Some c => render d c
  | None => "null"
  end.
End Render.

Lemma c_str_idem (s : string) : c_str (c_str s) = c_str s.
Proof.
  induction s as [|c s IH]; simpl; auto.
  destruct (c =? "000")%char eqn:E; simpl; auto. rewrite E, IH. reflexivity.
Qed.

(** A builder whose strings are C strings, as [sdsnew] makes them. *)
Definition builder_for (nlS indS spS : string) (b : _JSONBuilderContext) : Prop :=
  newlinestr b = nlS /\ indentstr b = indS /\ c_str (spacestr b) = spS /\
  c_str (delimstr b) = "," ++ nlS /\
  indent b = Z.of_nat (String.length indS) /\ 0 <= depth b.

Definition serializer_callbacks : Object.NodeSerializerOpt _JSONBuilderContext :=
  {| Object.fBegin := _JSONSerialize_BeginValue;
     Object.xBegin := 65535;
     Object.fEnd := _JSONSerialize_EndValue;
     Object.xEnd := Z.lor (NodeType_bit N_DICT) (NodeType_bit N_ARRAY);
     Object.fDelim := _JSONSerialize_ContainerDelimiter;
     Object.xDelim := Z.lor (NodeType_bit N_DICT) (NodeType_bit N_ARRAY) |}.

Section WalkUnfold.
Context {C : Type} (o : Object.NodeSerializerOpt C).

(** The walk of the entries of the container [n]. *)
Fixpoint walk_list (n : Node) (first : bool) (l : list (option Node)) (ctx : C) : C :=
  match l with
  | [] => ctx
  | x :: l' =>
      let ctx := if first then ctx else Object.delim o (Some n) ctx in
      walk_list n false l' (Object.Node_Serializer o x ctx)
  end.

Lemma walk_entries_list (n : Node) (l : list (option Node)) :
  forall (first : bool) (ctx : C),
    (fix walk_entries (first : bool) (l : list (option Node)) (ctx : C) : C :=
       match l with
       | [] => ctx
       | x :: l' =>
           let ctx := if first then ctx else Object.delim o (Some n) ctx in
           walk_entries false l'
             match x with
             | Some c => Object.walk o c ctx
             | None => Object.end_value o None (Object.begin_value o None ctx)
             end
       end) first l ctx = walk_list n first l ctx.
Proof.
  induction l as [|x l IH]; intros first ctx; [reflexivity|].
  cbn [walk_list]. rewrite <- IH. destruct x; reflexivity.
Qed.

Lemma walk_unfold (n : Node) (ctx : C) :
  Object.walk o n ctx =
  Object.end_value o (Some n)
    match n with
    | DictNode l => walk_list n true l (Object.begin_value o (Some n) ctx)
    | ArrayNode l => walk_list n true l (Object.begin_value o (Some n) ctx)
    | KeyValNode _ v => Object.Node_Serializer o v (Object.begin_value o (Some n) ctx)
    | _ => Object.begin_value o (Some n) ctx
    end.
Proof.
  destruct n as [s|v|i|bv|l|l|k v]; try reflexivity.
  - rewrite <- walk_entries_list. reflexivity.
  - rewrite <- walk_entries_list. reflexivity.
Qed.
End WalkUnfold.

Ltac norm_app := repeat (progress (rewrite ?append_assoc; cbn [append])).

Section Walked.
Variables nlS indS spS : string.

Lemma Indent_any (b : _JSONBuilderContext) :
  builder_for nlS indS spS b ->
  _JSONSerialize_Indent b = set_buf b (buf b ++ indent_text indS (Z.to_nat (depth b))).
Proof.
  intros (Hn & Hi & Hs & Hd & Hl & Hz).
  unfold _JSONSerialize_Indent, sdscat, indent_text.
  rewrite Hl, Hi.
  destruct indS as [|c s']; simpl.
  - rewrite repeat_string_empty, append_nil_r. destruct b; reflexivity.
  - reflexivity.
Qed.

Lemma builder_for_buf (b : _JSONBuilderContext) (s : string) :
  builder_for nlS indS spS b -> builder_for nlS indS spS (set_buf b s).
Proof. unfold builder_for. simpl. tauto. Qed.

Lemma builder_for_depth (b : _JSONBuilderContext) (d : Z) :
  builder_for nlS indS spS b -> 0 <= d -> builder_for nlS indS spS (set_depth b d).
Proof. unfold builder_for. simpl. tauto. Qed.

(** The text between two entries. *)
Lemma Delimiter_for (b : _JSONBuilderContext) :
  builder_for nlS indS spS b ->
  _JSONSerialize_ContainerDelimiter b
    = set_buf b (buf b ++ "," ++ nlS ++ indent_text indS (Z.to_nat (depth b))).
Proof.
  intros Hb. unfold _JSONSerialize_ContainerDelimiter, sdscat.
  rewrite Indent_any by (apply builder_for_buf; exact Hb).
  destruct Hb as (Hn & Hi & Hs & Hd & Hl & Hz). rewrite Hd.
  destruct b; unfold set_buf; simpl; norm_app; reflexivity.
Qed.

Lemma open_for (b : _JSONBuilderContext) (bracket : string) (len : nat) :
  builder_for nlS indS spS b ->
  open_container bracket len b
    = set_depth
        (set_buf b (buf b ++ bracket ++
                      (if (len =? 0)%nat then ""
                       else nlS ++ indent_text indS (S (Z.to_nat (depth b))))))
        (depth b + 1).
Proof.
  intros Hb. unfold open_container, sdscat.
  pose proof Hb as (Hn & Hi & Hs & Hd & Hl & Hz).
  destruct (len =? 0)%nat; cbn [negb].
  - rewrite append_nil_r. destruct b; reflexivity.
  - rewrite Indent_any
      by (apply builder_for_buf, builder_for_depth; [apply builder_for_buf; exact Hb | simpl; lia]).
    cbn [newlinestr set_depth set_buf buf depth].
    rewrite Hn, Z2Nat.inj_add, Nat.add_1_r by lia.
    destruct b; unfold set_buf, set_depth; simpl; norm_app; reflexivity.
Qed.

Lemma close_for (b : _JSONBuilderContext) (bracket : string) (len : nat) :
  builder_for nlS indS spS b -> 1 <= depth b ->
  close_container bracket len b
    = set_depth
        (set_buf b (buf b ++ (if (len =? 0)%nat then "" else nlS)
                      ++ indent_text indS (Z.to_nat (depth b - 1)) ++ bracket))
        (depth b - 1).
Proof.
  intros Hb Hd1. unfold close_container, sdscat.
  pose proof Hb as (Hn & Hi & Hs & Hd & Hl & Hz).
  destruct (len =? 0)%nat; cbn [negb].
  - rewrite Indent_any by (apply builder_for_depth; [exact Hb | lia]).
    destruct b; unfold set_buf, set_depth; simpl; norm_app; reflexivity.
  - rewrite Indent_any
      by (apply builder_for_depth; [apply builder_for_buf; exact Hb | simpl; lia]).
    cbn [newlinestr set_depth set_buf buf depth]. rewrite Hn.
    destruct b; unfold set_buf, set_depth; simpl; norm_app; reflexivity.
Qed.

Lemma slot_render (x : option Node) (b : _JSONBuilderContext) :
  on_slot (fun n => forall b, builder_for nlS indS spS b ->
             Object.walk serializer_callbacks n b
               = set_buf b (buf b ++ render nlS indS spS (Z.to_nat (depth b)) n)) x ->
  builder_for nlS indS spS b ->
  Object.Node_Serializer serializer_callbacks x b
    = set_buf b (buf b ++ render_slot nlS indS spS (Z.to_nat (depth b)) x).
Proof.
  intros Hx Hb. destruct x as [c|]; simpl in *.
  - apply Hx. exact Hb.
  - destruct b; reflexivity.
Qed.

Lemma list_render (n : Node) (l : list (option Node)) :
  Object.mask_enabled (Some n) (Object.xDelim serializer_callbacks) = true ->
  Forall (on_slot (fun n => forall b, builder_for nlS indS spS b ->
             Object.walk serializer_callbacks n b
               = set_buf b (buf b ++ render nlS indS spS (Z.to_nat (depth b)) n))) l ->
  forall b, builder_for nlS indS spS b ->
    walk_list serializer_callbacks n false l b
      = set_buf b (buf b ++ render_tail nlS indS
                               (render_slot nlS indS spS (Z.to_nat (depth b)))
                               (Z.to_nat (depth b)) l).
Proof.
  intros Hm Hl. induction Hl as [|x l Hx Hl IH]; intros b Hb.
  - simpl. rewrite append_nil_r. destruct b; reflexivity.
  - cbn [walk_list render_tail fold_right].
    unfold Object.delim. rewrite Hm. cbn [Object.fDelim serializer_callbacks].
    rewrite Delimiter_for by exact Hb.
    rewrite slot_render; [|exact Hx|apply builder_for_buf; exact Hb].
    rewrite IH by (repeat apply builder_for_buf; exact Hb).
    cbn [buf depth set_buf]. unfold render_tail.
    destruct b; unfold set_buf; simpl; norm_app; reflexivity.
Qed.

Lemma entries_render (n : Node) (l : list (option Node)) (opening closing : string)
    (b : _JSONBuilderContext) :
  Object.mask_enabled (Some n) (Object.xDelim serializer_callbacks) = true ->
  Forall (on_slot (fun n => forall b, builder_for nlS indS spS b ->
             Object.walk serializer_callbacks n b
               = set_buf b (buf b ++ render nlS indS spS (Z.to_nat (depth b)) n))) l ->
  builder_for nlS indS spS b ->
  close_container closing (List.length l)
    (walk_list serializer_callbacks n true l (open_container opening (List.length l) b))
  = set_buf b (buf b ++ render_entries nlS indS
                          (render_slot nlS indS spS (S (Z.to_nat (depth b))))
                          (Z.to_nat (depth b)) l opening closing).
Proof.
  intros Hm Hl Hb.
  pose proof Hb as (Hn & Hi & Hs & Hd & Hli & Hz).
  assert (Hb1 : forall s, builder_for nlS indS spS (set_depth (set_buf b s) (depth b + 1))).
  { intros s. apply builder_for_depth; [apply builder_for_buf; exact Hb | lia]. }
  rewrite open_for by exact Hb.
  destruct l as [|x l].
  - cbn [walk_list List.length Nat.eqb render_entries].
    rewrite close_for; [|apply Hb1|simpl; lia].
    cbn [buf depth set_buf set_depth Nat.eqb].
    replace (depth b + 1 - 1) with (depth b) by lia.
    destruct b; unfold set_buf, set_depth; simpl; norm_app; reflexivity.
  - inversion Hl as [|x' l' Hx Hl' Heq]; clear Heq.
    cbn [walk_list List.length Nat.eqb render_entries].
    rewrite slot_render; [|exact Hx|apply Hb1].
    rewrite list_render; [|exact Hm|exact Hl'|apply builder_for_buf, Hb1].
    rewrite close_for; [|apply builder_for_buf, builder_for_buf, Hb1|simpl; lia].
    cbn [buf depth set_buf set_depth Nat.eqb].
    replace (depth b + 1 - 1) with (depth b) by lia.
    rewrite Z2Nat.inj_add, Nat.add_1_r by lia.
    destruct b; unfold set_buf, set_depth; simpl; norm_app; reflexivity.
Qed.

(** The walk of a tree adds its text to the buffer and leaves the rest of
    the builder as it was. *)
Lemma walk_render (n : Node) :
  forall (b : _JSONBuilderContext),
    builder_for nlS indS spS b ->
    Object.walk serializer_callbacks n b
      = set_buf b (buf b ++ render nlS indS spS (Z.to_nat (depth b)) n).
Proof.
  induction n as [s|v|i|bv|l IH|l IH|k v IH] using Node_induction; intros b Hb.
  - destruct b; simpl. unfold Object.begin_value, Object.end_value; simpl.
    unfold _JSONSerialize_StringValue, sdscat, set_buf, quoted; simpl.
    rewrite !append_assoc. reflexivity.
  - destruct b; reflexivity.
  - destruct b; reflexivity.
  - destruct b; destruct bv; reflexivity.
  - rewrite walk_unfold.
    change (Object.end_value serializer_callbacks (Some (DictNode l)))
      with (close_container "}" (List.length l)).
    change (Object.begin_value serializer_callbacks (Some (DictNode l)) b)
      with (open_container "{" (List.length l) b).
    apply entries_render; [reflexivity | exact IH | exact Hb].
  - rewrite walk_unfold.
    change (Object.end_value serializer_callbacks (Some (ArrayNode l)))
      with (close_container "]" (List.length l)).
    change (Object.begin_value serializer_callbacks (Some (ArrayNode l)) b)
      with (open_container "[" (List.length l) b).
    apply entries_render; [reflexivity | exact IH | exact Hb].
  - rewrite walk_unfold.
    change (Object.end_value serializer_callbacks (Some (KeyValNode k v))) with (fun c : _JSONBuilderContext => c).
    cbv beta.
    change (Object.begin_value serializer_callbacks (Some (KeyValNode k v)) b)
      with (sdscat b (String DQUOTE (c_str k ++ String DQUOTE ":" ++ c_str (spacestr b)))).
    unfold sdscat.
    rewrite slot_render; [|exact IH|apply builder_for_buf; exact Hb].
    destruct Hb as (Hn & Hi & Hs & Hd & Hli & Hz). rewrite Hs.
    cbn [render]. fold (render_slot nlS indS spS (Z.to_nat (depth b)) v).
    unfold quoted.
    destruct b; unfold set_buf; simpl; norm_app; reflexivity.
Qed.

End Walked.

(** The text of a serialization. *)
Lemma SerializeNodeToJSON_render (x : option Node) (o : JSONSerializeOpt) (json : string) :
  SerializeNodeToJSON x o json
    = json ++ render_slot (sdsnew_opt (opt_newlinestr o)) (sdsnew_opt (opt_indentstr o))
                (sdsnew_opt (opt_spacestr o)) 0 x.
Proof.
  unfold SerializeNodeToJSON. fold serializer_callbacks.
  rewrite (slot_render (sdsnew_opt (opt_newlinestr o)) (sdsnew_opt (opt_indentstr o))
             (sdsnew_opt (opt_spacestr o))).
  - reflexivity.
  - destruct x as [n|]; simpl; [|exact I]. intros b Hb. apply walk_render. exact Hb.
  - repeat split; simpl; try lia.
    + destruct (opt_spacestr o); simpl; [apply c_str_idem | reflexivity].
    + destruct (opt_newlinestr o); simpl; [rewrite !c_str_idem|]; reflexivity.
Qed.

(** ** The scan of a text *)

Definition ok_ctx (ns : list (option Node)) : JsonObjectContext :=
  {| err := JSONSL_ERROR_SUCCESS; errpos := O; nodes := ns; fault := false |}.

(** A lexer in the middle of a scan that has met no error. *)
Definition mkE (st : list jsonsl_state_st) (p : nat) (tl ex : ascii) (ci ie : bool)
    (B : string) (ns : list (option Node)) : jsonsl_t :=
  {| stack := st; pos := p; tok_last := tl; expecting := ex; can_insert := ci;
     in_escape := ie; stopfl := false; levels_max := JSONSL_MAX_LEVELS;
     base := B; data := ok_ctx ns |}.

Definition mk (st : list jsonsl_state_st) (p : nat) (tl ex : ascii) (ci : bool)
    (B : string) (ns : list (option Node)) : jsonsl_t :=
  mkE st p tl ex ci false B ns.

Definition run (s : string) (j : jsonsl_t) : jsonsl_t :=
  feed_loop errorCallback pushCallback popCallback s j.

Definition stp (c : ascii) (j : jsonsl_t) : flow :=
  step errorCallback pushCallback popCallback c j.

(** The scan of [text] takes the lexer from [j] to [j'], whatever comes
    after. *)
Definition Steps (text : string) (j j' : jsonsl_t) : Prop :=
  forall rest, run (text ++ rest) j = run rest j'.

(** The bytes that may come after a value. *)
Definition follow (c : ascii) : bool :=
  is_ws_byte c || (c =? ",")%char || (c =? "]")%char || (c =? "}")%char.

Definition follows (s : string) : Prop :=
  match s with
  | String c _ => follow c = true
  | EmptyString => False
  end.

(** The same when the text must be followed by a byte that ends it. *)
Definition StepsF (text : string) (j j' : jsonsl_t) : Prop :=
  forall rest, follows rest -> run (text ++ rest) j = run rest j'.

Lemma Steps_nil (j : jsonsl_t) : Steps "" j j.
Proof. intros rest. reflexivity. Qed.

Lemma Steps_app (a b : string) (j j1 j2 : jsonsl_t) :
  Steps a j j1 -> Steps b j1 j2 -> Steps (a ++ b) j j2.
Proof. intros Ha Hb rest. rewrite append_assoc, Ha, Hb. reflexivity. Qed.

Lemma Steps_char (c : ascii) (j j' : jsonsl_t) :
  stp c j = Next j' -> Steps (String c "") j (set_pos j' (S (pos j'))).
Proof. intros H rest. simpl. unfold run. simpl. fold (stp c j). rewrite H. reflexivity. Qed.

Definition container_type (t : jsonsl_type_t) : bool :=
  match t with
  | JSONSL_T_UNKNOWN | JSONSL_T_OBJECT | JSONSL_T_LIST => true
  | _ => false
  end.

Lemma ws_byte_props (c : ascii) :
  is_ws_byte c = true ->
  is_allowed_whitespace c = true /\ follow c = true.
Proof.
  intros H. split; [apply ws_byte_allowed; exact H|].
  unfold follow. rewrite H. reflexivity.
Qed.

(** Whitespace between tokens is skipped. *)
Lemma Steps_ws (w : string) s r p tl ex ci B ns :
  all_whitespace w = true -> container_type (type s) = true ->
  Steps w (mk (s :: r) p tl ex ci B ns) (mk (s :: r) (p + String.length w) tl ex ci B ns).
Proof.
  revert p. induction w as [|c w IH]; intros p Hw Ht.
  - simpl. rewrite Nat.add_0_r. apply Steps_nil.
  - simpl in Hw. apply andb_true_iff in Hw as [Hc Hw].
    change (String c w) with (String c "" ++ w).
    eapply Steps_app.
    + apply Steps_char. unfold stp, step. cbn [cur_state mk mkE stack hd].
      apply ws_byte_allowed in Hc as [_ Hc]. rewrite Hc.
      destruct (type s); try discriminate Ht; reflexivity.
    + simpl String.length.
      replace (p + S (String.length w))%nat with (S p + String.length w)%nat by lia.
      apply (IH (S p)); assumption.
Qed.

(** ** Where a value stands *)

Inductive parent : Type :=
  | P_root
  | P_array (l : list (option Node)) (ns : list (option Node))
  | P_dict (k : string) (l : list (option Node)) (ns : list (option Node)).

Definition nodes_before (P : parent) : list (option Node) :=
  match P with
  | P_root => []
  | P_array l ns => Some (ArrayNode l) :: ns
  | P_dict k l ns => Some (KeyValNode k None) :: Some (DictNode l) :: ns
  end.

Definition nodes_after (P : parent) (v : option Node) : list (option Node) :=
  match P with
  | P_root => [v]
  | P_array l ns => Some (ArrayNode (l ++ [v])) :: ns
  | P_dict k l ns => Some (DictNode (l ++ [Some (KeyValNode k v)])) :: ns
  end.

Definition has_key (k : string) (l : list (option Node)) : bool :=
  existsb (Object.entry_has_key k) l.

(** The lexer state and the last token that let a value start. *)
Definition ready (P : parent) (s : jsonsl_state_st) (tl : ascii) : Prop :=
  match P with
  | P_root => type s = JSONSL_T_UNKNOWN
  | P_array _ _ => type s = JSONSL_T_LIST
  | P_dict k l _ =>
      type s = JSONSL_T_OBJECT /\ Nat.odd (nelem s) = true /\ tl = ":"%char /\
      has_key k l = false
  end.

Lemma dict_replace_fresh (k : string) (kv : Node) (l : list (option Node)) :
  has_key k l = false -> Object.dict_replace k kv l = None.
Proof.
  induction l as [|e l IH]; simpl; [reflexivity|].
  intros H. apply orb_false_iff in H as [He Hl].
  rewrite He, (IH Hl). reflexivity.
Qed.

Lemma ready_container (P : parent) (s : jsonsl_state_st) (tl : ascii) :
  ready P s tl -> container_type (type s) = true.
Proof. destruct P; simpl; [intros -> | intros -> | intros [-> _]]; reflexivity. Qed.

(** A node pushed on a stack that has room. *)
Lemma pushNode_ok (ns : list (option Node)) (n : option Node) :
  (List.length ns < JSONSL_MAX_LEVELS)%nat ->
  _pushNode (ok_ctx ns) n = ok_ctx (n :: ns).
Proof.
  intros H. unfold _pushNode, nlen. cbn [nodes ok_ctx].
  apply Nat.ltb_lt in H. rewrite H. reflexivity.
Qed.

(** The popped value is set in its parent. *)
Lemma pop_attach_parent (P : parent) (v : option Node) st p tl ex ci ie B
    (state : jsonsl_state_st) (s : jsonsl_state_st) (tl0 : ascii) :
  ready P s tl0 ->
  type state <> JSONSL_T_HKEY ->
  pop_attach (mkE st p tl ex ci ie B (v :: nodes_before P)) state
    = mkE st p tl ex ci ie B (nodes_after P v).
Proof.
  intros Hr Ht. unfold pop_attach.
  destruct P as [|l ns|k l ns]; cbn [nodes_before nodes_after mkE data nodes ok_ctx].
  - destruct (type state); reflexivity.
  - destruct (type state); try congruence; reflexivity.
  - destruct Hr as (_ & _ & _ & Hk).
    destruct (type state); try congruence;
      cbn [node_type]; unfold Object.Node_DictSetKeyVal;
      rewrite (dict_replace_fresh _ _ _ Hk); reflexivity.
Qed.

(** ** Single steps *)

Definition tok_state (t : jsonsl_type_t) (f : Z) (q n : nat) : jsonsl_state_st :=
  {| type := t; special_flags := f; pos_begin := q; pos_cur := O; nelem := O;
     nescapes := n |}.

(** The state of a container that has got one more element. *)
Definition bump (s : jsonsl_state_st) : jsonsl_state_st := with_nelem (S (nelem s)) s.

Lemma STACK_PUSH_mk (st : list jsonsl_state_st) p tl ex ci ie B ns t f
    (k : jsonsl_t -> flow) :
  (List.length st + 1 <= JSONSL_MAX_LEVELS)%nat -> st <> [] ->
  STACK_PUSH errorCallback (mkE st p tl ex ci ie B ns) t f k
    = k (mkE (tok_state t f p 0 :: st) p tl ex ci ie B ns).
Proof.
  intros Hl Hne. unfold STACK_PUSH, level. cbn [levels_max stack mkE pos].
  destruct (Nat.leb_spec (JSONSL_MAX_LEVELS - 1) (List.length st - 1)) as [H|H].
  - destruct st; [congruence|]. cbn [List.length] in *.
    unfold JSONSL_MAX_LEVELS in *. lia.
  - reflexivity.
Qed.

Lemma DO_CALLBACK_push_token (st : list jsonsl_state_st) p tl ex ci ie B ns t f q n
    (k : jsonsl_t -> flow) :
  match t with JSONSL_T_OBJECT | JSONSL_T_LIST => False | _ => True end ->
  DO_CALLBACK pushCallback (mkE (tok_state t f q n :: st) p tl ex ci ie B ns) k
    = k (mkE (tok_state t f q n :: st) p tl ex ci ie B ns).
Proof.
  intros Ht. unfold DO_CALLBACK, pushCallback. cbn [cur_state stack mkE hd type tok_state].
  destruct t; try contradiction; reflexivity.
Qed.

Lemma ready_not_root_string (P : parent) s tl st p ex B ns :
  ready P s tl -> P <> P_root ->
  GT_QUOTE errorCallback pushCallback popCallback (mk (s :: st) p tl ex true B ns)
    = STACK_PUSH errorCallback
        (mkE (bump s :: st) p NUL "," false false B ns) JSONSL_T_STRING 0
        (fun j => DO_CALLBACK pushCallback j Next)
    \/
  GT_QUOTE errorCallback pushCallback popCallback (mk (s :: st) p tl ex true B ns)
    = STACK_PUSH errorCallback
        (mkE (bump s :: st) p tl ex false false B ns) JSONSL_T_STRING 0
        (fun j => DO_CALLBACK pushCallback
                    (set_tokens j NUL "," (can_insert j)) Next).
Proof.
  intros Hr Hn. unfold GT_QUOTE. cbn [cur_state stack set_tokens mk mkE hd].
  destruct P as [|l ns0|k l ns0]; [congruence| |].
  - simpl in Hr. rewrite Hr. right. reflexivity.
  - destruct Hr as (Ht & Ho & Htl & _). rewrite Ht, Ho.
    cbn [incr_nelem map_cur stack tok_last set_stack]. rewrite Htl. left. reflexivity.
Qed.

(** The quotation mark that opens a string value. *)
Lemma step_open_string (P : parent) s tl r p ex B ns :
  ready P s tl -> P <> P_root ->
  (List.length r + 2 <= JSONSL_MAX_LEVELS)%nat ->
  stp DQUOTE (mk (s :: r) p tl ex true B ns)
    = Next (mkE (tok_state JSONSL_T_STRING 0 p 0 :: bump s :: r) p NUL "," false false B ns).
Proof.
  intros Hr Hn Hl.
  assert (Hstep : stp DQUOTE (mk (s :: r) p tl ex true B ns)
            = GT_QUOTE errorCallback pushCallback popCallback (mk (s :: r) p tl ex true B ns)).
  { unfold stp, step. cbn [cur_state stack mk mkE hd].
    pose proof (ready_container P s tl Hr) as Hc.
    destruct (type s); try discriminate Hc; reflexivity. }
  rewrite Hstep.
  destruct (ready_not_root_string P s tl r p ex B ns Hr Hn) as [E|E]; rewrite E.
  - rewrite STACK_PUSH_mk by (simpl; try lia; congruence). cbv beta.
    rewrite DO_CALLBACK_push_token; [reflexivity | exact I].
  - rewrite STACK_PUSH_mk by (simpl; try lia; congruence). cbv beta.
    exact (DO_CALLBACK_push_token (bump s :: r) p NUL "," false false B ns
             JSONSL_T_STRING 0 p 0%nat Next I).
Qed.

(** ** Strings *)

Definition stringy (t : jsonsl_type_t) : bool :=
  match t with
  | JSONSL_T_STRING | JSONSL_T_HKEY => true
  | _ => false
  end.

(** A byte that a string takes as it is. *)
Definition raw (c : ascii) : bool :=
  (32 <=? code c) && negb (c =? DQUOTE)%char && negb (c =? BACKSLASH)%char.

Lemma step_raw (c : ascii) t f q n st p tl ex ci B ns :
  stringy t = true -> raw c = true ->
  stp c (mkE (tok_state t f q n :: st) p tl ex ci false B ns)
    = Next (mkE (tok_state t f q n :: st) p tl ex ci false B ns).
Proof.
  intros Ht Hc. unfold raw in Hc.
  apply andb_true_iff in Hc as [Hc Hb]. apply andb_true_iff in Hc as [Hc Hq].
  apply negb_true_iff in Hb, Hq. apply Z.leb_le in Hc.
  unfold stp, step. cbn [cur_state stack mkE hd type tok_state in_escape].
  rewrite Hb, Hq.
  replace (code c <? 32) with false by (symmetry; apply Z.ltb_ge; lia).
  destruct t; try discriminate Ht; reflexivity.
Qed.

Lemma step_backslash t f q n st p tl ex ci B ns :
  stringy t = true ->
  stp BACKSLASH (mkE (tok_state t f q n :: st) p tl ex ci false B ns)
    = Next (mkE (tok_state t f q (S n) :: st) p tl ex ci true B ns).
Proof. intros Ht. destruct t; try discriminate Ht; reflexivity. Qed.

Lemma step_escaped (c : ascii) t f q n st p tl ex ci B ns :
  stringy t = true -> is_allowed_escape c = true ->
  stp c (mkE (tok_state t f q n :: st) p tl ex ci true B ns)
    = Next (mkE (tok_state t f q n :: st) p tl ex ci false B ns).
Proof.
  intros Ht Hc. unfold stp, step. cbn [cur_state stack mkE hd type tok_state in_escape].
  rewrite Hc. destruct t; try discriminate Ht; reflexivity.
Qed.

(** The three forms of the text of a byte. *)
Inductive escape_form (x : ascii) : Prop :=
  | form_raw : escape_char x = String x "" -> raw x = true -> escape_form x
  | form_letter (l : ascii) :
      escape_char x = String BACKSLASH (String l "") ->
      is_allowed_escape l = true -> escape_form x
  | form_unicode (h1 h2 : ascii) :
      escape_char x = String BACKSLASH (String "u" (String "0" (String "0"
                        (String h1 (String h2 ""))))) ->
      raw h1 = true -> raw h2 = true -> escape_form x.

Definition escape_form_b (x : ascii) : bool :=
  match escape_char x with
  | String c "" => (c =? x)%char && raw x
  | String b (String l "") => (b =? BACKSLASH)%char && is_allowed_escape l
  | String b (String u (String z1 (String z2 (String h1 (String h2 ""))))) =>
      (b =? BACKSLASH)%char && (u =? "u")%char && (z1 =? "0")%char && (z2 =? "0")%char
      && raw h1 && raw h2
  | _ => false
  end.

Lemma escape_form_all (x : ascii) : escape_form_b x = true.
Proof. destruct x as [[] [] [] [] [] [] [] []]; vm_compute; reflexivity. Qed.

Lemma escape_char_form (x : ascii) : escape_form x.
Proof.
  pose proof (escape_form_all x) as H. unfold escape_form_b in H.
  destruct (escape_char x) as [|c1 [|c2 [|c3 [|c4 [|c5 [|c6 [|c7 t]]]]]]] eqn:E;
    try discriminate H.
  - apply andb_true_iff in H as [H1 H2]. apply Ascii.eqb_eq in H1. subst c1.
    apply form_raw; [exact E | exact H2].
  - apply andb_true_iff in H as [H1 H2]. apply Ascii.eqb_eq in H1. subst c1.
    eapply form_letter; [exact E | exact H2].
  - apply andb_true_iff in H as [H Hh2]. apply andb_true_iff in H as [H Hh1].
    apply andb_true_iff in H as [H Hz2]. apply andb_true_iff in H as [H Hz1].
    apply andb_true_iff in H as [Hb Hu].
    apply Ascii.eqb_eq in Hb, Hu, Hz1, Hz2. subst c1 c2 c3 c4.
    eapply form_unicode; [exact E | assumption | assumption].
Qed.

(** The backslashes in the text of a string. *)
Definition escaped (x : ascii) : nat :=
  if String.eqb (escape_char x) (String x "") then 0%nat else 1%nat.

Fixpoint escapes (s : string) : nat :=
  match s with
  | EmptyString => 0%nat
  | String x s' => (escaped x + escapes s')%nat
  end.

Lemma escaped_raw (x : ascii) : escape_char x = String x "" -> escaped x = 0%nat.
Proof. intros H. unfold escaped. rewrite H, String.eqb_refl. reflexivity. Qed.

Lemma escaped_backslash (x : ascii) (s : string) :
  escape_char x = String BACKSLASH s -> s <> "" -> escaped x = 1%nat.
Proof.
  intros H Hs. unfold escaped. rewrite H.
  destruct (String.eqb_spec (String BACKSLASH s) (String x "")) as [E|E]; [|reflexivity].
  injection E as _ E. contradiction.
Qed.

Lemma Steps_cons (c : ascii) (t : string) (j j1 j2 : jsonsl_t) :
  stp c j = Next j1 -> Steps t (set_pos j1 (S (pos j1))) j2 -> Steps (String c t) j j2.
Proof.
  intros H1 H2. change (String c t) with (String c "" ++ t).
  eapply Steps_app; [apply Steps_char; exact H1 | exact H2].
Qed.

(** The text of one byte, inside a string. *)
Lemma Steps_escape_char (x : ascii) t f q n st p tl ex ci B ns :
  stringy t = true ->
  Steps (escape_char x)
    (mkE (tok_state t f q n :: st) p tl ex ci false B ns)
    (mkE (tok_state t f q (n + escaped x) :: st) (p + String.length (escape_char x))
       tl ex ci false B ns).
Proof.
  intros Ht. destruct (escape_char_form x) as [E Hr | l E Hl | h1 h2 E H1 H2].
  - rewrite (escaped_raw x E), E, Nat.add_0_r. cbn [String.length].
    eapply Steps_cons; [apply step_raw; assumption|].
    cbn [set_pos pos mkE stack tok_last expecting can_insert in_escape stopfl levels_max base data].
    replace (p + 1)%nat with (S p) by lia. apply Steps_nil.
  - rewrite (escaped_backslash x _ E) by discriminate. rewrite E. cbn [String.length].
    eapply Steps_cons; [apply step_backslash; assumption|].
    eapply Steps_cons; [apply step_escaped; assumption|].
    cbn [set_pos pos mkE stack tok_last expecting can_insert in_escape stopfl levels_max base data].
    replace (p + 2)%nat with (S (S p)) by lia. replace (n + 1)%nat with (S n) by lia.
    apply Steps_nil.
  - rewrite (escaped_backslash x _ E) by discriminate. rewrite E. cbn [String.length].
    eapply Steps_cons; [apply step_backslash; assumption|].
    eapply Steps_cons; [apply step_escaped; [assumption|reflexivity]|].
    eapply Steps_cons; [apply step_raw; [assumption|reflexivity]|].
    eapply Steps_cons; [apply step_raw; [assumption|reflexivity]|].
    eapply Steps_cons; [apply step_raw; assumption|].
    eapply Steps_cons; [apply step_raw; assumption|].
    cbn [set_pos pos mkE stack tok_last expecting can_insert in_escape stopfl levels_max base data].
    replace (p + 6)%nat with (S (S (S (S (S (S p)))))) by lia.
    replace (n + 1)%nat with (S n) by lia.
    apply Steps_nil.
Qed.

Lemma Steps_escape_string (s : string) t f q st tl ex ci B ns :
  stringy t = true ->
  forall n p,
    Steps (escape_string s)
      (mkE (tok_state t f q n :: st) p tl ex ci false B ns)
      (mkE (tok_state t f q (n + escapes s) :: st) (p + String.length (escape_string s))
         tl ex ci false B ns).
Proof.
  intros Ht. induction s as [|x s IH]; intros n p.
  - simpl. rewrite !Nat.add_0_r. apply Steps_nil.
  - cbn [escape_string escapes].
    eapply Steps_app; [apply Steps_escape_char; exact Ht|].
    rewrite append_length.
    replace (n + (escaped x + escapes s))%nat with (n + escaped x + escapes s)%nat by lia.
    replace (p + (String.length (escape_char x) + String.length (escape_string s)))%nat
      with (p + String.length (escape_char x) + String.length (escape_string s))%nat by lia.
    apply IH.
Qed.

Definition safe_byte (c : ascii) : bool := (1 <=? code c) && (code c <=? 127).

Fixpoint safe_string (s : string) : bool :=
  match s with
  | EmptyString => true
  | String c s' => safe_byte c && safe_string s'
  end.

Lemma unescape_escape_char (x : ascii) (s : string) :
  safe_byte x = true ->
  unescape _AllowedEscapes (escape_char x ++ s)
    = match unescape _AllowedEscapes s with
      | inr r => inr (String x r)
      | inl e => inl e
      end.
Proof.
  destruct x as [[] [] [] [] [] [] [] []]; intros H; try discriminate H; reflexivity.
Qed.

Lemma unescape_escape_string (s : string) :
  safe_string s = true -> unescape _AllowedEscapes (escape_string s) = inr s.
Proof.
  induction s as [|x s IH]; intros H; [reflexivity|].
  simpl in H. apply andb_true_iff in H as [Hx Hs].
  cbn [escape_string]. rewrite unescape_escape_char by exact Hx.
  rewrite (IH Hs). reflexivity.
Qed.

Lemma escapes_none (s : string) : escapes s = 0%nat -> escape_string s = s.
Proof.
  induction s as [|x s IH]; intros H; [reflexivity|].
  cbn [escapes] in H. cbn [escape_string].
  assert (Hx : escaped x = 0%nat) by lia.
  unfold escaped in Hx.
  destruct (String.eqb_spec (escape_char x) (String x "")) as [E|E]; [|discriminate Hx].
  rewrite E, IH by lia. reflexivity.
Qed.

Lemma escapes_nonempty (s : string) : escapes s <> 0%nat -> s <> "".
Proof. intros H E. subst s. apply H. reflexivity. Qed.

Lemma substring_0_app (a b : string) : substring 0 (String.length a) (a ++ b) = a.
Proof.
  induction a as [|c a IH]; simpl.
  - destruct b; reflexivity.
  - rewrite IH. reflexivity.
Qed.

Lemma substring_drop (n m : nat) (s : string) :
  substring n m s = substring 0 m (drop n s).
Proof.
  revert s. induction n as [|n IH]; intros s; [reflexivity|].
  destruct s as [|c s]; simpl.
  - destruct m; reflexivity.
  - apply IH.
Qed.

Lemma drop_S (n : nat) (s : string) (c : ascii) (t : string) :
  drop n s = String c t -> drop (S n) s = t.
Proof.
  revert s. induction n as [|n IH]; intros s H.
  - simpl in H. subst s. reflexivity.
  - destruct s as [|c' s]; [discriminate H|]. simpl in *. apply IH. exact H.
Qed.

(** The token between the quotation marks. *)
Lemma token_between (B : string) (q : nat) (t restB : string) :
  drop q B = String DQUOTE (t ++ String DQUOTE restB) ->
  substring (S q) (String.length t) B = t.
Proof.
  intros H. rewrite substring_drop, (drop_S _ _ _ _ H). apply substring_0_app.
Qed.

(** [popCallback] for a string value. *)
Lemma popCallback_string (P : parent) (s0 : jsonsl_state_st) (tl0 : ascii)
    (txt : string) st p tl ex ci ie B (q n : nat) (restB : string) fl pc0 ne0 :
  ready P s0 tl0 ->
  safe_string txt = true ->
  drop q B = String DQUOTE (escape_string txt ++ String DQUOTE restB) ->
  p = (q + 1 + String.length (escape_string txt))%nat ->
  (List.length (nodes_before P) < JSONSL_MAX_LEVELS)%nat ->
  n = escapes txt ->
  popCallback (mkE st pc0 tl ex ci ie B (nodes_before P))
    {| type := JSONSL_T_STRING; special_flags := fl; pos_begin := q; pos_cur := p;
       nelem := ne0; nescapes := n |}
  = mkE st pc0 tl ex ci ie B (nodes_after P (Some (StringNode txt))).
Proof.
  intros Hr Hsafe HB Hp Hcap Hn.
  unfold popCallback, pop_string.
  cbn [type pos_begin pos_cur nescapes base mkE data].
  replace (p - q - 1)%nat with (String.length (escape_string txt)) by lia.
  rewrite (token_between B q _ restB HB).
  assert (Hpush : forall text, text = txt ->
            set_data (mkE st pc0 tl ex ci ie B (nodes_before P))
              (_pushNode (ok_ctx (nodes_before P)) (Some (Object.NewStringNode text)))
            = mkE st pc0 tl ex ci ie B (Some (StringNode txt) :: nodes_before P)).
  { intros text ->. rewrite pushNode_ok by exact Hcap. reflexivity. }
  assert (Hrest : forall j, j = mkE st pc0 tl ex ci ie B (Some (StringNode txt) :: nodes_before P) ->
            match pop_special j {| type := JSONSL_T_STRING; special_flags := fl;
                                   pos_begin := q; pos_cur := p; nelem := ne0;
                                   nescapes := n |} with
            | inl jsn' => jsn'
            | inr jsn2 => pop_attach jsn2 {| type := JSONSL_T_STRING; special_flags := fl;
                                   pos_begin := q; pos_cur := p; nelem := ne0;
                                   nescapes := n |}
            end = mkE st pc0 tl ex ci ie B (nodes_after P (Some (StringNode txt)))).
  { intros j ->. unfold pop_special. cbn [type].
    apply (pop_attach_parent P _ st pc0 tl ex ci ie B _ s0 tl0 Hr). discriminate. }
  destruct (n =? 0)%nat eqn:En; cbn [negb].
  - apply Nat.eqb_eq in En. rewrite En in Hn.
    rewrite escapes_none by (symmetry; exact Hn).
    apply Hrest. apply Hpush. reflexivity.
  - unfold jsonsl_util_unescape. rewrite unescape_escape_string by exact Hsafe.
    apply Nat.eqb_neq in En.
    assert (Hd : txt <> "") by (apply escapes_nonempty; congruence).
    destruct txt as [|c d]; [congruence|]. cbn [String.length Nat.eqb].
    apply Hrest. apply Hpush. reflexivity.
Qed.

(** The quotation mark that closes a string value. *)
Lemma step_close_string (P : parent) (s0 : jsonsl_state_st) (tl0 : ascii)
    (txt : string) s' r p tl ex ci B (q : nat) (restB : string) :
  ready P s0 tl0 ->
  safe_string txt = true ->
  drop q B = String DQUOTE (escape_string txt ++ String DQUOTE restB) ->
  p = (q + 1 + String.length (escape_string txt))%nat ->
  (List.length (nodes_before P) < JSONSL_MAX_LEVELS)%nat ->
  stp DQUOTE (mkE (tok_state JSONSL_T_STRING 0 q (escapes txt) :: s' :: r) p tl ex ci false B
                (nodes_before P))
  = Next (mk (with_pos_cur p s' :: r) p tl ex false B
            (nodes_after P (Some (StringNode txt)))).
Proof.
  intros Hr Hsafe HB Hp Hcap.
  unfold stp, step. cbn [cur_state stack mkE hd type tok_state in_escape].
  replace (DQUOTE =? DQUOTE)%char with true by reflexivity.
  unfold GT_QUOTE.
  cbn [cur_state stack mkE hd type tok_state set_tokens tok_last expecting pos
       in_escape stopfl levels_max base data].
  unfold CALLBACK_AND_POP, DO_CALLBACK.
  cbn [map_cur stack set_stack pos tok_last expecting can_insert in_escape stopfl
       levels_max base data cur_state hd with_pos_cur type special_flags pos_begin
       nelem nescapes tok_state].
  match goal with
  | |- context [popCallback ?j ?st] =>
      change j with (mkE (st :: s' :: r) p tl ex false false B (nodes_before P))
  end.
  rewrite (popCallback_string P s0 tl0 txt _ p tl ex false false B q (escapes txt) restB
             0 p 0%nat Hr Hsafe HB Hp Hcap eq_refl).
  reflexivity.
Qed.

Lemma Steps_nil_eq (j j' : jsonsl_t) : j = j' -> Steps "" j j'.
Proof. intros ->. apply Steps_nil. Qed.

Ltac same_state :=
  apply Steps_nil_eq;
  unfold mk, mkE, set_pos, with_pos_cur, bump, with_nelem;
  cbn [pos stack tok_last expecting can_insert in_escape stopfl levels_max base data
       type special_flags pos_begin pos_cur nelem nescapes String.length];
  rewrite ?append_length; cbn [String.length];
  repeat (f_equal; try lia).

(** A string value, from the quotation mark that opens it to the one that
    closes it. *)
Lemma string_value (P : parent) s tl r p ex B (txt restB : string) :
  ready P s tl -> P <> P_root ->
  safe_string txt = true ->
  drop p B = quoted (escape_string txt) ++ restB ->
  (List.length r + 2 <= JSONSL_MAX_LEVELS)%nat ->
  (List.length (nodes_before P) < JSONSL_MAX_LEVELS)%nat ->
  Steps (quoted (escape_string txt))
    (mk (s :: r) p tl ex true B (nodes_before P))
    (mk (with_pos_cur (p + 1 + String.length (escape_string txt)) (bump s) :: r)
        (p + String.length (quoted (escape_string txt))) NUL "," false B
        (nodes_after P (Some (StringNode txt)))).
Proof.
  intros Hr Hn Hsafe HB Hlev Hcap.
  unfold quoted in *. cbn [append] in HB. rewrite append_assoc in HB. cbn [append] in HB.
  eapply Steps_cons; [apply (step_open_string P); eassumption|].
  cbn [set_pos pos mkE stack tok_last expecting can_insert in_escape stopfl levels_max base data].
  eapply Steps_app.
  { apply (Steps_escape_string txt JSONSL_T_STRING 0 p). reflexivity. }
  eapply Steps_cons.
  { cbn [Nat.add]. apply (step_close_string P s tl txt (bump s) r _ NUL "," false B p restB);
      try assumption. lia. }
  same_state.
Qed.

(** ** Literals and numbers *)

Definition starts_special (c : ascii) (f : Z) : Prop :=
  extract_special c = f /\ f <> 0 /\ is_allowed_whitespace c = false.

(** The first byte of a literal or a number. *)
Lemma step_special_begin (P : parent) s tl r p ex B ns (c : ascii) (f : Z) :
  ready P s tl -> starts_special c f ->
  (List.length r + 2 <= JSONSL_MAX_LEVELS)%nat ->
  stp c (mk (s :: r) p tl ex true B ns)
    = Next (mk (tok_state JSONSL_T_SPECIAL f p 0 :: bump s :: r) p tl ex true B ns).
Proof.
  intros Hr (Hf & Hf0 & Hw) Hlev.
  assert (Hfb : (extract_special c =? 0) = false) by (apply Z.eqb_neq; congruence).
  assert (Hbegin : GT_SPECIAL_BEGIN errorCallback pushCallback c (mk (s :: r) p tl ex true B ns)
            = Next (mk (tok_state JSONSL_T_SPECIAL f p 0 :: bump s :: r) p tl ex true B ns)).
  { unfold GT_SPECIAL_BEGIN. cbv zeta. rewrite Hfb.
    assert (He : forall k, ENSURE_HVAL errorCallback (mk (s :: r) p tl ex true B ns) k
                   = k (mk (s :: r) p tl ex true B ns)).
    { intros k. unfold ENSURE_HVAL. cbn [cur_state stack mk mkE hd].
      destruct P as [|l0 ns0|k0 l0 ns0]; simpl in Hr.
      - rewrite Hr. reflexivity.
      - rewrite Hr. reflexivity.
      - destruct Hr as (Ht & Ho & _). rewrite Ht.
        rewrite <- Nat.negb_odd, Ho. reflexivity. }
    rewrite He.
    cbn [incr_nelem map_cur stack mk mkE set_stack pos tok_last expecting can_insert
         in_escape stopfl levels_max base data].
    change (with_nelem (S (nelem s)) s) with (bump s).
    match goal with
    | |- STACK_PUSH _ ?j _ _ _ = _ =>
        change j with (mkE (bump s :: r) p tl ex true false B ns)
    end.
    rewrite STACK_PUSH_mk by (simpl; try lia; congruence). cbv beta.
    rewrite Hf.
    exact (DO_CALLBACK_push_token (bump s :: r) p tl ex true false B ns
             JSONSL_T_SPECIAL f p 0%nat Next I). }
  unfold stp, step. cbn [cur_state stack mk mkE hd]. rewrite Hw, Hfb. cbn [negb].
  pose proof (ready_container P s tl Hr) as Hc.
  destruct (type s); try discriminate Hc; exact Hbegin.
Qed.

Lemma step_digit (c : ascii) f q st p tl ex ci B ns :
  has_flag f JSONSL_SPECIALf_NUMERIC = true -> Libc.isdigit c = true ->
  stp c (mk (tok_state JSONSL_T_SPECIAL f q 0 :: st) p tl ex ci B ns)
    = Next (mk (tok_state JSONSL_T_SPECIAL f q 0 :: st) p tl ex ci B ns).
Proof.
  intros Hf Hc. unfold stp, step.
  cbn [cur_state stack mk mkE hd type tok_state special_flags]. rewrite Hf, Hc. reflexivity.
Qed.

Fixpoint all_digits (s : string) : bool :=
  match s with
  | EmptyString => true
  | String c s' => Libc.isdigit c && all_digits s'
  end.

Lemma Steps_digits (ds : string) f q st tl ex ci B ns :
  has_flag f JSONSL_SPECIALf_NUMERIC = true -> all_digits ds = true ->
  forall p,
    Steps ds (mk (tok_state JSONSL_T_SPECIAL f q 0 :: st) p tl ex ci B ns)
             (mk (tok_state JSONSL_T_SPECIAL f q 0 :: st) (p + String.length ds) tl ex ci B ns).
Proof.
  intros Hf. induction ds as [|c ds IH]; intros Hd p.
  - same_state.
  - simpl in Hd. apply andb_true_iff in Hd as [Hc Hd].
    eapply Steps_cons; [apply step_digit; assumption|].
    cbn [String.length].
    replace (p + S (String.length ds))%nat with (S p + String.length ds)%nat by lia.
    apply (IH Hd (S p)).
Qed.

Lemma get_drop (k : nat) (s : string) (c : ascii) (t : string) :
  drop k s = String c t -> String.get k s = Some c.
Proof.
  revert s. induction k as [|k IH]; intros s H.
  - simpl in H. subst s. reflexivity.
  - destruct s as [|c' s]; [discriminate H|]. simpl in *. apply IH. exact H.
Qed.

Fixpoint no_special_end (s : string) : bool :=
  match s with
  | EmptyString => true
  | String c s' => negb (is_special_end c) && no_special_end s'
  end.

(** The bytes of a literal after the first one. *)
Lemma Steps_literal (lit : string) f q st tl ex ci B ns :
  has_flag f JSONSL_SPECIALf_NUMERIC = false -> special_literal f = Some lit ->
  forall (t : string) (k : nat),
    drop k lit = t -> no_special_end t = true ->
    Steps t (mk (tok_state JSONSL_T_SPECIAL f q 0 :: st) (q + k) tl ex ci B ns)
            (mk (tok_state JSONSL_T_SPECIAL f q 0 :: st) (q + k + String.length t) tl ex ci B ns).
Proof.
  intros Hf Hl. induction t as [|c t IH]; intros k Hk Hn.
  - same_state.
  - simpl in Hn. apply andb_true_iff in Hn as [Hc Hn]. apply negb_true_iff in Hc.
    eapply Steps_cons.
    + unfold stp, step.
      cbn [cur_state stack mk mkE hd type tok_state special_flags pos pos_begin].
      rewrite Hf, Hc, Hl. replace (q + k - q)%nat with k by lia.
      rewrite (get_drop _ _ _ _ Hk), Ascii.eqb_refl. reflexivity.
    + cbn [String.length].
      replace (q + k + S (String.length t))%nat with (q + S k + String.length t)%nat by lia.
      replace (set_pos (mk (tok_state JSONSL_T_SPECIAL f q 0 :: st) (q + k) tl ex ci B ns)
                 (S (pos (mk (tok_state JSONSL_T_SPECIAL f q 0 :: st) (q + k) tl ex ci B ns))))
        with (mk (tok_state JSONSL_T_SPECIAL f q 0 :: st) (q + S k) tl ex ci B ns)
        by (unfold mk, mkE, set_pos; cbn [pos]; repeat (f_equal; try lia)).
      apply IH; [|exact Hn]. apply (drop_S _ _ _ _ Hk).
Qed.

Lemma follow_props (c : ascii) :
  follow c = true ->
  Libc.isdigit c = false /\
  ((c =? "e")%char || (c =? "E")%char || (c =? "-")%char || (c =? "+")%char) = false /\
  (c =? ".")%char = false /\
  is_special_end c = true /\
  (extract_special c =? 0) = true /\
  (c =? DQUOTE)%char = false /\
  (c =? BACKSLASH)%char = false.
Proof.
  destruct c as [[] [] [] [] [] [] [] []]; intros H; try discriminate H;
    vm_compute; repeat split.
Qed.

(** The byte after a literal or a number ends it, and is then read as it
    would be after any other value. *)
Lemma step_special_end (c : ascii) f q s' r p tl ex ci B nb na :
  container_type (type s') = true -> follow c = true ->
  match special_literal f with
  | Some lit => (p - q)%nat = String.length lit
  | None => True
  end ->
  popCallback
    (mk ({| type := JSONSL_T_SPECIAL; special_flags := f; pos_begin := q; pos_cur := p;
            nelem := 0; nescapes := 0 |} :: s' :: r) p tl ex false B nb)
    {| type := JSONSL_T_SPECIAL; special_flags := f; pos_begin := q; pos_cur := p;
       nelem := 0; nescapes := 0 |}
  = mk ({| type := JSONSL_T_SPECIAL; special_flags := f; pos_begin := q; pos_cur := p;
           nelem := 0; nescapes := 0 |} :: s' :: r) p tl ex false B na ->
  stp c (mk (tok_state JSONSL_T_SPECIAL f q 0 :: s' :: r) p tl ex ci B nb)
    = stp c (mk (with_pos_cur p s' :: r) p NUL "," false B na).
Proof.
  intros Hc Hf Hlit Hpop.
  destruct (follow_props c Hf) as (Hd & He & Hdot & Hend & Hx & Hq & Hb).
  assert (Hpopped :
    GT_SPECIAL_POP errorCallback pushCallback popCallback c
      (mk (tok_state JSONSL_T_SPECIAL f q 0 :: s' :: r) p tl ex ci B nb)
    = (if is_allowed_whitespace c then Next (mk (with_pos_cur p s' :: r) p NUL "," false B na)
       else GT_STRUCTURAL_TOKEN errorCallback pushCallback popCallback c
              (mk (with_pos_cur p s' :: r) p NUL "," false B na))).
  { unfold GT_SPECIAL_POP. cbv zeta.
    cbn [cur_state stack mk mkE hd type tok_state special_flags pos pos_begin set_tokens
         tok_last expecting can_insert in_escape stopfl levels_max base data].
    assert (Hcomp : match special_literal f with
                    | Some lit => (p - q =? String.length lit)%nat
                    | None => true
                    end = true).
    { destruct (special_literal f); [apply Nat.eqb_eq; exact Hlit | reflexivity]. }
    rewrite Hcomp.
    unfold CALLBACK_AND_POP, DO_CALLBACK.
    cbn [map_cur stack set_stack pos tok_last expecting can_insert in_escape stopfl
         levels_max base data cur_state hd with_pos_cur type special_flags pos_begin
         nelem nescapes tok_state mk mkE set_tokens].
    match goal with
    | |- context [popCallback ?j ?st] =>
        replace (popCallback j st)
          with (mk (st :: s' :: r) p tl ex false B na) by (symmetry; exact Hpop)
    end.
    reflexivity. }
  assert (Hleft : stp c (mk (tok_state JSONSL_T_SPECIAL f q 0 :: s' :: r) p tl ex ci B nb)
            = GT_SPECIAL_POP errorCallback pushCallback popCallback c
                (mk (tok_state JSONSL_T_SPECIAL f q 0 :: s' :: r) p tl ex ci B nb)).
  { unfold stp, step.
    cbn [cur_state stack mk mkE hd type tok_state special_flags].
    rewrite Hd, He, Hdot, Hend.
    destruct (has_flag f JSONSL_SPECIALf_NUMERIC); reflexivity. }
  rewrite Hleft, Hpopped.
  unfold stp, step. cbn [cur_state stack mk mkE hd type with_pos_cur].
  rewrite Hx, Hq, Hb. cbn [negb].
  destruct (type s'); try discriminate Hc; reflexivity.
Qed.

(** From the steps of the bytes of a literal or a number to the steps of a
    value; the flags of a number may change on the way. *)
Lemma special_value (text : string) (c0 : ascii) (t0 : string) f g s r p tl ex B nb na :
  text = String c0 t0 ->
  container_type (type s) = true ->
  stp c0 (mk (s :: r) p tl ex true B nb)
    = Next (mk (tok_state JSONSL_T_SPECIAL f p 0 :: bump s :: r) p tl ex true B nb) ->
  Steps t0 (mk (tok_state JSONSL_T_SPECIAL f p 0 :: bump s :: r) (S p) tl ex true B nb)
           (mk (tok_state JSONSL_T_SPECIAL g p 0 :: bump s :: r) (p + String.length text)
               tl ex true B nb) ->
  match special_literal g with
  | Some lit => String.length text = String.length lit
  | None => True
  end ->
  popCallback
    (mk ({| type := JSONSL_T_SPECIAL; special_flags := g; pos_begin := p;
            pos_cur := (p + String.length text)%nat; nelem := 0; nescapes := 0 |}
           :: bump s :: r) (p + String.length text) tl ex false B nb)
    {| type := JSONSL_T_SPECIAL; special_flags := g; pos_begin := p;
       pos_cur := (p + String.length text)%nat; nelem := 0; nescapes := 0 |}
  = mk ({| type := JSONSL_T_SPECIAL; special_flags := g; pos_begin := p;
           pos_cur := (p + String.length text)%nat; nelem := 0; nescapes := 0 |}
          :: bump s :: r) (p + String.length text) tl ex false B na ->
  StepsF text (mk (s :: r) p tl ex true B nb)
    (mk (with_pos_cur (p + String.length text) (bump s) :: r) (p + String.length text)
        NUL "," false B na).
Proof.
  intros -> Hc Hfirst Hmid Hlit Hpop rest Hfol.
  destruct rest as [|c rest]; [destruct Hfol|]. simpl in Hfol.
  assert (Hsteps : Steps (String c0 t0) (mk (s :: r) p tl ex true B nb)
            (mk (tok_state JSONSL_T_SPECIAL g p 0 :: bump s :: r)
                (p + String.length (String c0 t0)) tl ex true B nb)).
  { eapply Steps_cons; [exact Hfirst | exact Hmid]. }
  rewrite Hsteps.
  unfold run. cbn [feed_loop].
  fold (stp c (mk (tok_state JSONSL_T_SPECIAL g p 0 :: bump s :: r)
                 (p + String.length (String c0 t0)) tl ex true B nb)).
  fold (stp c (mk (with_pos_cur (p + String.length (String c0 t0)) (bump s) :: r)
                 (p + String.length (String c0 t0)) NUL "," false B na)).
  rewrite (step_special_end c g p (bump s) r _ tl ex true B nb na); try assumption.
  - reflexivity.
  - destruct (special_literal g); [|exact I]. rewrite <- Hlit. lia.
Qed.

(** ** Decimal numbers *)

Definition digit_char (d : Z) : ascii := ascii_of_N (Z.to_N (48 + d)).

Lemma code_digit_char (d : Z) : 0 <= d < 10 -> code (digit_char d) = 48 + d.
Proof.
  intros H. unfold code, digit_char.
  rewrite N_ascii_embedding by lia. lia.
Qed.

Lemma isdigit_digit_char (d : Z) : 0 <= d < 10 -> Libc.isdigit (digit_char d) = true.
Proof.
  intros H. unfold Libc.isdigit. rewrite (code_digit_char d H).
  apply andb_true_iff. split; apply Z.leb_le; lia.
Qed.

Lemma digit_val_digit_char (d : Z) : 0 <= d < 10 -> Libc.digit_val (digit_char d) = d.
Proof. intros H. unfold Libc.digit_val. rewrite (code_digit_char d H). lia. Qed.

Lemma string_of_list_app (a b : list ascii) :
  string_of_list_ascii (a ++ b) = string_of_list_ascii a ++ string_of_list_ascii b.
Proof. induction a as [|c a IH]; simpl; [reflexivity|]. rewrite IH. reflexivity. Qed.

Lemma digits_value_app (s t : string) (acc : Z) :
  Libc.digits_value acc (s ++ t) = Libc.digits_value (Libc.digits_value acc s) t.
Proof. revert acc. induction s as [|c s IH]; intros acc; simpl; [reflexivity|]. apply IH. Qed.

Lemma all_digits_app (s t : string) :
  all_digits (s ++ t) = all_digits s && all_digits t.
Proof.
  induction s as [|c s IH]; simpl; [reflexivity|]. rewrite IH, andb_assoc. reflexivity.
Qed.

(** The digits that [dec_rev] yields, in reading order. *)
Definition dec_text (fuel : nat) (v : Z) : string :=
  string_of_list_ascii (rev (Libc.dec_rev fuel v)).

Lemma dec_text_spec (fuel : nat) :
  forall v, 0 <= v < 2 ^ Z.of_nat fuel -> (0 < fuel)%nat ->
    all_digits (dec_text fuel v) = true /\
    dec_text fuel v <> "" /\
    Libc.digits_value 0 (dec_text fuel v) = v.
Proof.
  induction fuel as [|fuel IH]; intros v Hv Hf; [lia|].
  unfold dec_text. cbn [Libc.dec_rev]. fold (digit_char (v mod 10)).
  assert (Hd : 0 <= v mod 10 < 10) by (apply Z.mod_pos_bound; lia).
  destruct (v / 10 =? 0) eqn:E.
  - apply Z.eqb_eq in E. simpl.
    rewrite isdigit_digit_char, digit_val_digit_char by exact Hd.
    repeat split; [discriminate|].
    pose proof (Z.div_mod v 10). lia.
  - apply Z.eqb_neq in E.
    assert (Hq : 0 < v / 10) by (pose proof (Z.div_pos v 10); lia).
    assert (Hv10 : 10 <= v).
    { destruct (Z_lt_le_dec v 10) as [Hlt|]; [|assumption].
      rewrite Z.div_small in E by lia. congruence. }
    assert (Hfuel : (0 < fuel)%nat).
    { destruct fuel; [|lia]. simpl in Hv. lia. }
    assert (Hb : 0 <= v / 10 < 2 ^ Z.of_nat fuel).
    { split; [lia|].
      apply Z.div_lt_upper_bound; [lia|].
      rewrite Nat2Z.inj_succ, Z.pow_succ_r in Hv by lia. lia. }
    destruct (IH (v / 10) Hb Hfuel) as (H1 & H2 & H3).
    unfold dec_text in *. cbn [rev]. rewrite string_of_list_app. cbn [string_of_list_ascii].
    rewrite all_digits_app, digits_value_app, H1, H3. cbn [all_digits Libc.digits_value].
    rewrite isdigit_digit_char, digit_val_digit_char by exact Hd.
    repeat split.
    + destruct (string_of_list_ascii (rev (Libc.dec_rev fuel (v / 10)))); discriminate.
    + pose proof (Z.div_mod v 10). lia.
Qed.

Lemma dec_unsigned_spec (v : Z) :
  0 <= v ->
  all_digits (Libc.dec_unsigned v) = true /\
  Libc.dec_unsigned v <> "" /\
  Libc.digits_value 0 (Libc.dec_unsigned v) = v.
Proof.
  intros Hv. unfold Libc.dec_unsigned.
  apply (dec_text_spec (S (Z.to_nat (Z.log2 v))) v); [|lia].
  split; [exact Hv|].
  rewrite Nat2Z.inj_succ, Z2Nat.id by apply Z.log2_nonneg.
  destruct (Z.eq_dec v 0) as [->|Hn]; [simpl; lia|].
  apply Z.log2_spec. lia.
Qed.

(** What may come after the digits of a number. *)
Definition ends_number (rest : string) : Prop :=
  match rest with
  | String c _ => Libc.isdigit c = false
  | EmptyString => True
  end.

Lemma span_digits_app (ds rest : string) :
  all_digits ds = true -> ends_number rest ->
  Libc.span_digits (ds ++ rest) = (ds, rest).
Proof.
  intros Hd Hr. induction ds as [|c ds IH]; cbn [append all_digits Libc.span_digits] in *.
  - destruct rest as [|c rest]; [reflexivity|].
    cbn [ends_number Libc.span_digits] in *. rewrite Hr. reflexivity.
  - apply andb_true_iff in Hd as [Hc Hd]. rewrite Hc, (IH Hd). reflexivity.
Qed.

Lemma isdigit_not_space (c : ascii) : Libc.isdigit c = true -> Libc.isspace c = false.
Proof.
  unfold Libc.isdigit, Libc.isspace. intros H.
  apply andb_true_iff in H as [H1 H2]. apply Z.leb_le in H1, H2.
  apply orb_false_iff. split; [apply Z.eqb_neq; lia|].
  apply andb_false_iff. right. apply Z.leb_gt. lia.
Qed.

Lemma isdigit_not_sign (c : ascii) (s : string) :
  Libc.isdigit c = true -> Libc.take_sign (String c s) = (false, O, String c s).
Proof.
  intros H. unfold Libc.take_sign.
  destruct c as [[] [] [] [] [] [] [] []]; try reflexivity; discriminate H.
Qed.

(** [strtoll] reads back what [dec_signed] wrote. *)
Lemma strtoll_dec_signed (i : Z) (rest : string) :
  Libc.LLONG_MIN <= i <= Libc.LLONG_MAX -> ends_number rest ->
  Libc.strtoll (Libc.dec_signed i ++ rest)
    = {| Libc.ll_value := i; Libc.ll_end := String.length (Libc.dec_signed i);
         Libc.ll_errno := 0 |}.
Proof.
  intros Hi Hr. unfold Libc.dec_signed.
  destruct (i <? 0) eqn:Eneg.
  - apply Z.ltb_lt in Eneg.
    destruct (dec_unsigned_spec (- i)) as (Hd & Hne & Hv); [lia|].
    unfold Libc.strtoll. cbn [append Libc.skip_space].
    replace (Libc.isspace "-") with false by reflexivity.
    cbn [Libc.take_sign]. rewrite span_digits_app by assumption.
    destruct (Libc.dec_unsigned (- i)) as [|c ds] eqn:E; [congruence|].
    rewrite Hv. replace (- - i) with i by lia.
    replace (i >? Libc.LLONG_MAX) with false by (symmetry; rewrite Z.gtb_ltb; apply Z.ltb_ge; lia).
    replace (i <? Libc.LLONG_MIN) with false by (symmetry; apply Z.ltb_ge; lia).
    reflexivity.
  - apply Z.ltb_ge in Eneg.
    destruct (dec_unsigned_spec i Eneg) as (Hd & Hne & Hv).
    unfold Libc.strtoll.
    destruct (Libc.dec_unsigned i) as [|c ds] eqn:E; [congruence|].
    pose proof Hd as Hd'. cbn [all_digits] in Hd'. apply andb_true_iff in Hd' as [Hc _].
    cbn [append Libc.skip_space]. rewrite (isdigit_not_space c Hc).
    rewrite (isdigit_not_sign c _ Hc).
    change (String c (ds ++ rest)) with (String c ds ++ rest).
    rewrite span_digits_app by assumption.
    rewrite Hv.
    replace (i >? Libc.LLONG_MAX) with false by (symmetry; rewrite Z.gtb_ltb; apply Z.ltb_ge; lia).
    replace (i <? Libc.LLONG_MIN) with false by (symmetry; apply Z.ltb_ge; lia).
    reflexivity.
Qed.

(** ** The values that are not strings *)

Definition special_state (f : Z) (q p : nat) : jsonsl_state_st :=
  {| type := JSONSL_T_SPECIAL; special_flags := f; pos_begin := q; pos_cur := p;
     nelem := 0; nescapes := 0 |}.

(** [popCallback] for a literal: the node that the flags stand for is
    pushed and set in its parent. *)
Lemma popCallback_literal (P : parent) (s0 : jsonsl_state_st) (tl0 : ascii)
    (f : Z) (v : option Node) (q pc : nat) st p tl ex ci ie B :
  ready P s0 tl0 ->
  (List.length (nodes_before P) < JSONSL_MAX_LEVELS)%nat ->
  has_flag f JSONSL_SPECIALf_NUMERIC = false ->
  (if has_flag f JSONSL_SPECIALf_BOOLEAN
   then v = Some (BooleanNode (negb (Z.land f JSONSL_SPECIALf_TRUE =? 0)))
   else has_flag f JSONSL_SPECIALf_NULL = true /\ v = None) ->
  popCallback (mkE st p tl ex ci ie B (nodes_before P)) (special_state f q pc)
    = mkE st p tl ex ci ie B (nodes_after P v).
Proof.
  intros Hr Hcap Hnum Hv.
  unfold popCallback, pop_string, pop_special. cbn [type special_state special_flags].
  rewrite Hnum.
  destruct (has_flag f JSONSL_SPECIALf_BOOLEAN).
  - subst v. cbn [mkE data]. rewrite pushNode_ok by exact Hcap.
    apply (pop_attach_parent P _ st p tl ex ci ie B _ s0 tl0 Hr). discriminate.
  - destruct Hv as [Hn ->]. rewrite Hn. cbn [mkE data]. rewrite pushNode_ok by exact Hcap.
    apply (pop_attach_parent P _ st p tl ex ci ie B _ s0 tl0 Hr). discriminate.
Qed.

(** [popCallback] for an integer. *)
Lemma popCallback_integer (P : parent) (s0 : jsonsl_state_st) (tl0 : ascii)
    (f : Z) (i : Z) (q pc : nat) (restB : string) st p tl ex ci ie B :
  ready P s0 tl0 ->
  (List.length (nodes_before P) < JSONSL_MAX_LEVELS)%nat ->
  has_flag f JSONSL_SPECIALf_NUMERIC = true ->
  has_flag f (Z.lor JSONSL_SPECIALf_FLOAT JSONSL_SPECIALf_EXPONENT) = false ->
  Libc.LLONG_MIN <= i <= Libc.LLONG_MAX ->
  drop q B = Libc.dec_signed i ++ restB -> ends_number restB ->
  pc = (q + String.length (Libc.dec_signed i))%nat ->
  popCallback (mkE st p tl ex ci ie B (nodes_before P)) (special_state f q pc)
    = mkE st p tl ex ci ie B (nodes_after P (Some (IntegerNode i))).
Proof.
  intros Hr Hcap Hnum Hfl Hi HB Hend Hpc.
  unfold popCallback, pop_string, pop_special.
  cbn [type special_state special_flags pos_begin pos_cur base mkE data].
  rewrite Hnum, Hfl, HB, (strtoll_dec_signed i restB Hi Hend).
  cbn [Libc.ll_value Libc.ll_end Libc.ll_errno].
  replace (pc - q)%nat with (String.length (Libc.dec_signed i)) by lia.
  rewrite Nat.eqb_refl.
  replace (0 =? Libc.ERANGE) with false by reflexivity.
  cbn [andb orb negb Z.eqb].
  rewrite pushNode_ok by exact Hcap.
  apply (pop_attach_parent P _ st p tl ex ci ie B _ s0 tl0 Hr). discriminate.
Qed.

Lemma Steps_eq (t : string) (j1 j2 j1' j2' : jsonsl_t) :
  j1 = j1' -> j2 = j2' -> Steps t j1' j2' -> Steps t j1 j2.
Proof. intros -> ->. auto. Qed.

Ltac state_eq :=
  unfold mk, mkE, set_pos, with_pos_cur, bump, with_nelem, special_state, tok_state;
  cbn [pos stack tok_last expecting can_insert in_escape stopfl levels_max base data
       type special_flags pos_begin pos_cur nelem nescapes String.length];
  rewrite ?append_length; cbn [String.length];
  repeat (f_equal; try lia).

(** A literal as a value. *)
Lemma literal_value (P : parent) (lit : string) (c0 : ascii) (t0 : string) (f : Z)
    (v : option Node) s tl r p ex B :
  ready P s tl ->
  lit = String c0 t0 ->
  starts_special c0 f ->
  special_literal f = Some lit ->
  has_flag f JSONSL_SPECIALf_NUMERIC = false ->
  no_special_end t0 = true ->
  (if has_flag f JSONSL_SPECIALf_BOOLEAN
   then v = Some (BooleanNode (negb (Z.land f JSONSL_SPECIALf_TRUE =? 0)))
   else has_flag f JSONSL_SPECIALf_NULL = true /\ v = None) ->
  (List.length r + 2 <= JSONSL_MAX_LEVELS)%nat ->
  (List.length (nodes_before P) < JSONSL_MAX_LEVELS)%nat ->
  StepsF lit (mk (s :: r) p tl ex true B (nodes_before P))
    (mk (with_pos_cur (p + String.length lit) (bump s) :: r) (p + String.length lit)
        NUL "," false B (nodes_after P v)).
Proof.
  intros Hr Hlit Hstart Hsl Hnum Hnse Hv Hlev Hcap.
  apply (special_value lit c0 t0 f f s r p tl ex B); try assumption.
  - apply (ready_container P s tl Hr).
  - apply (step_special_begin P); assumption.
  - eapply Steps_eq;
      [| |apply (Steps_literal lit f p (bump s :: r) tl ex true B (nodes_before P) Hnum Hsl
                   t0 1%nat); [subst lit; reflexivity | exact Hnse]].
    + state_eq.
    + subst lit. state_eq.
  - rewrite Hsl. reflexivity.
  - apply (popCallback_literal P s tl f v); assumption.
Qed.

Lemma null_value (P : parent) s tl r p ex B :
  ready P s tl ->
  (List.length r + 2 <= JSONSL_MAX_LEVELS)%nat ->
  (List.length (nodes_before P) < JSONSL_MAX_LEVELS)%nat ->
  StepsF "null" (mk (s :: r) p tl ex true B (nodes_before P))
    (mk (with_pos_cur (p + 4) (bump s) :: r) (p + 4) NUL "," false B (nodes_after P None)).
Proof.
  intros Hr Hlev Hcap.
  apply (literal_value P "null" "n" "ull" JSONSL_SPECIALf_NULL None); try assumption;
    try reflexivity.
  - repeat split. discriminate.
  - split; reflexivity.
Qed.

Lemma boolean_value (P : parent) (b : bool) s tl r p ex B :
  ready P s tl ->
  (List.length r + 2 <= JSONSL_MAX_LEVELS)%nat ->
  (List.length (nodes_before P) < JSONSL_MAX_LEVELS)%nat ->
  StepsF (if b then "true" else "false") (mk (s :: r) p tl ex true B (nodes_before P))
    (mk (with_pos_cur (p + String.length (if b then "true" else "false")) (bump s) :: r)
        (p + String.length (if b then "true" else "false"))
        NUL "," false B (nodes_after P (Some (BooleanNode b)))).
Proof.
  intros Hr Hlev Hcap. destruct b.
  - apply (literal_value P "true" "t" "rue" JSONSL_SPECIALf_TRUE); try assumption;
      try reflexivity.
    repeat split. discriminate.
  - apply (literal_value P "false" "f" "alse" JSONSL_SPECIALf_FALSE); try assumption;
      try reflexivity.
    repeat split. discriminate.
Qed.

Lemma digit_starts (c : ascii) :
  Libc.isdigit c = true -> starts_special c JSONSL_SPECIALf_UNSIGNED.
Proof.
  destruct c as [[] [] [] [] [] [] [] []]; intros H; try discriminate H;
    (repeat split; [discriminate]).
Qed.

Lemma follows_ends_number (rest : string) : follows rest -> ends_number rest.
Proof.
  destruct rest as [|c rest]; simpl; [auto|]. intros H.
  apply (follow_props c H).
Qed.

(** An integer as a value. *)
Lemma integer_value (P : parent) (i : Z) (restB : string) s tl r p ex B :
  ready P s tl ->
  Libc.LLONG_MIN <= i <= Libc.LLONG_MAX ->
  drop p B = Libc.dec_signed i ++ restB -> ends_number restB ->
  (List.length r + 2 <= JSONSL_MAX_LEVELS)%nat ->
  (List.length (nodes_before P) < JSONSL_MAX_LEVELS)%nat ->
  StepsF (Libc.dec_signed i) (mk (s :: r) p tl ex true B (nodes_before P))
    (mk (with_pos_cur (p + String.length (Libc.dec_signed i)) (bump s) :: r)
        (p + String.length (Libc.dec_signed i))
        NUL "," false B (nodes_after P (Some (IntegerNode i)))).
Proof.
  intros Hr Hi HB Hend Hlev Hcap.
  assert (Hshape : exists c0 t0 f,
            Libc.dec_signed i = String c0 t0 /\ starts_special c0 f /\
            all_digits t0 = true /\
            has_flag f JSONSL_SPECIALf_NUMERIC = true /\
            has_flag f (Z.lor JSONSL_SPECIALf_FLOAT JSONSL_SPECIALf_EXPONENT) = false /\
            special_literal f = None).
  { unfold Libc.dec_signed. destruct (i <? 0) eqn:E.
    - apply Z.ltb_lt in E. destruct (dec_unsigned_spec (- i)) as (Hd & _ & _); [lia|].
      exists "-"%char, (Libc.dec_unsigned (- i)), JSONSL_SPECIALf_SIGNED.
      repeat split; try assumption. discriminate.
    - apply Z.ltb_ge in E. destruct (dec_unsigned_spec i E) as (Hd & Hne & _).
      destruct (Libc.dec_unsigned i) as [|c ds]; [congruence|].
      cbn [all_digits] in Hd. apply andb_true_iff in Hd as [Hc Hd].
      exists c, ds, JSONSL_SPECIALf_UNSIGNED.
      repeat split; try assumption; apply (digit_starts c Hc). }
  destruct Hshape as (c0 & t0 & f & Htext & Hstart & Hd & Hnum & Hfl & Hsl).
  apply (special_value (Libc.dec_signed i) c0 t0 f f s r p tl ex B); try assumption.
  - apply (ready_container P s tl Hr).
  - apply (step_special_begin P); assumption.
  - eapply Steps_eq;
      [| |apply (Steps_digits t0 f p (bump s :: r) tl ex true B (nodes_before P) Hnum Hd (S p))].
    + state_eq.
    + rewrite Htext. state_eq.
  - rewrite Hsl. exact I.
  - apply (popCallback_integer P s tl f i p _ restB); try assumption. reflexivity.
Qed.

(** ** Doubles *)

(** The bytes that a number goes on with, and those among them that make
    it a double. *)
Definition mark_byte (c : ascii) : bool :=
  (c =? "e")%char || (c =? "E")%char || (c =? "-")%char || (c =? "+")%char
  || (c =? ".")%char.

Definition number_byte (c : ascii) : bool := Libc.isdigit c || mark_byte c.

Fixpoint number_bytes (s : string) : bool :=
  match s with
  | EmptyString => true
  | String c s' => number_byte c && number_bytes s'
  end.

Fixpoint has_mark (s : string) : bool :=
  match s with
  | EmptyString => false
  | String c s' => (negb (Libc.isdigit c) && mark_byte c) || has_mark s'
  end.

(** The text of a number that the lexer takes for a double. *)
Definition float_token (t : string) : bool :=
  match t with
  | String c t' => ((c =? "-")%char || Libc.isdigit c) && number_bytes t' && has_mark t'
  | EmptyString => false
  end.

(** The flags of a number after more of its bytes. *)
Fixpoint flags_after (f : Z) (s : string) : Z :=
  match s with
  | EmptyString => f
  | String c s' =>
      flags_after
        (if Libc.isdigit c then f
         else if (c =? "e")%char || (c =? "E")%char || (c =? "-")%char || (c =? "+")%char
         then Z.lor f JSONSL_SPECIALf_EXPONENT
         else Z.lor f JSONSL_SPECIALf_FLOAT) s'
  end.

Lemma has_flag_lor (f x m : Z) : has_flag f m = true -> has_flag (Z.lor f x) m = true.
Proof.
  unfold has_flag. intros H. apply negb_true_iff in H. apply Z.eqb_neq in H.
  apply negb_true_iff, Z.eqb_neq. rewrite Z.land_lor_distr_l. intros E.
  apply Z.lor_eq_0_iff in E as [E _]. contradiction.
Qed.

Lemma has_flag_lor_r (f x m : Z) : has_flag x m = true -> has_flag (Z.lor f x) m = true.
Proof. rewrite Z.lor_comm. apply has_flag_lor. Qed.

Lemma numeric_no_literal (g : Z) :
  has_flag g JSONSL_SPECIALf_NUMERIC = true -> special_literal g = None.
Proof.
  intros H. unfold special_literal.
  destruct (Z.eqb_spec g JSONSL_SPECIALf_TRUE) as [->|_]; [discriminate H|].
  destruct (Z.eqb_spec g JSONSL_SPECIALf_FALSE) as [->|_]; [discriminate H|].
  destruct (Z.eqb_spec g JSONSL_SPECIALf_NULL) as [->|_]; [discriminate H|].
  reflexivity.
Qed.

Lemma flags_after_numeric (s : string) :
  forall f, has_flag f JSONSL_SPECIALf_NUMERIC = true ->
    has_flag (flags_after f s) JSONSL_SPECIALf_NUMERIC = true.
Proof.
  induction s as [|c s IH]; intros f H; [exact H|].
  cbn [flags_after]. apply IH.
  destruct (Libc.isdigit c); [exact H|].
  destruct ((c =? "e")%char || (c =? "E")%char || (c =? "-")%char || (c =? "+")%char);
    apply has_flag_lor; exact H.
Qed.

Definition FLOAT_OR_EXPONENT : Z := Z.lor JSONSL_SPECIALf_FLOAT JSONSL_SPECIALf_EXPONENT.

Lemma flags_after_keeps (s : string) :
  forall f, has_flag f FLOAT_OR_EXPONENT = true ->
    has_flag (flags_after f s) FLOAT_OR_EXPONENT = true.
Proof.
  induction s as [|c s IH]; intros f H; [exact H|].
  cbn [flags_after]. apply IH.
  destruct (Libc.isdigit c); [exact H|].
  destruct ((c =? "e")%char || (c =? "E")%char || (c =? "-")%char || (c =? "+")%char);
    apply has_flag_lor; exact H.
Qed.

Lemma flags_after_mark (s : string) :
  forall f, has_mark s = true -> has_flag (flags_after f s) FLOAT_OR_EXPONENT = true.
Proof.
  induction s as [|c s IH]; intros f H; [discriminate H|].
  cbn [has_mark flags_after] in *.
  apply orb_true_iff in H as [H|H]; [|apply IH; exact H].
  apply andb_true_iff in H as [Hd Hm]. apply negb_true_iff in Hd. rewrite Hd.
  apply flags_after_keeps.
  destruct ((c =? "e")%char || (c =? "E")%char || (c =? "-")%char || (c =? "+")%char);
    apply has_flag_lor_r; reflexivity.
Qed.

(** A byte of a number after the first one. *)
Lemma step_number (c : ascii) f q st p tl ex ci B ns :
  has_flag f JSONSL_SPECIALf_NUMERIC = true -> number_byte c = true ->
  stp c (mk (tok_state JSONSL_T_SPECIAL f q 0 :: st) p tl ex ci B ns)
    = Next (mk (tok_state JSONSL_T_SPECIAL (flags_after f (String c "")) q 0 :: st)
              p tl ex ci B ns).
Proof.
  intros Hf Hc. unfold stp, step.
  cbn [cur_state stack mk mkE hd type tok_state special_flags flags_after]. rewrite Hf.
  unfold number_byte, mark_byte in Hc.
  destruct (Libc.isdigit c); [reflexivity|]. cbn [orb] in Hc.
  destruct ((c =? "e")%char || (c =? "E")%char || (c =? "-")%char || (c =? "+")%char);
    [reflexivity|].
  cbn [orb] in Hc. rewrite Hc. reflexivity.
Qed.

Lemma Steps_number (t : string) q st tl ex ci B ns :
  number_bytes t = true ->
  forall f p,
    has_flag f JSONSL_SPECIALf_NUMERIC = true ->
    Steps t (mk (tok_state JSONSL_T_SPECIAL f q 0 :: st) p tl ex ci B ns)
            (mk (tok_state JSONSL_T_SPECIAL (flags_after f t) q 0 :: st)
                (p + String.length t) tl ex ci B ns).
Proof.
  induction t as [|c t IH]; intros Hb f p Hf.
  - same_state.
  - cbn [number_bytes] in Hb. apply andb_true_iff in Hb as [Hc Hb].
    eapply Steps_cons; [apply step_number; assumption|].
    cbn [String.length].
    replace (p + S (String.length t))%nat with (S p + String.length t)%nat by lia.
    apply (IH Hb _ (S p)).
    apply (flags_after_numeric (String c "") f Hf).
Qed.

(** What may come after the bytes of a double. *)
Definition ends_double (rest : string) : Prop :=
  match rest with
  | String c _ => number_byte c = false
  | EmptyString => True
  end.

Lemma follows_ends_double (rest : string) : follows rest -> ends_double rest.
Proof.
  destruct rest as [|c rest]; cbn [follows ends_double]; [auto|].
  destruct c as [[] [] [] [] [] [] [] []]; intros H; try discriminate H; reflexivity.
Qed.

Lemma ends_double_bytes (c : ascii) :
  number_byte c = false ->
  Libc.isdigit c = false /\ (c =? "-")%char = false /\ (c =? "+")%char = false /\
  (c =? ".")%char = false /\ (c =? "e")%char = false /\ (c =? "E")%char = false.
Proof.
  unfold number_byte, mark_byte. intros H.
  apply orb_false_iff in H as [Hd H]. apply orb_false_iff in H as [H Hdot].
  apply orb_false_iff in H as [H Hp]. apply orb_false_iff in H as [H Hm].
  apply orb_false_iff in H as [He HE]. repeat split; assumption.
Qed.

Lemma span_digits_more (a rest : string) :
  ends_double rest ->
  Libc.span_digits (a ++ rest)
    = (fst (Libc.span_digits a), snd (Libc.span_digits a) ++ rest).
Proof.
  intros Hr. induction a as [|c a IH]; cbn [append Libc.span_digits].
  - destruct rest as [|c rest]; [reflexivity|].
    cbn [ends_double Libc.span_digits] in *.
    destruct (ends_double_bytes c Hr) as (Hd & _). rewrite Hd. reflexivity.
  - destruct (Libc.isdigit c); [|reflexivity].
    rewrite IH. destruct (Libc.span_digits a). reflexivity.
Qed.

Lemma take_sign_more (a rest : string) :
  ends_double rest ->
  Libc.take_sign (a ++ rest)
    = (fst (fst (Libc.take_sign a)), snd (fst (Libc.take_sign a)),
       snd (Libc.take_sign a) ++ rest).
Proof.
  intros Hr. destruct a as [|c a].
  - destruct rest as [|c rest]; [reflexivity|]. cbn [ends_double] in Hr.
    destruct (ends_double_bytes c Hr) as (_ & Hm & Hp & _).
    cbn [append]. unfold Libc.take_sign.
    destruct c as [[] [] [] [] [] [] [] []]; try reflexivity;
      try discriminate Hm; discriminate Hp.
  - cbn [append]. unfold Libc.take_sign.
    destruct c as [[] [] [] [] [] [] [] []]; reflexivity.
Qed.

Lemma take_fraction_more (a rest : string) :
  ends_double rest ->
  Double.take_fraction (a ++ rest)
    = (fst (fst (Double.take_fraction a)), snd (fst (Double.take_fraction a)),
       snd (Double.take_fraction a) ++ rest).
Proof.
  intros Hr. destruct a as [|c a].
  - destruct rest as [|c rest]; [reflexivity|]. cbn [ends_double] in Hr.
    destruct (ends_double_bytes c Hr) as (_ & _ & _ & Hdot & _).
    cbn [append]. unfold Double.take_fraction.
    destruct c as [[] [] [] [] [] [] [] []]; try reflexivity; discriminate Hdot.
  - cbn [append]. unfold Double.take_fraction.
    destruct c as [[] [] [] [] [] [] [] []]; try reflexivity.
    rewrite (span_digits_more a rest Hr). destruct (Libc.span_digits a). reflexivity.
Qed.

Lemma take_exponent_more (a rest : string) :
  ends_double rest -> Double.take_exponent (a ++ rest) = Double.take_exponent a.
Proof.
  intros Hr. destruct a as [|c a].
  - destruct rest as [|c rest]; [reflexivity|]. cbn [ends_double] in Hr.
    destruct (ends_double_bytes c Hr) as (_ & _ & _ & _ & He & HE).
    cbn [append Double.take_exponent]. rewrite He, HE. reflexivity.
  - cbn [append Double.take_exponent].
    destruct ((c =? "e")%char || (c =? "E")%char); [|reflexivity].
    rewrite (take_sign_more a rest Hr).
    destruct (Libc.take_sign a) as [[eneg nesg] s2]. cbn [fst snd].
    rewrite (span_digits_more s2 rest Hr). destruct (Libc.span_digits s2). reflexivity.
Qed.

(** [strtod] stops where the token of a double stops. *)
Lemma strtod_more (t rest : string) :
  float_token t = true -> ends_double rest ->
  Double.strtod (t ++ rest) = Double.strtod t.
Proof.
  intros Ht Hr. destruct t as [|c t]; [discriminate Ht|].
  cbn [float_token] in Ht. apply andb_true_iff in Ht as [Ht _].
  apply andb_true_iff in Ht as [Hc _].
  assert (Hsp : Libc.isspace c = false).
  { destruct c as [[] [] [] [] [] [] [] []]; try discriminate Hc; reflexivity. }
  unfold Double.strtod.
  change (String c t ++ rest) with (String c (t ++ rest)).
  cbn [Libc.skip_space]. rewrite Hsp.
  change (String c (t ++ rest)) with (String c t ++ rest).
  rewrite (take_sign_more (String c t) rest Hr).
  destruct (Libc.take_sign (String c t)) as [[neg nsg] s2]. cbn [fst snd].
  rewrite (span_digits_more s2 rest Hr).
  destruct (Libc.span_digits s2) as [ip s3]. cbn [fst snd].
  rewrite (take_fraction_more s3 rest Hr).
  destruct (Double.take_fraction s3) as [[fp nfrac] s4]. cbn [fst snd].
  rewrite (take_exponent_more s4 rest Hr).
  reflexivity.
Qed.

(** A double that is neither NaN nor infinite. *)
Definition is_finite (v : Double.double) : bool :=
  match v with
  | S754_zero _ | S754_finite _ _ _ => true
  | _ => false
  end.

Definition same_double (a b : Double.double) : bool :=
  match a, b with
  | S754_zero s1, S754_zero s2 => Bool.eqb s1 s2
  | S754_infinity s1, S754_infinity s2 => Bool.eqb s1 s2
  | S754_nan, S754_nan => true
  | S754_finite s1 m1 e1, S754_finite s2 m2 e2 =>
      Bool.eqb s1 s2 && (m1 =? m2)%positive && (e1 =? e2)
  | _, _ => false
  end.

Lemma same_double_eq (a b : Double.double) : same_double a b = true -> a = b.
Proof.
  destruct a as [s1|s1| |s1 m1 e1], b as [s2|s2| |s2 m2 e2]; cbn [same_double];
    intros H; try discriminate H; try reflexivity.
  - apply Bool.eqb_prop in H. congruence.
  - apply Bool.eqb_prop in H. congruence.
  - apply andb_true_iff in H as [H He]. apply andb_true_iff in H as [Hs Hm].
    apply Bool.eqb_prop in Hs. apply Pos.eqb_eq in Hm. apply Z.eqb_eq in He. congruence.
Qed.

(** A finite double whose text has a fraction or an exponent, and is read
    back by [strtod] as the same double. *)
Definition double_ok (v : Double.double) : bool :=
  is_finite v && float_token (number_text v) &&
  (Double.d_errno (Double.strtod (number_text v)) =? 0) &&
  (Double.d_end (Double.strtod (number_text v)) =? String.length (number_text v))%nat &&
  same_double (Double.d_value (Double.strtod (number_text v))) v.

Lemma double_ok_spec (v : Double.double) :
  double_ok v = true ->
  Double.isnan v = false /\ float_token (number_text v) = true /\
  Double.strtod (number_text v)
    = {| Double.d_value := v; Double.d_end := String.length (number_text v);
         Double.d_errno := 0 |}.
Proof.
  unfold double_ok. intros H.
  apply andb_true_iff in H as [H Hv]. apply andb_true_iff in H as [H He].
  apply andb_true_iff in H as [H Hr]. apply andb_true_iff in H as [Hf Ht].
  split; [destruct v; try discriminate Hf; reflexivity|]. split; [exact Ht|].
  destruct (Double.strtod (number_text v)) as [val en er].
  cbn [Double.d_value Double.d_end Double.d_errno] in *.
  apply same_double_eq in Hv. apply Nat.eqb_eq in He. apply Z.eqb_eq in Hr.
  congruence.
Qed.

(** [popCallback] for a double. *)
Lemma popCallback_double (P : parent) (s0 : jsonsl_state_st) (tl0 : ascii)
    (f : Z) (v : Double.double) (q pc : nat) (restB : string) st p tl ex ci ie B :
  ready P s0 tl0 ->
  (List.length (nodes_before P) < JSONSL_MAX_LEVELS)%nat ->
  has_flag f JSONSL_SPECIALf_NUMERIC = true ->
  has_flag f FLOAT_OR_EXPONENT = true ->
  double_ok v = true ->
  drop q B = number_text v ++ restB -> ends_double restB ->
  pc = (q + String.length (number_text v))%nat ->
  popCallback (mkE st p tl ex ci ie B (nodes_before P)) (special_state f q pc)
    = mkE st p tl ex ci ie B (nodes_after P (Some (NumberNode v))).
Proof.
  intros Hr Hcap Hnum Hfl Hok HB Hend Hpc.
  destruct (double_ok_spec v Hok) as (Hnan & Htok & Hstr).
  unfold popCallback, pop_string, pop_special.
  cbn [type special_state special_flags pos_begin pos_cur base mkE data].
  fold FLOAT_OR_EXPONENT.
  rewrite Hnum, Hfl, HB, (strtod_more _ restB Htok Hend), Hstr.
  cbn [Double.d_value Double.d_end Double.d_errno].
  replace (pc - q)%nat with (String.length (number_text v)) by lia.
  rewrite Nat.eqb_refl, Hnan.
  replace (0 =? Libc.ERANGE) with false by reflexivity.
  cbn [andb orb negb Z.eqb].
  rewrite pushNode_ok by exact Hcap.
  apply (pop_attach_parent P _ st p tl ex ci ie B _ s0 tl0 Hr). discriminate.
Qed.

Lemma minus_or_digit_starts (c : ascii) :
  ((c =? "-")%char || Libc.isdigit c) = true ->
  exists f, starts_special c f /\ has_flag f JSONSL_SPECIALf_NUMERIC = true.
Proof.
  intros H. apply orb_true_iff in H as [H|H].
  - apply Ascii.eqb_eq in H. subst c. exists JSONSL_SPECIALf_SIGNED.
    split; [repeat split; discriminate | reflexivity].
  - exists JSONSL_SPECIALf_UNSIGNED. split; [apply digit_starts; exact H | reflexivity].
Qed.

(** A double as a value. *)
Lemma double_value (P : parent) (v : Double.double) (restB : string) s tl r p ex B :
  ready P s tl ->
  double_ok v = true ->
  drop p B = number_text v ++ restB -> ends_double restB ->
  (List.length r + 2 <= JSONSL_MAX_LEVELS)%nat ->
  (List.length (nodes_before P) < JSONSL_MAX_LEVELS)%nat ->
  StepsF (number_text v) (mk (s :: r) p tl ex true B (nodes_before P))
    (mk (with_pos_cur (p + String.length (number_text v)) (bump s) :: r)
        (p + String.length (number_text v))
        NUL "," false B (nodes_after P (Some (NumberNode v)))).
Proof.
  intros Hr Hok HB Hend Hlev Hcap.
  destruct (double_ok_spec v Hok) as (_ & Htok & _).
  destruct (number_text v) as [|c0 t0] eqn:Htext; [discriminate Htok|].
  cbn [float_token] in Htok. apply andb_true_iff in Htok as [Htok Hmark].
  apply andb_true_iff in Htok as [Hc0 Hbytes].
  destruct (minus_or_digit_starts c0 Hc0) as (f & Hstart & Hnum).
  pose proof (flags_after_numeric t0 f Hnum) as Hnum'.
  apply (special_value (String c0 t0) c0 t0 f (flags_after f t0) s r p tl ex B);
    try reflexivity.
  - apply (ready_container P s tl Hr).
  - apply (step_special_begin P); assumption.
  - eapply Steps_eq;
      [| |apply (Steps_number t0 p (bump s :: r) tl ex true B (nodes_before P) Hbytes
                   f (S p) Hnum)].
    + state_eq.
    + state_eq.
  - rewrite (numeric_no_literal _ Hnum'). exact I.
  - rewrite <- Htext in *.
    apply (popCallback_double P s tl _ v p _ restB); try assumption.
    + apply flags_after_mark. exact Hmark.
    + reflexivity.
Qed.

(** ** Containers *)

Lemma ENSURE_HVAL_ready (P : parent) s tl r p tl' ex ci B ns (k : jsonsl_t -> flow) :
  ready P s tl ->
  ENSURE_HVAL errorCallback (mk (s :: r) p tl' ex ci B ns) k = k (mk (s :: r) p tl' ex ci B ns).
Proof.
  intros Hr. unfold ENSURE_HVAL. cbn [cur_state stack mk mkE hd].
  destruct P as [|l0 ns0|k0 l0 ns0]; simpl in Hr.
  - rewrite Hr. reflexivity.
  - rewrite Hr. reflexivity.
  - destruct Hr as (Ht & Ho & _). rewrite Ht.
    rewrite <- Nat.negb_odd, Ho. reflexivity.
Qed.

Definition opens (c : ascii) (t : jsonsl_type_t) (n : Node) : Prop :=
  (c = "["%char /\ t = JSONSL_T_LIST /\ n = ArrayNode []) \/
  (c = "{"%char /\ t = JSONSL_T_OBJECT /\ n = DictNode []).

(** The bracket or the brace that opens a container. *)
Lemma step_open (P : parent) (c : ascii) (t : jsonsl_type_t) (n : Node) s tl r p ex B :
  opens c t n ->
  ready P s tl ->
  (List.length r + 2 <= JSONSL_MAX_LEVELS)%nat ->
  (List.length (nodes_before P) < JSONSL_MAX_LEVELS)%nat ->
  stp c (mk (s :: r) p tl ex true B (nodes_before P))
    = Next (mk (tok_state t 0 p 0 :: bump s :: r) p NUL
              (if (c =? "{")%char then DQUOTE else ex) true B
              (Some n :: nodes_before P)).
Proof.
  intros Ho Hr Hlev Hcap.
  assert (Hstep : stp c (mk (s :: r) p tl ex true B (nodes_before P))
            = GT_STRUCTURAL_TOKEN errorCallback pushCallback popCallback c
                (mk (s :: r) p tl ex true B (nodes_before P))).
  { unfold stp, step. cbn [cur_state stack mk mkE hd].
    pose proof (ready_container P s tl Hr) as Hc.
    destruct Ho as [(-> & _ & _)|(-> & _ & _)];
      destruct (type s); try discriminate Hc; reflexivity. }
  rewrite Hstep. unfold GT_STRUCTURAL_TOKEN. cbv zeta.
  assert (Hpush : forall ex',
    STACK_PUSH errorCallback (incr_nelem (mk (s :: r) p tl ex true B (nodes_before P))) t 0
      (fun jsn =>
         DO_CALLBACK pushCallback (set_tokens jsn (tok_last jsn) ex' true)
           (fun jsn0 => Next (set_tokens jsn0 NUL (expecting jsn0) (can_insert jsn0))))
    = Next (mk (tok_state t 0 p 0 :: bump s :: r) p NUL ex' true B
              (Some n :: nodes_before P))).
  { intros ex'.
    cbn [incr_nelem map_cur stack mk mkE set_stack pos tok_last expecting can_insert
         in_escape stopfl levels_max base data].
    change (with_nelem (S (nelem s)) s) with (bump s).
    match goal with
    | |- STACK_PUSH _ ?j _ _ _ = _ =>
        change j with (mkE (bump s :: r) p tl ex true false B (nodes_before P))
    end.
    rewrite STACK_PUSH_mk by (simpl; try lia; congruence). cbv beta.
    unfold DO_CALLBACK, pushCallback.
    cbn [set_tokens cur_state stack mkE hd type tok_state pos tok_last expecting can_insert
         in_escape stopfl levels_max base data set_data].
    destruct Ho as [(_ & -> & ->)|(_ & -> & ->)];
      unfold Object.NewArrayNode, Object.NewDictNode;
      rewrite pushNode_ok by exact Hcap; reflexivity. }
  destruct Ho as [(-> & Ht & Hn)|(-> & Ht & Hn)].
  - change (("[" =? ":")%char) with false. change (("[" =? ",")%char) with false.
    change ((("[" =? "{")%char || ("[" =? "[")%char)) with true.
    change (("[" =? "{")%char) with false.
    cbn [can_insert mk mkE]. cbv iota.
    rewrite (ENSURE_HVAL_ready P s tl r p tl ex true B _ _ Hr).
    rewrite <- Ht at 1.
    apply (Hpush ex).
  - change (("{" =? ":")%char) with false. change (("{" =? ",")%char) with false.
    change ((("{" =? "{")%char || ("{" =? "[")%char)) with true.
    change (("{" =? "{")%char) with true.
    cbn [can_insert mk mkE]. cbv iota.
    rewrite (ENSURE_HVAL_ready P s tl r p tl ex true B _ _ Hr).
    rewrite <- Ht at 1.
    apply (Hpush DQUOTE).
Qed.

Definition closes (c : ascii) (sl : jsonsl_state_st) (n : Node) : Prop :=
  (c = "]"%char /\ type sl = JSONSL_T_LIST /\ exists l, n = ArrayNode l) \/
  (c = "}"%char /\ type sl = JSONSL_T_OBJECT /\ Nat.even (nelem sl) = true /\
   exists l, n = DictNode l).

(** The bracket or the brace that closes a container: the container is
    set in its parent. *)
Lemma step_close (P : parent) (s0 : jsonsl_state_st) (tl0 : ascii) (c : ascii)
    (sl s' : jsonsl_state_st) (n : Node) r p ex ci B :
  ready P s0 tl0 ->
  closes c sl n ->
  stp c (mk (sl :: s' :: r) p NUL ex ci B (Some n :: nodes_before P))
    = Next (mk (with_pos_cur p s' :: r) p NUL "," false B (nodes_after P (Some n))).
Proof.
  intros Hr Hc.
  assert (Hpop : forall tl ex ci,
            popCallback (mkE (sl :: s' :: r) p tl ex ci false B (Some n :: nodes_before P)) sl
            = mkE (sl :: s' :: r) p tl ex ci false B (nodes_after P (Some n))).
  { intros tl ex1 ci1. unfold popCallback, pop_string, pop_special.
    destruct Hc as [(_ & Ht & _)|(_ & Ht & _)]; rewrite Ht;
      apply (pop_attach_parent P _ _ p tl ex1 ci1 false B sl s0 tl0 Hr); rewrite Ht;
      discriminate. }
  assert (Hstep : stp c (mk (sl :: s' :: r) p NUL ex ci B (Some n :: nodes_before P))
            = GT_STRUCTURAL_TOKEN errorCallback pushCallback popCallback c
                (mk (sl :: s' :: r) p NUL ex ci B (Some n :: nodes_before P))).
  { unfold stp, step. cbn [cur_state stack mk mkE hd].
    destruct Hc as [(-> & Ht & _)|(-> & Ht & _)]; rewrite Ht; reflexivity. }
  rewrite Hstep. unfold GT_STRUCTURAL_TOKEN. cbv zeta.
  assert (Hclose :
    DO_CALLBACK popCallback
      (set_tokens (mk (sl :: s' :: r) p NUL ex ci B (Some n :: nodes_before P)) NUL "," false)
      (fun jsn => let jsn0 := set_stack jsn (tl (stack jsn)) in
                  Next (map_cur (with_pos_cur (pos jsn0)) jsn0))
    = Next (mk (with_pos_cur p s' :: r) p NUL "," false B (nodes_after P (Some n)))).
  { unfold DO_CALLBACK.
    cbn [tok_last mk mkE cur_state stack hd set_tokens pos expecting can_insert in_escape
         stopfl levels_max base data].
    match goal with
    | |- context [popCallback ?j sl] =>
        change j with (mkE (sl :: s' :: r) p NUL "," false false B (Some n :: nodes_before P))
    end.
    rewrite Hpop. reflexivity. }
  cbv zeta in Hclose.
  destruct Hc as [(-> & Ht & _)|(-> & Ht & He & _)].
  - change (("]" =? ":")%char) with false. change (("]" =? ",")%char) with false.
    change ((("]" =? "{")%char || ("]" =? "[")%char)) with false.
    change ((("]" =? "}")%char || ("]" =? "]")%char)) with true.
    change (("]" =? "]")%char) with true.
    cbn [tok_last mk mkE cur_state stack hd]. change ((NUL =? ",")%char) with false.
    cbv iota. rewrite Ht. exact Hclose.
  - change (("}" =? ":")%char) with false. change (("}" =? ",")%char) with false.
    change ((("}" =? "{")%char || ("}" =? "[")%char)) with false.
    change ((("}" =? "}")%char || ("}" =? "]")%char)) with true.
    change (("}" =? "]")%char) with false.
    cbn [tok_last mk mkE cur_state stack hd]. change ((NUL =? ",")%char) with false.
    cbv iota. rewrite Ht, <- Nat.negb_even, He. exact Hclose.
Qed.

(** The comma between two entries. *)
Lemma step_comma (sl : jsonsl_state_st) r p ci B ns :
  type sl = JSONSL_T_LIST \/ type sl = JSONSL_T_OBJECT ->
  stp "," (mk (sl :: r) p NUL "," ci B ns)
    = Next (mk (sl :: r) p "," DQUOTE
              (match type sl with JSONSL_T_OBJECT => ci | _ => true end) B ns).
Proof.
  intros Ht. unfold stp, step, GT_STRUCTURAL_TOKEN. cbn [cur_state stack mk mkE hd].
  destruct Ht as [Ht|Ht]; rewrite Ht; reflexivity.
Qed.

(** The colon after a key. *)
Lemma step_colon (so : jsonsl_state_st) r p tl ci B ns :
  type so = JSONSL_T_OBJECT ->
  stp ":" (mk (so :: r) p tl ":" ci B ns) = Next (mk (so :: r) p ":" DQUOTE true B ns).
Proof.
  intros Ht. unfold stp, step. cbn [cur_state stack mk mkE hd]. rewrite Ht. reflexivity.
Qed.

(** ** Keys *)

(** A key that comes back as it is: no byte below 32, no quotation mark
    and no backslash, as keys are written without escapes. *)
Fixpoint key_ok (k : string) : bool :=
  match k with
  | EmptyString => true
  | String c k' => raw c && key_ok k'
  end.

Lemma raw_not_nul (c : ascii) : raw c = true -> (c =? "000")%char = false.
Proof.
  intros H. destruct (Ascii.eqb_spec c "000") as [->|_]; [discriminate H | reflexivity].
Qed.

Lemma key_c_str (k : string) : key_ok k = true -> c_str k = k.
Proof.
  induction k as [|c k IH]; intros H; [reflexivity|].
  cbn [key_ok] in H. apply andb_true_iff in H as [Hc Hk].
  cbn [c_str]. rewrite (raw_not_nul c Hc), (IH Hk). reflexivity.
Qed.

(** The quotation mark that opens a key. *)
Lemma step_open_key (so : jsonsl_state_st) r p tl ci B ns :
  type so = JSONSL_T_OBJECT -> Nat.even (nelem so) = true ->
  (List.length r + 2 <= JSONSL_MAX_LEVELS)%nat ->
  stp DQUOTE (mk (so :: r) p tl DQUOTE ci B ns)
    = Next (mkE (tok_state JSONSL_T_HKEY 0 p 0 :: bump so :: r) p NUL ":" false false B ns).
Proof.
  intros Ht He Hlev.
  assert (Hstep : stp DQUOTE (mk (so :: r) p tl DQUOTE ci B ns)
            = GT_QUOTE errorCallback pushCallback popCallback (mk (so :: r) p tl DQUOTE ci B ns)).
  { unfold stp, step. cbn [cur_state stack mk mkE hd]. rewrite Ht. reflexivity. }
  rewrite Hstep. unfold GT_QUOTE.
  cbn [cur_state stack set_tokens mk mkE hd tok_last expecting pos in_escape stopfl
       levels_max base data can_insert].
  rewrite Ht, <- Nat.negb_even, He. cbn [negb].
  cbn [incr_nelem map_cur stack expecting set_stack tok_last pos can_insert in_escape
       stopfl levels_max base data set_tokens mk mkE].
  replace (DQUOTE =? DQUOTE)%char with true by reflexivity.
  change (with_nelem (S (nelem so)) so) with (bump so).
  match goal with
  | |- STACK_PUSH _ ?j _ _ _ = _ =>
      change j with (mkE (bump so :: r) p NUL ":" false false B ns)
  end.
  rewrite STACK_PUSH_mk by (simpl; try lia; congruence). cbv beta.
  exact (DO_CALLBACK_push_token (bump so :: r) p NUL ":" false false B ns
           JSONSL_T_HKEY 0 p 0%nat Next I).
Qed.

(** The bytes of a key. *)
Lemma Steps_key (k : string) t f q st tl ex ci B ns :
  stringy t = true -> key_ok k = true ->
  forall p,
    Steps k (mkE (tok_state t f q 0 :: st) p tl ex ci false B ns)
            (mkE (tok_state t f q 0 :: st) (p + String.length k) tl ex ci false B ns).
Proof.
  intros Ht. induction k as [|c k IH]; intros Hk p.
  - same_state.
  - cbn [key_ok] in Hk. apply andb_true_iff in Hk as [Hc Hk].
    eapply Steps_cons; [apply step_raw; [exact Ht | exact Hc]|].
    cbn [String.length].
    replace (p + S (String.length k))%nat with (S p + String.length k)%nat by lia.
    apply (IH Hk (S p)).
Qed.

(** [popCallback] for a key: the key is pushed, with no value yet. *)
Lemma popCallback_key (k : string) st pc0 tl ex ci ie B (q p : nat) (restB : string)
    ns fl ne0 :
  key_ok k = true ->
  drop q B = String DQUOTE (k ++ String DQUOTE restB) ->
  p = (q + 1 + String.length k)%nat ->
  (List.length ns < JSONSL_MAX_LEVELS)%nat ->
  popCallback (mkE st pc0 tl ex ci ie B ns)
    {| type := JSONSL_T_HKEY; special_flags := fl; pos_begin := q; pos_cur := p;
       nelem := ne0; nescapes := 0 |}
  = mkE st pc0 tl ex ci ie B (Some (KeyValNode k None) :: ns).
Proof.
  intros Hk HB Hp Hcap.
  unfold popCallback, pop_string, pop_special, pop_attach.
  cbn [type pos_begin pos_cur nescapes base data Nat.eqb negb mkE].
  replace (p - q - 1)%nat with (String.length k) by lia.
  rewrite (token_between B q k restB HB).
  unfold Object.NewKeyValNode. rewrite (key_c_str k Hk).
  rewrite pushNode_ok by exact Hcap.
  reflexivity.
Qed.

(** The quotation mark that closes a key. *)
Lemma step_close_key (k : string) s' r p tl ex ci B (q : nat) (restB : string) ns :
  key_ok k = true ->
  drop q B = String DQUOTE (k ++ String DQUOTE restB) ->
  p = (q + 1 + String.length k)%nat ->
  (List.length ns < JSONSL_MAX_LEVELS)%nat ->
  stp DQUOTE (mkE (tok_state JSONSL_T_HKEY 0 q 0 :: s' :: r) p tl ex ci false B ns)
  = Next (mk (with_pos_cur p s' :: r) p tl ex false B (Some (KeyValNode k None) :: ns)).
Proof.
  intros Hk HB Hp Hcap.
  unfold stp, step. cbn [cur_state stack mkE hd type tok_state in_escape].
  replace (DQUOTE =? DQUOTE)%char with true by reflexivity.
  unfold GT_QUOTE.
  cbn [cur_state stack mkE hd type tok_state set_tokens tok_last expecting pos
       in_escape stopfl levels_max base data].
  unfold CALLBACK_AND_POP, DO_CALLBACK.
  cbn [map_cur stack set_stack pos tok_last expecting can_insert in_escape stopfl
       levels_max base data cur_state hd with_pos_cur type special_flags pos_begin
       nelem nescapes tok_state].
  match goal with
  | |- context [popCallback ?j ?st] =>
      change j with (mkE (st :: s' :: r) p tl ex false false B ns)
  end.
  rewrite (popCallback_key k _ p tl ex false false B q p restB ns 0 0%nat Hk HB Hp Hcap).
  reflexivity.
Qed.

(** A key and its colon. *)
Lemma key_and_colon (k : string) (so : jsonsl_state_st) r p tl ci B (restB : string) ns :
  type so = JSONSL_T_OBJECT -> Nat.even (nelem so) = true ->
  key_ok k = true ->
  drop p B = quoted k ++ restB ->
  (List.length r + 2 <= JSONSL_MAX_LEVELS)%nat ->
  (List.length ns < JSONSL_MAX_LEVELS)%nat ->
  Steps (quoted k ++ ":")
    (mk (so :: r) p tl DQUOTE ci B ns)
    (mk (with_pos_cur (p + 1 + String.length k) (bump so) :: r)
        (p + String.length (quoted k ++ ":")) ":" DQUOTE true B
        (Some (KeyValNode k None) :: ns)).
Proof.
  intros Ht He Hk HB Hlev Hcap.
  unfold quoted in *. cbn [append] in HB. rewrite append_assoc in HB. cbn [append] in HB.
  cbn [append]. rewrite !append_assoc. cbn [append].
  eapply Steps_cons; [apply step_open_key; assumption|].
  cbn [set_pos pos mkE stack tok_last expecting can_insert in_escape stopfl levels_max base data].
  eapply Steps_app.
  { apply (Steps_key k JSONSL_T_HKEY 0 p); [reflexivity | exact Hk]. }
  eapply Steps_cons.
  { cbn [Nat.add]. apply (step_close_key k (bump so) r _ NUL ":" false B p restB);
      try assumption. lia. }
  eapply Steps_cons.
  { apply step_colon. exact Ht. }
  same_state.
Qed.

(** ** The trees that come back *)

Definition in_llong (i : Z) : bool := (Libc.LLONG_MIN <=? i) && (i <=? Libc.LLONG_MAX).

(** No key of [todo] is in [done] or earlier in [todo]. *)
Fixpoint distinct_keys (done todo : list (option Node)) : bool :=
  match todo with
  | [] => true
  | e :: todo' =>
      match e with
      | Some (KeyValNode k _) => negb (has_key k done)
      | _ => true
      end && distinct_keys (done ++ [e]) todo'
  end.

(** A tree whose doubles have a text that is read back as a double and as
    the same one, whose integers are C integers, whose strings are ASCII
    without NUL, whose dictionaries hold pairs of distinct keys that need
    no escape, and that has pairs nowhere else. *)
Fixpoint faithful (n : Node) : bool :=
  let slot (x : option Node) := match x with Some c => faithful c | None => true end in
  let entry (x : option Node) :=
    match x with
    | Some (KeyValNode k v) => key_ok k && slot v
    | _ => false
    end in
  match n with
  | StringNode s => safe_string s
  | NumberNode v => double_ok v
  | IntegerNode i => in_llong i
  | BooleanNode _ => true
  | DictNode l => forallb entry l && distinct_keys [] l
  | ArrayNode l => forallb slot l
  | KeyValNode _ _ => false
  end.

Definition faithful_slot (x : option Node) : bool :=
  match x with Some c => faithful c | None => true end.

Definition faithful_entry (x : option Node) : bool :=
  match x with
  | Some (KeyValNode k v) => key_ok k && faithful_slot v
  | _ => false
  end.

(** The containers around the innermost value of a tree. *)
Fixpoint height (n : Node) : nat :=
  let slot (x : option Node) := match x with Some c => height c | None => O end in
  match n with
  | DictNode l | ArrayNode l => S (list_max (map slot l))
  | KeyValNode _ v => slot v
  | _ => O
  end.

Definition height_slot (x : option Node) : nat :=
  match x with Some c => height c | None => O end.

Definition is_container (x : option Node) : bool :=
  match x with
  | Some (DictNode _) | Some (ArrayNode _) => true
  | _ => false
  end.

Lemma faithful_dict (l : list (option Node)) :
  faithful (DictNode l) = forallb faithful_entry l && distinct_keys [] l.
Proof. reflexivity. Qed.

Lemma faithful_array (l : list (option Node)) :
  faithful (ArrayNode l) = forallb faithful_slot l.
Proof. reflexivity. Qed.

Lemma height_container (l : list (option Node)) :
  height (DictNode l) = S (list_max (map height_slot l)) /\
  height (ArrayNode l) = S (list_max (map height_slot l)).
Proof. split; reflexivity. Qed.

Lemma heights_below (l : list (option Node)) :
  Forall (fun x => (height_slot x <= list_max (map height_slot l))%nat) l.
Proof.
  apply Forall_forall. intros x Hx.
  assert (H : Forall (fun k => (k <= list_max (map height_slot l))%nat) (map height_slot l)).
  { apply list_max_le. lia. }
  rewrite Forall_forall in H. apply H. apply in_map. exact Hx.
Qed.

(** ** Bookkeeping of the input *)

Lemma drop_app_length (a b B : string) :
  forall p, drop p B = a ++ b -> drop (p + String.length a) B = b.
Proof.
  induction a as [|c a IH]; intros p H.
  - rewrite Nat.add_0_r. exact H.
  - cbn [append] in H. cbn [String.length].
    replace (p + S (String.length a))%nat with (S p + String.length a)%nat by lia.
    apply IH. apply (drop_S _ _ _ _ H).
Qed.

Lemma all_whitespace_app (a b : string) :
  all_whitespace (a ++ b) = all_whitespace a && all_whitespace b.
Proof.
  induction a as [|c a IH]; [reflexivity|].
  cbn [append all_whitespace]. rewrite IH, andb_assoc. reflexivity.
Qed.

Lemma all_whitespace_repeat (n : nat) (s : string) :
  all_whitespace s = true -> all_whitespace (repeat_string n s) = true.
Proof.
  intros H. induction n as [|n IH]; [reflexivity|].
  cbn [repeat_string]. rewrite all_whitespace_app, H, IH. reflexivity.
Qed.

Lemma follows_ws (w t : string) : all_whitespace w = true -> follows t -> follows (w ++ t).
Proof.
  destruct w as [|c w]; [auto|]. cbn [all_whitespace append follows]. intros H _.
  apply andb_true_iff in H as [H _]. apply (ws_byte_props c H).
Qed.

Lemma run_step (c : ascii) (t : string) st p tl ex ci B ns st' tl' ex' ci' ns' :
  stp c (mk st p tl ex ci B ns) = Next (mk st' p tl' ex' ci' B ns') ->
  run (String c t) (mk st p tl ex ci B ns) = run t (mk st' (S p) tl' ex' ci' B ns').
Proof. intros H. unfold run. cbn [feed_loop]. fold (stp c (mk st p tl ex ci B ns)). rewrite H. reflexivity. Qed.

Lemma run_ws (w t : string) s r p tl ex ci B ns :
  all_whitespace w = true -> container_type (type s) = true ->
  run (w ++ t) (mk (s :: r) p tl ex ci B ns) = run t (mk (s :: r) (p + String.length w) tl ex ci B ns).
Proof. intros Hw Hc. apply (Steps_ws w s r p tl ex ci B ns Hw Hc). Qed.

(** ** The scan of the text of a tree *)

Section RoundTrip.
Variables nlS indS spS : string.
Hypothesis Hnl : all_whitespace nlS = true.
Hypothesis Hind : all_whitespace indS = true.
Hypothesis Hsp : all_whitespace spS = true.

Local Abbreviation text := (render_slot nlS indS spS).
Local Abbreviation tail_text d := (render_tail nlS indS (render_slot nlS indS spS d) d).

(** The scan of the text of [x] where a value may stand sets [x] in its
    parent, and leaves the lexer after a value. *)
Definition parses (x : option Node) : Prop :=
  forall d P s tl r p ex B rest,
    faithful_slot x = true ->
    ready P s tl ->
    (P = P_root -> is_container x = true) ->
    drop p B = text d x ++ rest ->
    (is_container x = false -> follows rest) ->
    (List.length r + 2 + height_slot x <= JSONSL_MAX_LEVELS)%nat ->
    (List.length (nodes_before P) + 2 * height_slot x + 1 <= JSONSL_MAX_LEVELS)%nat ->
    exists s', type s' = type s /\ nelem s' = S (nelem s) /\
      run (text d x ++ rest) (mk (s :: r) p tl ex true B (nodes_before P))
      = run rest (mk (s' :: r) (p + String.length (text d x)) NUL "," false B
                    (nodes_after P x)).

Lemma parses_null : parses None.
Proof.
  intros d P s tl r p ex B rest _ Hr _ HB Hf Hlev Hcap.
  exists (with_pos_cur (p + 4) (bump s)). repeat split.
  apply (null_value P s tl r p ex B Hr); [lia | lia |]. apply Hf. reflexivity.
Qed.

Lemma parses_boolean (b : bool) : parses (Some (BooleanNode b)).
Proof.
  intros d P s tl r p ex B rest _ Hr _ HB Hf Hlev Hcap.
  exists (with_pos_cur (p + String.length (if b then "true" else "false")) (bump s)).
  repeat split.
  apply (boolean_value P b s tl r p ex B Hr); [lia | lia |]. apply Hf. reflexivity.
Qed.

Lemma parses_integer (i : Z) : parses (Some (IntegerNode i)).
Proof.
  intros d P s tl r p ex B rest Hw Hr _ HB Hf Hlev Hcap.
  cbn [faithful_slot faithful] in Hw. unfold in_llong in Hw.
  apply andb_true_iff in Hw as [H1 H2]. apply Z.leb_le in H1, H2.
  specialize (Hf eq_refl).
  exists (with_pos_cur (p + String.length (Libc.dec_signed i)) (bump s)).
  repeat split.
  apply (integer_value P i rest s tl r p ex B Hr); try lia.
  - exact HB.
  - apply follows_ends_number. exact Hf.
  - exact Hf.
Qed.

Lemma parses_number (v : Double.double) : parses (Some (NumberNode v)).
Proof.
  intros d P s tl r p ex B rest Hw Hr _ HB Hf Hlev Hcap.
  cbn [faithful_slot faithful] in Hw.
  specialize (Hf eq_refl).
  exists (with_pos_cur (p + String.length (number_text v)) (bump s)).
  repeat split.
  apply (double_value P v rest s tl r p ex B Hr Hw); try lia.
  - exact HB.
  - apply follows_ends_double. exact Hf.
  - exact Hf.
Qed.

Lemma parses_string (txt : string) : parses (Some (StringNode txt)).
Proof.
  intros d P s tl r p ex B rest Hw Hr Hroot HB Hf Hlev Hcap.
  cbn [faithful_slot faithful] in Hw.
  assert (Hn : P <> P_root).
  { intros E. specialize (Hroot E). discriminate Hroot. }
  exists (with_pos_cur (p + 1 + String.length (escape_string txt)) (bump s)).
  repeat split.
  apply (string_value P s tl r p ex B txt rest Hr Hn Hw HB); lia.
Qed.

Lemma follows_tail (d : nat) (l : list (option Node)) (rest : string) :
  follows rest -> follows (tail_text d l ++ rest).
Proof. destruct l as [|x l]; intros H; [exact H|reflexivity]. Qed.

Lemma indent_ws (d : nat) : all_whitespace (indent_text indS d) = true.
Proof. apply all_whitespace_repeat. exact Hind. Qed.

Lemma follows_closing (d : nat) (c : ascii) (rest : string) :
  follow c = true -> follows (nlS ++ indent_text indS d ++ String c rest).
Proof.
  intros H. apply follows_ws; [exact Hnl|]. apply follows_ws; [apply indent_ws|]. exact H.
Qed.

Lemma tail_text_cons (d : nat) (x : option Node) (l : list (option Node)) :
  tail_text d (x :: l) = "," ++ nlS ++ indent_text indS d ++ text d x ++ tail_text d l.
Proof. reflexivity. Qed.

Ltac finish_state :=
  f_equal; unfold mk, mkE;
  rewrite ?append_length; cbn [String.length]; rewrite ?append_length;
  repeat (f_equal; try lia).

(** The elements of an array after the first one. *)
Lemma array_tail (d : nat) rr ns B (H : nat) :
  (List.length rr + 2 + H <= JSONSL_MAX_LEVELS)%nat ->
  (List.length ns + 3 + 2 * H <= JSONSL_MAX_LEVELS)%nat ->
  forall l,
    Forall parses l -> forallb faithful_slot l = true ->
    Forall (fun x => (height_slot x <= H)%nat) l ->
    forall done sl p rest,
      type sl = JSONSL_T_LIST ->
      drop p B = tail_text d l ++ rest ->
      follows rest ->
      exists sl', type sl' = JSONSL_T_LIST /\
        run (tail_text d l ++ rest)
            (mk (sl :: rr) p NUL "," false B (Some (ArrayNode done) :: ns))
        = run rest (mk (sl' :: rr) (p + String.length (tail_text d l)) NUL "," false B
                      (Some (ArrayNode (done ++ l)) :: ns)).
Proof.
  intros Hlev Hcap l. induction l as [|x l IH]; intros Hp Hw Hh done sl p rest Ht HB Hf.
  - exists sl. split; [exact Ht|]. cbn [render_tail fold_right append String.length].
    rewrite Nat.add_0_r, app_nil_r. reflexivity.
  - inversion Hp as [|x' l' Hx Hl Heq]; clear Heq Hp.
    inversion Hh as [|x'' l'' Hhx Hhl Heq]; clear Heq Hh.
    cbn [forallb] in Hw. apply andb_true_iff in Hw as [Hwx Hwl].
    rewrite tail_text_cons in *. norm_app. revert HB. norm_app. intros HB.
    (* the comma *)
    pose proof (step_comma sl rr p false B (Some (ArrayNode done) :: ns) (or_introl Ht)) as Hc.
    rewrite Ht in Hc. rewrite (run_step _ _ _ _ _ _ _ _ _ _ _ _ _ _ Hc).
    apply drop_S in HB.
    (* the newline and the indentation *)
    assert (Hct : container_type (type sl) = true) by (rewrite Ht; reflexivity).
    rewrite (run_ws nlS _ sl rr _ _ _ _ B _ Hnl Hct).
    apply drop_app_length in HB.
    rewrite (run_ws (indent_text indS d) _ sl rr _ _ _ _ B _ (indent_ws d) Hct).
    apply drop_app_length in HB.
    (* the element *)
    destruct (Hx d (P_array done ns) sl ","%char rr
                (S p + String.length nlS + String.length (indent_text indS d))%nat
                DQUOTE B (tail_text d l ++ rest) Hwx Ht) as (sl1 & Ht1 & _ & Hrun).
    + discriminate.
    + exact HB.
    + intros _. apply follows_tail. exact Hf.
    + lia.
    + cbn [nodes_before List.length]. lia.
    + cbn [nodes_before nodes_after] in Hrun. rewrite Hrun. clear Hrun.
      apply drop_app_length in HB.
      destruct (IH Hl Hwl Hhl (done ++ [x])%list sl1 _ rest (eq_trans Ht1 Ht) HB Hf)
        as (sl2 & Ht2 & Hrun).
      rewrite Hrun. exists sl2. split; [exact Ht2|].
      rewrite <- app_assoc. cbn [app].
      finish_state.
Qed.

Lemma run_key (k : string) (t : string) (so : jsonsl_state_st) r p tl ci B ns :
  type so = JSONSL_T_OBJECT -> Nat.even (nelem so) = true ->
  key_ok k = true ->
  drop p B = quoted k ++ String ":" t ->
  (List.length r + 2 <= JSONSL_MAX_LEVELS)%nat ->
  (List.length ns < JSONSL_MAX_LEVELS)%nat ->
  run (quoted k ++ String ":" t) (mk (so :: r) p tl DQUOTE ci B ns)
    = run t (mk (with_pos_cur (p + 1 + String.length k) (bump so) :: r)
               (p + String.length (quoted k) + 1) ":" DQUOTE true B
               (Some (KeyValNode k None) :: ns)).
Proof.
  intros Ht He Hk HB Hlev Hcap.
  pose proof (key_and_colon k so r p tl ci B (String ":" t) ns Ht He Hk HB Hlev Hcap t) as H.
  rewrite append_assoc in H. cbn [append] in H. rewrite H.
  finish_state.
Qed.

(** A key, its colon and its value. *)
Lemma entry_parse (d : nat) rr ns B (k : string) (v : option Node) :
  parses v -> key_ok k = true -> faithful_slot v = true ->
  (List.length rr + 2 + height_slot v <= JSONSL_MAX_LEVELS)%nat ->
  (List.length ns + 3 + 2 * height_slot v <= JSONSL_MAX_LEVELS)%nat ->
  forall done so p tl ci rest,
    type so = JSONSL_T_OBJECT -> Nat.even (nelem so) = true ->
    has_key k done = false ->
    drop p B = text d (Some (KeyValNode k v)) ++ rest ->
    follows rest ->
    exists so', type so' = JSONSL_T_OBJECT /\ Nat.even (nelem so') = true /\
      run (text d (Some (KeyValNode k v)) ++ rest)
          (mk (so :: rr) p tl DQUOTE ci B (Some (DictNode done) :: ns))
      = run rest (mk (so' :: rr) (p + String.length (text d (Some (KeyValNode k v))))
                    NUL "," false B
                    (Some (DictNode (done ++ [Some (KeyValNode k v)])) :: ns)).
Proof.
  intros Hv Hk Hw Hlev Hcap done so p tl ci rest Ht He Hfresh HB Hf.
  cbn [render_slot render] in *. fold (text d v) in *.
  rewrite (key_c_str k Hk) in *.
  norm_app. revert HB. norm_app. intros HB.
  rewrite (run_key k _ so rr p tl ci B _ Ht He Hk HB); [|lia|cbn [List.length]; lia].
  apply drop_app_length in HB. apply drop_S in HB.
  assert (Hct : container_type (type (with_pos_cur (p + 1 + String.length k) (bump so))) = true).
  { cbn [with_pos_cur bump with_nelem type]. rewrite Ht. reflexivity. }
  rewrite (run_ws spS _ _ rr _ _ _ _ B _ Hsp Hct).
  replace (S (p + String.length (quoted k)))
    with (p + String.length (quoted k) + 1)%nat in HB by lia.
  apply drop_app_length in HB.
  destruct (Hv d (P_dict k done ns) (with_pos_cur (p + 1 + String.length k) (bump so))
              ":"%char rr (p + String.length (quoted k) + 1 + String.length spS)%nat
              DQUOTE B rest Hw) as (so1 & Ht1 & Hn1 & Hrun).
  - cbn [ready with_pos_cur bump with_nelem type nelem]. repeat split; try assumption.
    rewrite Nat.odd_succ. exact He.
  - discriminate.
  - exact HB.
  - intros _. exact Hf.
  - lia.
  - cbn [nodes_before List.length]. lia.
  - cbn [nodes_before nodes_after] in Hrun. rewrite Hrun.
    exists so1. cbn [with_pos_cur bump with_nelem type nelem] in Ht1, Hn1.
    split; [congruence|]. split.
    + rewrite Hn1, Nat.even_succ, Nat.odd_succ. exact He.
    + finish_state.
Qed.

Definition parses_entry (e : option Node) : Prop :=
  match e with
  | Some (KeyValNode _ v) => parses v
  | _ => True
  end.

(** The entries of a dictionary after the first one. *)
Lemma dict_tail (d : nat) rr ns B (H : nat) :
  (List.length rr + 2 + H <= JSONSL_MAX_LEVELS)%nat ->
  (List.length ns + 3 + 2 * H <= JSONSL_MAX_LEVELS)%nat ->
  forall l,
    Forall parses_entry l -> forallb faithful_entry l = true ->
    Forall (fun x => (height_slot x <= H)%nat) l ->
    forall done so p rest,
      type so = JSONSL_T_OBJECT -> Nat.even (nelem so) = true ->
      distinct_keys done l = true ->
      drop p B = tail_text d l ++ rest ->
      follows rest ->
      exists so', type so' = JSONSL_T_OBJECT /\ Nat.even (nelem so') = true /\
        run (tail_text d l ++ rest)
            (mk (so :: rr) p NUL "," false B (Some (DictNode done) :: ns))
        = run rest (mk (so' :: rr) (p + String.length (tail_text d l)) NUL "," false B
                      (Some (DictNode (done ++ l)) :: ns)).
Proof.
  intros Hlev Hcap l. induction l as [|e l IH];
    intros Hp Hw Hh done so p rest Ht He Hdk HB Hf.
  - exists so. split; [exact Ht|]. split; [exact He|].
    cbn [render_tail fold_right append String.length].
    rewrite Nat.add_0_r, app_nil_r. reflexivity.
  - inversion Hp as [|x' l' Hx Hl Heq]; clear Heq Hp.
    inversion Hh as [|x'' l'' Hhx Hhl Heq]; clear Heq Hh.
    cbn [forallb] in Hw. apply andb_true_iff in Hw as [Hwx Hwl].
    destruct e as [[ | | | | | |k v]|]; try discriminate Hwx.
    cbn [faithful_entry] in Hwx. apply andb_true_iff in Hwx as [Hk Hwv].
    cbn [distinct_keys] in Hdk. apply andb_true_iff in Hdk as [Hfresh Hdk].
    apply negb_true_iff in Hfresh.
    cbn [parses_entry] in Hx. cbn [height_slot height] in Hhx. fold (height_slot v) in Hhx.
    rewrite tail_text_cons in *. norm_app. revert HB. norm_app. intros HB.
    (* the comma *)
    pose proof (step_comma so rr p false B (Some (DictNode done) :: ns) (or_intror Ht)) as Hc.
    rewrite Ht in Hc. rewrite (run_step _ _ _ _ _ _ _ _ _ _ _ _ _ _ Hc).
    apply drop_S in HB.
    (* the newline and the indentation *)
    assert (Hct : container_type (type so) = true) by (rewrite Ht; reflexivity).
    rewrite (run_ws nlS _ so rr _ _ _ _ B _ Hnl Hct).
    apply drop_app_length in HB.
    rewrite (run_ws (indent_text indS d) _ so rr _ _ _ _ B _ (indent_ws d) Hct).
    apply drop_app_length in HB.
    (* the entry *)
    destruct (entry_parse d rr ns B k v Hx Hk Hwv) with
      (done := done) (so := so) (tl := ","%char) (ci := false)
      (p := (S p + String.length nlS + String.length (indent_text indS d))%nat)
      (rest := tail_text d l ++ rest)
      as (so1 & Ht1 & He1 & Hrun); try assumption; try lia.
    + apply follows_tail. exact Hf.
    + rewrite Hrun. clear Hrun.
      apply drop_app_length in HB.
      destruct (IH Hl Hwl Hhl (done ++ [Some (KeyValNode k v)])%list so1 _ rest
                  Ht1 He1 Hdk HB Hf) as (so2 & Ht2 & He2 & Hrun).
      rewrite Hrun. exists so2. split; [exact Ht2|]. split; [exact He2|].
      rewrite <- app_assoc. cbn [app].
      finish_state.
Qed.

Lemma text_array (d : nat) (l : list (option Node)) :
  text d (Some (ArrayNode l)) = render_entries nlS indS (text (S d)) d l "[" "]".
Proof. reflexivity. Qed.

Lemma text_dict (d : nat) (l : list (option Node)) :
  text d (Some (DictNode l)) = render_entries nlS indS (text (S d)) d l "{" "}".
Proof. reflexivity. Qed.

Lemma after_close (s : jsonsl_state_st) r (q p1 p2 : nat) B ns (rest : string) :
  p1 = p2 ->
  exists s', type s' = type s /\ nelem s' = S (nelem s) /\
    run rest (mk (with_pos_cur q (bump s) :: r) p1 NUL "," false B ns)
    = run rest (mk (s' :: r) p2 NUL "," false B ns).
Proof. intros ->. exists (with_pos_cur q (bump s)). repeat split. Qed.

Ltac lengths :=
  repeat (progress (rewrite ?append_length; cbn [String.length])); lia.

Lemma closes_array (sl : jsonsl_state_st) (l : list (option Node)) :
  type sl = JSONSL_T_LIST -> closes "]" sl (ArrayNode l).
Proof. intros H. left. repeat split; [exact H|]. exists l. reflexivity. Qed.

Lemma closes_dict (so : jsonsl_state_st) (l : list (option Node)) :
  type so = JSONSL_T_OBJECT -> Nat.even (nelem so) = true -> closes "}" so (DictNode l).
Proof. intros H He. right. repeat split; [exact H|exact He|]. exists l. reflexivity. Qed.

(** An array. *)
Lemma parses_array (l : list (option Node)) :
  Forall parses l -> parses (Some (ArrayNode l)).
Proof.
  intros Hp d P s tl r p ex B rest Hw Hr _ HB _ Hlev Hcap.
  cbn [faithful_slot] in Hw. rewrite faithful_array in Hw.
  cbn [height_slot] in Hlev, Hcap. rewrite (proj2 (height_container l)) in Hlev, Hcap.
  pose proof (heights_below l) as Hh.
  set (H := list_max (map height_slot l)) in *.
  rewrite text_array in *.
  pose proof (step_open P "[" JSONSL_T_LIST (ArrayNode []) s tl r p ex B
                (or_introl (conj eq_refl (conj eq_refl eq_refl))) Hr) as Ho.
  change (("[" =? "{")%char) with false in Ho. cbv iota in Ho.
  assert (Hct : container_type (type (tok_state JSONSL_T_LIST 0 p 0)) = true) by reflexivity.
  destruct l as [|x l].
  - cbn [render_entries] in *. norm_app. revert HB. norm_app. intros HB.
    rewrite (run_step _ _ _ _ _ _ _ _ _ _ _ _ _ _ (Ho ltac:(lia) ltac:(lia))).
    apply drop_S in HB.
    rewrite (run_ws (indent_text indS d) _ _ _ _ _ _ _ B _ (indent_ws d) Hct).
    apply drop_app_length in HB.
    rewrite (run_step _ _ _ _ _ _ _ _ _ _ _ _ _ _
               (step_close P s tl "]" (tok_state JSONSL_T_LIST 0 p 0) (bump s)
                  (ArrayNode []) r _ ex true B Hr
                  (closes_array (tok_state JSONSL_T_LIST 0 p 0) [] eq_refl))).
    apply after_close. lengths.
  - inversion Hp as [|x' l' Hx Hl Heq]; clear Heq Hp.
    inversion Hh as [|x'' l'' Hhx Hhl Heq]; clear Heq Hh.
    cbn [forallb] in Hw. apply andb_true_iff in Hw as [Hwx Hwl].
    cbn [render_entries] in *. fold (tail_text (S d) l) in *.
    norm_app. revert HB. norm_app. intros HB.
    rewrite (run_step _ _ _ _ _ _ _ _ _ _ _ _ _ _ (Ho ltac:(lia) ltac:(lia))).
    apply drop_S in HB.
    rewrite (run_ws nlS _ _ _ _ _ _ _ B _ Hnl Hct).
    apply drop_app_length in HB.
    rewrite (run_ws (indent_text indS (S d)) _ _ _ _ _ _ _ B _ (indent_ws (S d)) Hct).
    apply drop_app_length in HB.
    (* the first element *)
    destruct (Hx (S d) (P_array [] (nodes_before P)) (tok_state JSONSL_T_LIST 0 p 0)
                NUL (bump s :: r)
                (S p + String.length nlS + String.length (indent_text indS (S d)))%nat
                ex B (tail_text (S d) l ++ nlS ++ indent_text indS d ++ String "]" rest)
                Hwx eq_refl) as (sl1 & Ht1 & _ & Hrun).
    + discriminate.
    + exact HB.
    + intros _. apply follows_tail. apply follows_closing. reflexivity.
    + cbn [List.length]. lia.
    + cbn [nodes_before List.length]. lia.
    + cbn [nodes_before nodes_after] in Hrun. rewrite Hrun. clear Hrun.
      apply drop_app_length in HB.
      (* the other elements *)
      destruct (array_tail (S d) (bump s :: r) (nodes_before P) B H) with
        (l := l) (done := ([] ++ [x])%list) (sl := sl1)
        (p := (S p + String.length nlS + String.length (indent_text indS (S d))
               + String.length (text (S d) x))%nat)
        (rest := nlS ++ indent_text indS d ++ String "]" rest)
        as (sl2 & Ht2 & Hrun); try assumption.
      * cbn [List.length]. lia.
      * lia.
      * apply follows_closing. reflexivity.
      * rewrite Hrun. clear Hrun.
        apply drop_app_length in HB.
        assert (Hct2 : container_type (type sl2) = true) by (rewrite Ht2; reflexivity).
        rewrite (run_ws nlS _ _ _ _ _ _ _ B _ Hnl Hct2).
        rewrite (run_ws (indent_text indS d) _ _ _ _ _ _ _ B _ (indent_ws d) Hct2).
        rewrite (run_step _ _ _ _ _ _ _ _ _ _ _ _ _ _
                   (step_close P s tl "]" sl2 (bump s) (ArrayNode (([] ++ [x]) ++ l)) r _
                      "," false B Hr (closes_array sl2 _ Ht2))).
        apply after_close. lengths.
Qed.

(** A dictionary. *)
Lemma parses_dict (l : list (option Node)) :
  Forall parses_entry l -> parses (Some (DictNode l)).
Proof.
  intros Hp d P s tl r p ex B rest Hw Hr _ HB _ Hlev Hcap.
  cbn [faithful_slot] in Hw. rewrite faithful_dict in Hw.
  apply andb_true_iff in Hw as [Hw Hdk].
  cbn [height_slot] in Hlev, Hcap. rewrite (proj1 (height_container l)) in Hlev, Hcap.
  pose proof (heights_below l) as Hh.
  set (H := list_max (map height_slot l)) in *.
  rewrite text_dict in *.
  pose proof (step_open P "{" JSONSL_T_OBJECT (DictNode []) s tl r p ex B
                (or_intror (conj eq_refl (conj eq_refl eq_refl))) Hr) as Ho.
  change (("{" =? "{")%char) with true in Ho. cbv iota in Ho.
  assert (Hct : container_type (type (tok_state JSONSL_T_OBJECT 0 p 0)) = true) by reflexivity.
  destruct l as [|e l].
  - cbn [render_entries] in *. norm_app. revert HB. norm_app. intros HB.
    rewrite (run_step _ _ _ _ _ _ _ _ _ _ _ _ _ _ (Ho ltac:(lia) ltac:(lia))).
    apply drop_S in HB.
    rewrite (run_ws (indent_text indS d) _ _ _ _ _ _ _ B _ (indent_ws d) Hct).
    apply drop_app_length in HB.
    rewrite (run_step _ _ _ _ _ _ _ _ _ _ _ _ _ _
               (step_close P s tl "}" (tok_state JSONSL_T_OBJECT 0 p 0) (bump s)
                  (DictNode []) r _ DQUOTE true B Hr
                  (closes_dict (tok_state JSONSL_T_OBJECT 0 p 0) [] eq_refl eq_refl))).
    apply after_close. lengths.
  - inversion Hp as [|x' l' Hx Hl Heq]; clear Heq Hp.
    inversion Hh as [|x'' l'' Hhx Hhl Heq]; clear Heq Hh.
    cbn [forallb] in Hw. apply andb_true_iff in Hw as [Hwx Hwl].
    destruct e as [[ | | | | | |k v]|]; try discriminate Hwx.
    cbn [faithful_entry] in Hwx. apply andb_true_iff in Hwx as [Hk Hwv].
    cbn [distinct_keys] in Hdk. apply andb_true_iff in Hdk as [_ Hdk].
    cbn [parses_entry] in Hx. cbn [height_slot height] in Hhx. fold (height_slot v) in Hhx.
    cbn [render_entries] in *. fold (tail_text (S d) l) in *.
    norm_app. revert HB. norm_app. intros HB.
    rewrite (run_step _ _ _ _ _ _ _ _ _ _ _ _ _ _ (Ho ltac:(lia) ltac:(lia))).
    apply drop_S in HB.
    rewrite (run_ws nlS _ _ _ _ _ _ _ B _ Hnl Hct).
    apply drop_app_length in HB.
    rewrite (run_ws (indent_text indS (S d)) _ _ _ _ _ _ _ B _ (indent_ws (S d)) Hct).
    apply drop_app_length in HB.
    (* the first entry *)
    destruct (entry_parse (S d) (bump s :: r) (nodes_before P) B k v Hx Hk Hwv) with
      (done := @nil (option Node)) (so := tok_state JSONSL_T_OBJECT 0 p 0)
      (tl := NUL) (ci := true)
      (p := (S p + String.length nlS + String.length (indent_text indS (S d)))%nat)
      (rest := tail_text (S d) l ++ nlS ++ indent_text indS d ++ String "}" rest)
      as (so1 & Ht1 & He1 & Hrun); try assumption; try reflexivity.
    + cbn [List.length]. lia.
    + lia.
    + apply follows_tail. apply follows_closing. reflexivity.
    + rewrite Hrun. clear Hrun.
      apply drop_app_length in HB.
      (* the other entries *)
      destruct (dict_tail (S d) (bump s :: r) (nodes_before P) B H) with
        (l := l) (done := ([] ++ [Some (KeyValNode k v)])%list) (so := so1)
        (p := (S p + String.length nlS + String.length (indent_text indS (S d))
               + String.length (text (S d) (Some (KeyValNode k v))))%nat)
        (rest := nlS ++ indent_text indS d ++ String "}" rest)
        as (so2 & Ht2 & He2 & Hrun); try assumption.
      * cbn [List.length]. lia.
      * lia.
      * apply follows_closing. reflexivity.
      * rewrite Hrun. clear Hrun.
        apply drop_app_length in HB.
        assert (Hct2 : container_type (type so2) = true) by (rewrite Ht2; reflexivity).
        rewrite (run_ws nlS _ _ _ _ _ _ _ B _ Hnl Hct2).
        rewrite (run_ws (indent_text indS d) _ _ _ _ _ _ _ B _ (indent_ws d) Hct2).
        rewrite (run_step _ _ _ _ _ _ _ _ _ _ _ _ _ _
                   (step_close P s tl "}" so2 (bump s)
                      (DictNode (([] ++ [Some (KeyValNode k v)]) ++ l)) r _
                      "," false B Hr (closes_dict so2 _ Ht2 He2))).
        apply after_close. lengths.
Qed.

(** Every tree. *)
Definition parses_node (n : Node) : Prop :=
  match n with
  | KeyValNode _ v => parses v
  | _ => parses (Some n)
  end.

Lemma parses_slot (x : option Node) : on_slot parses_node x -> parses x.
Proof.
  destruct x as [n|]; [|intros _; apply parses_null].
  destruct n; cbn [on_slot parses_node]; try (intros H; exact H).
  intros _ d P s tl r p ex B rest Hw. discriminate Hw.
Qed.

Lemma parses_all (n : Node) : parses_node n.
Proof.
  induction n using Node_induction; cbn [parses_node].
  - apply parses_string.
  - apply parses_number.
  - apply parses_integer.
  - apply parses_boolean.
  - apply parses_dict. apply Forall_forall. intros e He.
    rewrite Forall_forall in H. specialize (H e He).
    destruct e as [[ | | | | | |k v]|]; cbn [parses_entry]; try exact I.
    cbn [on_slot parses_node] in H. exact H.
  - apply parses_array. apply Forall_forall. intros e He.
    rewrite Forall_forall in H. apply parses_slot. apply (H e He).
  - apply parses_slot. assumption.
Qed.

Lemma parses_any (x : option Node) : parses x.
Proof.
  apply parses_slot. destruct x as [n|]; [apply parses_all | exact I].
Qed.
End RoundTrip.

(** ** From the serializer to the parser *)

Lemma dec_signed_first (i : Z) :
  exists c t, Libc.dec_signed i = String c t /\ (c = "-"%char \/ Libc.isdigit c = true).
Proof.
  unfold Libc.dec_signed. destruct (i <? 0) eqn:E.
  - exists "-"%char, (Libc.dec_unsigned (- i)). split; [reflexivity | left; reflexivity].
  - apply Z.ltb_ge in E. destruct (dec_unsigned_spec i E) as (Hd & Hne & _).
    destruct (Libc.dec_unsigned i) as [|c ds]; [congruence|].
    cbn [all_digits] in Hd. apply andb_true_iff in Hd as [Hc _].
    exists c, ds. split; [reflexivity | right; exact Hc].
Qed.

Lemma number_first (c : ascii) :
  c = "-"%char \/ Libc.isdigit c = true ->
  _IsAllowedWhitespace c = false /\ (negb (c =? "{")%char && negb (c =? "[")%char) = true.
Proof.
  intros [->|H]; [split; reflexivity|].
  destruct c as [[] [] [] [] [] [] [] []]; try discriminate H; split; reflexivity.
Qed.

(** The text of a tree begins with a byte that is not whitespace, a brace
    or a bracket for a container and no other value. *)
Lemma text_first (nlS indS spS : string) (x : option Node) :
  faithful_slot x = true ->
  exists c t, render_slot nlS indS spS 0 x = String c t /\
    _IsAllowedWhitespace c = false /\
    (negb (c =? "{")%char && negb (c =? "[")%char) = negb (is_container x).
Proof.
  intros Hw. destruct x as [[s|v|i|b|l|l|k v]|]; try discriminate Hw.
  - eexists _, _. split; [reflexivity|]. split; reflexivity.
  - cbn [faithful_slot faithful] in Hw.
    destruct (double_ok_spec v Hw) as (_ & Htok & _).
    cbn [render_slot render].
    destruct (number_text v) as [|c t]; [discriminate Htok|].
    cbn [float_token] in Htok. apply andb_true_iff in Htok as [Htok _].
    apply andb_true_iff in Htok as [Hc _].
    exists c, t. split; [reflexivity|]. apply number_first.
    apply orb_true_iff in Hc as [Hc|Hc]; [left; apply Ascii.eqb_eq; exact Hc | right; exact Hc].
  - destruct (dec_signed_first i) as (c & t & E & Hc).
    exists c, t. split; [exact E|]. apply number_first. exact Hc.
  - destruct b; eexists _, _; (split; [reflexivity|]); split; reflexivity.
  - destruct l; eexists _, _; (split; [reflexivity|]); split; reflexivity.
  - destruct l; eexists _, _; (split; [reflexivity|]); split; reflexivity.
  - eexists _, _. split; [reflexivity|]. split; reflexivity.
Qed.

Definition root_state : jsonsl_state_st := new_state JSONSL_T_UNKNOWN 0.

Lemma scan_run (buf : string) :
  scan buf = run buf (mk [root_state] 0 NUL NUL true buf []).
Proof. reflexivity. Qed.

(** The scan of the text of a container. *)
Lemma scan_container (nlS indS spS : string) (x : option Node) :
  all_whitespace nlS = true -> all_whitespace indS = true -> all_whitespace spS = true ->
  faithful_slot x = true -> is_container x = true -> (height_slot x <= 255)%nat ->
  exists s' p,
    nelem s' = 1%nat /\
    scan (render_slot nlS indS spS 0 x) = mk [s'] p NUL "," false (render_slot nlS indS spS 0 x) [x].
Proof.
  intros Hnl Hind Hsp Hw Hc Hh.
  destruct (parses_any nlS indS spS Hnl Hind Hsp x 0%nat P_root root_state NUL [] 0%nat NUL
              (render_slot nlS indS spS 0 x) "" Hw eq_refl) as (s' & _ & Hn & Hrun).
  - intros _. exact Hc.
  - rewrite append_nil_r. reflexivity.
  - rewrite Hc. discriminate.
  - cbn [List.length]. unfold JSONSL_MAX_LEVELS. lia.
  - cbn [nodes_before List.length]. unfold JSONSL_MAX_LEVELS. lia.
  - rewrite append_nil_r in Hrun. rewrite scan_run.
    cbn [nodes_before nodes_after] in Hrun. rewrite Hrun.
    exists s', (0 + String.length (render_slot nlS indS spS 0 x))%nat.
    split; [exact Hn | reflexivity].
Qed.

(** The scan of the text of a scalar between brackets. *)
Lemma scan_scalar (nlS indS spS : string) (x : option Node) :
  all_whitespace nlS = true -> all_whitespace indS = true -> all_whitespace spS = true ->
  faithful_slot x = true -> is_container x = false ->
  exists s' p,
    nelem s' = 1%nat /\
    scan (scalar_wrap (render_slot nlS indS spS 0 x) 0)
      = mk [s'] p NUL "," false (scalar_wrap (render_slot nlS indS spS 0 x) 0)
          [Some (ArrayNode [x])].
Proof.
  intros Hnl Hind Hsp Hw Hc.
  assert (Hh : height_slot x = 0%nat).
  { destruct x as [[ | | | | | | ]|]; try discriminate Hc; try discriminate Hw; reflexivity. }
  set (T := render_slot nlS indS spS 0 x).
  set (B := scalar_wrap T 0).
  assert (HB : B = String "[" (T ++ "]")) by reflexivity.
  assert (Hscan : exists s' p, nelem s' = 1%nat /\
            run (String "[" (T ++ "]")) (mk [root_state] 0 NUL NUL true B [])
            = mk [s'] p NUL "," false B [Some (ArrayNode [x])]).
  { pose proof (step_open P_root "[" JSONSL_T_LIST (ArrayNode []) root_state NUL [] 0%nat NUL B
                  (or_introl (conj eq_refl (conj eq_refl eq_refl))) eq_refl) as Ho.
    change (("[" =? "{")%char) with false in Ho. cbv iota in Ho.
    cbn [nodes_before List.length] in Ho.
    rewrite (run_step _ _ _ _ _ _ _ _ _ _ _ _ _ _
               (Ho ltac:(unfold JSONSL_MAX_LEVELS; lia) ltac:(unfold JSONSL_MAX_LEVELS; lia))).
    destruct (parses_any nlS indS spS Hnl Hind Hsp x 0%nat (P_array [] [])
                (tok_state JSONSL_T_LIST 0 0 0) NUL [bump root_state] 1%nat NUL B "]" Hw eq_refl)
      as (s1 & Ht1 & _ & Hrun).
    - discriminate.
    - rewrite HB. reflexivity.
    - intros _. reflexivity.
    - rewrite Hh. cbn [List.length]. unfold JSONSL_MAX_LEVELS. lia.
    - rewrite Hh. cbn [nodes_before List.length]. unfold JSONSL_MAX_LEVELS. lia.
    - fold T in Hrun. cbn [nodes_before nodes_after] in Hrun. rewrite Hrun.
      rewrite (run_step _ _ _ _ _ _ _ _ _ _ _ _ _ _
                 (step_close P_root root_state NUL "]" s1 (bump root_state)
                    (ArrayNode ([] ++ [x])) [] _ "," false B eq_refl
                    (closes_array s1 _ Ht1))).
      eexists _, _. split; [|reflexivity]. reflexivity. }
  destruct Hscan as (s' & p & Hn & Hscan).
  exists s', p. split; [exact Hn|]. rewrite scan_run. exact Hscan.
Qed.

(** The options whose strings are whitespace. *)
Definition blank_options (o : JSONSerializeOpt) : Prop :=
  all_whitespace (sdsnew_opt (opt_newlinestr o)) = true /\
  all_whitespace (sdsnew_opt (opt_indentstr o)) = true /\
  all_whitespace (sdsnew_opt (opt_spacestr o)) = true.

Section RoundTripParser.
Variable strerror : jsonsl_error_t -> string.

(** What [CreateNodeFromJSON] returns for the text of a tree. *)
Lemma CreateNodeFromJSON_text (nlS indS spS : string) (x : option Node) :
  all_whitespace nlS = true -> all_whitespace indS = true -> all_whitespace spS = true ->
  faithful_slot x = true -> (height_slot x <= 255)%nat ->
  ret (CreateNodeFromJSON strerror (render_slot nlS indS spS 0 x)) = JSONOBJECT_OK /\
  node (CreateNodeFromJSON strerror (render_slot nlS indS spS 0 x)) = Some x /\
  leftover (CreateNodeFromJSON strerror (render_slot nlS indS spS 0 x)) = [] /\
  undefined (CreateNodeFromJSON strerror (render_slot nlS indS spS 0 x)) = false.
Proof.
  intros Hnl Hind Hsp Hw Hh.
  destruct (text_first nlS indS spS x Hw) as (c & t & HT & Hws & Hsc).
  pose proof (scan_container nlS indS spS x Hnl Hind Hsp Hw) as Hcont.
  pose proof (scan_scalar nlS indS spS x Hnl Hind Hsp Hw) as Hscal.
  unfold CreateNodeFromJSON.
  set (T := render_slot nlS indS spS 0 x) in *.
  assert (Hm : munch_whitespace T 0 = (0%nat, [0%nat])).
  { rewrite HT. cbn [munch_whitespace]. rewrite Hws. reflexivity. }
  assert (Hs : is_scalar_at T 0 = negb (is_container x)).
  { rewrite HT. cbn [is_scalar_at String.get]. exact Hsc. }
  rewrite Hm, Hs.
  destruct (is_container x) eqn:Hc; cbn [negb].
  - destruct (Hcont eq_refl Hh) as (s' & p & Hn & Hscan). rewrite Hscan.
    cbn [data mk mkE ok_ctx err nodes fault level stack List.length Nat.sub Nat.eqb negb
         stack0 last]. rewrite Hn. cbn [Nat.eqb]. repeat split.
  - destruct (Hscal eq_refl) as (s' & p & Hn & Hscan). rewrite Hscan.
    cbn [data mk mkE ok_ctx err nodes fault level stack List.length Nat.sub Nat.eqb negb
         stack0 last]. rewrite Hn. cbn [Nat.eqb]. repeat split.
Qed.
End RoundTripParser.

(** ** Round trip *)

(** A tree without NaN and infinite doubles. *)
Fixpoint finite_doubles (n : Node) : bool :=
  let slot (x : option Node) := match x with Some c => finite_doubles c | None => true end in
  match n with
  | NumberNode v => is_finite v
  | DictNode l | ArrayNode l => forallb slot l
  | KeyValNode _ v => slot v
  | _ => true
  end.


Ltac evaluate :=
  repeat match goal with |- _ /\ _ => split; [vm_compute; reflexivity|] end;
  vm_compute; reflexivity.

(** Other trees that do not come back: a string with a NUL byte, whose text
    the lexer rejects; a string with a byte above 127, which comes back as
    two bytes; a pair that is not in a dictionary; a dictionary entry that
    is not a pair; a key with a quotation mark, which is written as it is;
    a key that occurs twice; a double too large for an integer, written
    without fraction; a double above 1e9 with a fraction, written with six
    decimals; a tree written with an indentation that is not whitespace. *)
Lemma trees_that_do_not_come_back :
  parsed (CreateNodeFromJSON (fun _ => "")
            (SerializeNodeToJSON (Some (StringNode (String NUL ""))) compact "")) = None /\
  parsed (CreateNodeFromJSON (fun _ => "")
            (SerializeNodeToJSON (Some (StringNode (String (ascii_of_nat 200) ""))) compact ""))
    = Some (Some (StringNode (String (ascii_of_nat 195) (String (ascii_of_nat 136) "")))) /\
  parsed (CreateNodeFromJSON (fun _ => "")
            (SerializeNodeToJSON (Some (KeyValNode "a" None)) compact "")) = None /\
  parsed (CreateNodeFromJSON (fun _ => "")
            (SerializeNodeToJSON (Some (DictNode [None])) compact "")) = None /\
  parsed (CreateNodeFromJSON (fun _ => "")
            (SerializeNodeToJSON
               (Some (DictNode [Some (KeyValNode (String DQUOTE "") None)])) compact ""))
    = None /\
  parsed (CreateNodeFromJSON (fun _ => "")
            (SerializeNodeToJSON
               (Some (DictNode [Some (KeyValNode "a" None); Some (KeyValNode "a" None)]))
               compact ""))
    = Some (Some (DictNode [Some (KeyValNode "a" None)])) /\
  parsed (CreateNodeFromJSON (fun _ => "")
            (SerializeNodeToJSON (Some (NumberNode (dec 1 19))) compact "")) = None /\
  parsed (CreateNodeFromJSON (fun _ => "")
            (SerializeNodeToJSON (Some (NumberNode (dec 12345678905 (-1)))) compact ""))
    = Some (Some (NumberNode (dec 1234568 3))) /\
  parsed (CreateNodeFromJSON (fun _ => "")
            (SerializeNodeToJSON (Some (ArrayNode [Some (ArrayNode [])]))
               {| opt_indentstr := Some "x"; opt_newlinestr := None; opt_spacestr := None |}
               ""))
    = None.
Proof. evaluate. Qed.

(** [n] dictionaries of one entry around a value. *)
Fixpoint nest (n : nat) (x : option Node) : option Node :=
  match n with
  | O => x
  | S n' => Some (DictNode [Some (KeyValNode "a" (nest n' x))])
  end.

(** The node stack has as many slots as the lexer has levels, and a
    dictionary takes two of them, one for itself and one for the pair being
    read: 256 dictionaries around an integer make the parser write past the
    end of the stack, 255 do not. *)
Lemma deep_tree_overruns_node_stack :
  faithful_slot (nest 256 (Some (IntegerNode 1))) = true /\
  height_slot (nest 256 (Some (IntegerNode 1))) = 256%nat /\
  undefined (CreateNodeFromJSON (fun _ => "")
               (SerializeNodeToJSON (nest 256 (Some (IntegerNode 1))) compact "")) = true /\
  undefined (CreateNodeFromJSON (fun _ => "")
               (SerializeNodeToJSON (nest 255 (Some (IntegerNode 1))) compact "")) = false.
Proof. evaluate. Qed.

(** Doubles that come back: those with a fraction that the 17 digits of
    their text give back, and the small ones with few digits. *)
Lemma doubles_that_come_back :
  double_ok (dec 15 (-1)) = true /\ double_ok (dec 1 (-1)) = true /\
  double_ok (dec 1 (-7)) = true /\
  double_ok (dec 1 0) = false /\ double_ok (dec 12345678905 (-1)) = false.
Proof. evaluate. Qed.


Definition round_trip_tree : option Node :=
  Some (DictNode
    [Some (KeyValNode "a"
       (Some (ArrayNode [Some (IntegerNode (-12)); None; Some (BooleanNode true);
                         Some (StringNode "x/y"); Some (DictNode []);
                         Some (NumberNode (dec 15 (-1)))])));
     Some (KeyValNode "b" (Some (StringNode (String LF "z"))));
     Some (KeyValNode "c" (Some (NumberNode (dec 1 (-7)))))]).

